(** * Herder: shallow embedding of src/herder/Herder.cpp

    The Herder sits between the FBA engine and the rest of the node.  This
    development embeds the member functions of [Herder] as state-passing
    functions over a record of the class fields; calls into collaborators
    (FBA engine, overlay, ledger, fetchers, timers, validation callbacks) are
    recorded, in program order, in a list of [Event]s. *)

From Stdlib Require Import ZArith List Bool Lia Sorted.
From stdpp Require Import base list gmap.
Import ListNotations.
Local Open Scope Z_scope.

(** ** Machine integers *)

Definition wrap64 (z : Z) : Z := z mod 2 ^ 64.

Definition INT_MIN : Z := - 2 ^ 31.
Definition INT_MAX : Z := 2 ^ 31 - 1.

(** [(int) x] for an integer [x] of a wider integral type. *)
Definition to_int (z : Z) : Z := (z + 2 ^ 31) mod 2 ^ 32 - 2 ^ 31.

(** ** Data model *)

(** [uint256] is a 32-byte array; the array is read as a big-endian number,
    so that the lexicographic [operator<] of the array is [Z.ltb] and
    [operator==] is [Z.eqb]. *)
Abbreviation uint256 := Z (only parsing).
Abbreviation Hash := Z (only parsing).

#[global] Instance byte_eq_dec : EqDecision Byte.byte := Byte.byte_eq_dec.
#[global] Instance byte_countable : Countable Byte.byte :=
  inj_countable Byte.to_N Byte.of_N Byte.of_to_N.

(** [Value] is the opaque byte vector FBA carries. *)
Abbreviation Value := (list Byte.byte) (only parsing).
Abbreviation Signature := (list Byte.byte) (only parsing).

(** The XDR declarations are not part of Herder.cpp; the fields are the ones
    the code reads ([b.value.txSetHash], [b.value.closeTime],
    [b.value.baseFee], [b.nodeID], [b.signature]). *)
Record StellarBallotValue := {
  txSetHash : Hash;
  closeTime : Z;   (* uint64 *)
  baseFee : Z      (* uint32 *)
}.

Record StellarBallot := {
  nodeID : uint256;
  signature : Signature;
  value : StellarBallotValue
}.

Record FBABallot := {
  counter : Z;     (* uint32 *)
  bvalue : Value
}.

#[global] Instance FBABallot_eq_dec : EqDecision FBABallot.
Proof. solve_decision. Defined.

#[global] Instance FBABallot_countable : Countable FBABallot :=
  inj_countable' (fun b => (counter b, bvalue b))
                 (fun p => {| counter := p.1; bvalue := p.2 |})
                 (fun b => match b with Build_FBABallot _ _ => eq_refl end).

Record FBAQuorumSet := {
  threshold : Z;
  validators : list uint256
}.

Record FBAEnvelope := {
  env_nodeID : uint256;
  slotIndex : Z;   (* envelope.statement.slotIndex, uint64 *)
  env_payload : Value
}.

Record LedgerHeader := {
  ledgerSeq : Z;   (* uint64 *)
  hash : Hash;
  lh_closeTime : Z (* uint64 *)
}.

(** What Herder reads of a [TransactionFrame]: [getFullHash()],
    [getSourceID()] and [getSourceAccount().getBalance()]. *)
Record TransactionFrame := {
  getFullHash : Hash;
  getSourceID : uint256;
  getBalance : Z
}.

Record TxSetFrame := {
  mTransactions : list TransactionFrame;
  mPreviousLedgerHash : Hash;
  getContentsHash : Hash
}.

(** [Application::State]: only [SYNCED_STATE] is named by Herder. *)
Inductive State :=
| SYNCED_STATE
| OTHER_STATE (n : nat).

#[global] Instance State_eq_dec : EqDecision State.
Proof. solve_decision. Defined.

(** [asio::error_code]: success, [operation_aborted], or another error. *)
Inductive error_code :=
| no_error
| operation_aborted
| other_error (n : nat).

(** A [std::function<void(bool)>] validation callback, named by an index;
    invoking it is the event [Cb]. *)
Definition Callback := nat.

(** ** Collaborators *)

(** The answers [mApp] gives during one call. *)
Record Application := {
  DESIRED_BASE_FEE : Z;                          (* getConfig() *)
  clock_now : Z;                                 (* getClock().now(), in ns *)
  getState : State;
  getTxFee : Z;                                  (* getLedgerGateway() *)
  tx_checkValid : TransactionFrame -> bool;      (* tx->checkValid(mApp) *)
  txSet_checkValid : TxSetFrame -> bool;         (* txSet->checkValid(mApp) *)
  (* mTxSetFetcher[i].fetchItem(hash, askNetwork) *)
  fetchItem : Z -> Hash -> bool -> option TxSetFrame
}.

(** Cryptography and codec used by Herder, and the results of the integer
    conversions and operations that C++ leaves undefined. *)
Class Primitives := {
  (* SHA256 over xdr(slotIndex), xdr(counter), xdr(node) *)
  sha256_king : Z -> Z -> uint256 -> uint256;
  (* xdr::xdr_from_opaque; [None] when it throws *)
  xdr_from_opaque : Value -> option StellarBallot;
  (* what a throwing xdr_from_opaque leaves in its output argument *)
  xdr_from_opaque_partial : Value -> StellarBallot;
  (* PublicKey::verifySig(nodeID, signature, xdr_to_msg(value)) *)
  verifySig : uint256 -> Signature -> StellarBallotValue -> bool;
  (* VirtualClock::pointToTimeT *)
  pointToTimeT : Z -> Z;
  (* (int) of a double whose value is outside the range of int *)
  double_to_int_out_of_range : Z -> Z;
  (* an int subtraction whose difference is outside the range of int *)
  int_sub_out_of_range : Z -> Z
}.

(** The compile-time constants of Herder.h. *)
Class Constants := {
  MAX_TIME_SLIP_SECONDS : Z;
  MAX_FBA_TIMEOUT_SECONDS : Z;
  EXP_LEDGER_TIMESPAN_SECONDS : Z;
  LEDGER_VALIDITY_BRACKET : Z;
  NODE_EXPIRATION_SECONDS : Z
}.

(** The part of the [FBA] base class Herder reads. *)
Record FBA := {
  getLocalNodeID : uint256;
  getLocalQuorumSet : FBAQuorumSet;
  secretKey_isZero : bool;                       (* getSecretKey().isZero() *)
  isVBlocking : list uint256 -> bool
}.

(** A deferred ballot-acceptance timer: its delay and the callback its
    handler captured. *)
Record VirtualTimer := {
  expires_ms : Z;
  captured_cb : Callback
}.

(** Calls into collaborators, in program order. *)
Inductive Event :=
| Cb (cb : Callback) (valid : bool)
| FBA_receiveEnvelope (e : FBAEnvelope) (cb : Callback)
| FBA_purgeNode (n : uint256)
| FBA_purgeSlots (upTo : Z)
| Overlay_broadcastTx (tx : TransactionFrame)
| Ledger_externalizeValue (s : TxSetFrame)
| Fetcher_stopFetchingAll (i : Z)
| Fetcher_clear (i : Z)
| BumpTimer_cancel
| TriggerTimer_cancel
| TriggerTimer_arm (timeout_ns : Z)
| BallotTimer_cancelled (t : VirtualTimer)
| Log_error.

(** A [std::map] iterated in key order: an association list kept sorted by
    key. *)
Definition smap (V : Type) := list (Z * V).

Fixpoint smap_lookup {V} (k : Z) (m : smap V) : option V :=
  match m with
  | [] => None
  | (k', v) :: r => if k =? k' then Some v else smap_lookup k r
  end.

Fixpoint smap_insert {V} (k : Z) (v : V) (m : smap V) : smap V :=
  match m with
  | [] => [(k, v)]
  | (k', v') :: r =>
      if k <? k' then (k, v) :: m
      else if k =? k' then (k, v) :: r
      else (k', v') :: smap_insert k v r
  end.

(** ** The Herder object *)

Record Herder := {
  fba : FBA;
  mReceivedTransactions : list (list TransactionFrame);
  mCurrentTxSetFetcher : Z;
  mLedgersToWaitToParticipate : Z;
  mLastClosedLedger : LedgerHeader;
  mLastTrigger : Z;
  mBallotValidationTimers : gmap FBABallot (smap (list VirtualTimer));
  mFutureEnvelopes : gmap Z (list (FBAEnvelope * Callback));
  mTxSetFetches : gmap Z (list Callback);
  mNodeLastAccess : smap Z
}.

Definition set_mReceivedTransactions (p : list (list TransactionFrame)) (h : Herder) : Herder :=
  {| fba := fba h; mReceivedTransactions := p;
     mCurrentTxSetFetcher := mCurrentTxSetFetcher h;
     mLedgersToWaitToParticipate := mLedgersToWaitToParticipate h;
     mLastClosedLedger := mLastClosedLedger h;
     mLastTrigger := mLastTrigger h;
     mBallotValidationTimers := mBallotValidationTimers h;
     mFutureEnvelopes := mFutureEnvelopes h;
     mTxSetFetches := mTxSetFetches h;
     mNodeLastAccess := mNodeLastAccess h |}.

Definition set_mCurrentTxSetFetcher (i : Z) (h : Herder) : Herder :=
  {| fba := fba h; mReceivedTransactions := mReceivedTransactions h;
     mCurrentTxSetFetcher := i;
     mLedgersToWaitToParticipate := mLedgersToWaitToParticipate h;
     mLastClosedLedger := mLastClosedLedger h;
     mLastTrigger := mLastTrigger h;
     mBallotValidationTimers := mBallotValidationTimers h;
     mFutureEnvelopes := mFutureEnvelopes h;
     mTxSetFetches := mTxSetFetches h;
     mNodeLastAccess := mNodeLastAccess h |}.

Definition set_mLedgersToWaitToParticipate (n : Z) (h : Herder) : Herder :=
  {| fba := fba h; mReceivedTransactions := mReceivedTransactions h;
     mCurrentTxSetFetcher := mCurrentTxSetFetcher h;
     mLedgersToWaitToParticipate := n;
     mLastClosedLedger := mLastClosedLedger h;
     mLastTrigger := mLastTrigger h;
     mBallotValidationTimers := mBallotValidationTimers h;
     mFutureEnvelopes := mFutureEnvelopes h;
     mTxSetFetches := mTxSetFetches h;
     mNodeLastAccess := mNodeLastAccess h |}.

Definition set_mLastClosedLedger (l : LedgerHeader) (h : Herder) : Herder :=
  {| fba := fba h; mReceivedTransactions := mReceivedTransactions h;
     mCurrentTxSetFetcher := mCurrentTxSetFetcher h;
     mLedgersToWaitToParticipate := mLedgersToWaitToParticipate h;
     mLastClosedLedger := l;
     mLastTrigger := mLastTrigger h;
     mBallotValidationTimers := mBallotValidationTimers h;
     mFutureEnvelopes := mFutureEnvelopes h;
     mTxSetFetches := mTxSetFetches h;
     mNodeLastAccess := mNodeLastAccess h |}.

Definition set_mBallotValidationTimers
    (t : gmap FBABallot (smap (list VirtualTimer))) (h : Herder) : Herder :=
  {| fba := fba h; mReceivedTransactions := mReceivedTransactions h;
     mCurrentTxSetFetcher := mCurrentTxSetFetcher h;
     mLedgersToWaitToParticipate := mLedgersToWaitToParticipate h;
     mLastClosedLedger := mLastClosedLedger h;
     mLastTrigger := mLastTrigger h;
     mBallotValidationTimers := t;
     mFutureEnvelopes := mFutureEnvelopes h;
     mTxSetFetches := mTxSetFetches h;
     mNodeLastAccess := mNodeLastAccess h |}.

Definition set_mFutureEnvelopes
    (f : gmap Z (list (FBAEnvelope * Callback))) (h : Herder) : Herder :=
  {| fba := fba h; mReceivedTransactions := mReceivedTransactions h;
     mCurrentTxSetFetcher := mCurrentTxSetFetcher h;
     mLedgersToWaitToParticipate := mLedgersToWaitToParticipate h;
     mLastClosedLedger := mLastClosedLedger h;
     mLastTrigger := mLastTrigger h;
     mBallotValidationTimers := mBallotValidationTimers h;
     mFutureEnvelopes := f;
     mTxSetFetches := mTxSetFetches h;
     mNodeLastAccess := mNodeLastAccess h |}.

Definition set_mTxSetFetches (f : gmap Z (list Callback)) (h : Herder) : Herder :=
  {| fba := fba h; mReceivedTransactions := mReceivedTransactions h;
     mCurrentTxSetFetcher := mCurrentTxSetFetcher h;
     mLedgersToWaitToParticipate := mLedgersToWaitToParticipate h;
     mLastClosedLedger := mLastClosedLedger h;
     mLastTrigger := mLastTrigger h;
     mBallotValidationTimers := mBallotValidationTimers h;
     mFutureEnvelopes := mFutureEnvelopes h;
     mTxSetFetches := f;
     mNodeLastAccess := mNodeLastAccess h |}.

(** ** TxPool: [recvTransaction], [removeReceivedTx], bucket rotation *)

(** The inner loop of [recvTransaction] over one bucket: [None] when a
    transaction with the same full hash is met ([return false]), otherwise the
    updated [numOthers]. *)
Fixpoint recv_scan_list (tx : TransactionFrame) (l : list TransactionFrame)
    (numOthers : Z) : option Z :=
  match l with
  | [] => Some numOthers
  | oldTX :: r =>
      if getFullHash tx =? getFullHash oldTX then None
      else recv_scan_list tx r
             (if getSourceID oldTX =? getSourceID tx then numOthers + 1
              else numOthers)
  end.

(** The outer loop over all buckets. *)
Fixpoint recv_scan (tx : TransactionFrame) (pool : list (list TransactionFrame))
    (numOthers : Z) : option Z :=
  match pool with
  | [] => Some numOthers
  | l :: r =>
      match recv_scan_list tx l numOthers with
      | None => None
      | Some n => recv_scan tx r n
      end
  end.

(** [mReceivedTransactions[0].push_back(tx)]. *)
Definition push_bucket0 (tx : TransactionFrame)
    (pool : list (list TransactionFrame)) : list (list TransactionFrame) :=
  alter (fun b => b ++ [tx]) 0%nat pool.

(** [Herder::recvTransaction]. *)
Definition recvTransaction (app : Application) (tx : TransactionFrame)
    (h : Herder) : bool * Herder :=
  match recv_scan tx (mReceivedTransactions h) 0 with
  | None => (false, h)
  | Some numOthers =>
      if negb (tx_checkValid app tx) then (false, h)
      else if getBalance tx <? (numOthers + 1) * getTxFee app then (false, h)
      else (true, set_mReceivedTransactions
                    (push_bucket0 tx (mReceivedTransactions h)) h)
  end.

(** The scan of one bucket in [removeReceivedTx]: the bucket with the first
    entry of matching full hash erased, or [None] when there is none. *)
Fixpoint erase_first (dropTx : TransactionFrame) (l : list TransactionFrame)
    : option (list TransactionFrame) :=
  match l with
  | [] => None
  | t :: r =>
      if getFullHash t =? getFullHash dropTx then Some r
      else match erase_first dropTx r with
           | Some r' => Some (t :: r')
           | None => None
           end
  end.

(** [Herder::removeReceivedTx] on the pool: the first entry with the full
    hash of [dropTx], in bucket order, is erased. *)
Fixpoint removeReceivedTx_pool (dropTx : TransactionFrame)
    (pool : list (list TransactionFrame)) : list (list TransactionFrame) :=
  match pool with
  | [] => []
  | l :: r =>
      match erase_first dropTx l with
      | Some l' => l' :: r
      | None => l :: removeReceivedTx_pool dropTx r
      end
  end.

Definition removeReceivedTx (dropTx : TransactionFrame) (h : Herder) : Herder :=
  set_mReceivedTransactions
    (removeReceivedTx_pool dropTx (mReceivedTransactions h)) h.

(** One iteration of the rotation loop of [valueExternalized] at index
    [n = S m]: every entry of bucket [n-1] is pushed to the back of bucket
    [n], then bucket [n-1] is cleared. *)
Definition rotate_step (m : nat) (pool : list (list TransactionFrame))
    : list (list TransactionFrame) :=
  let moved := default [] (pool !! m) in
  <[m := []]> (alter (fun b => b ++ moved) (S m) pool).

(** [for (size_t n = size - 1; n > 0; n--)], started at [n]. *)
Fixpoint rotate_from (n : nat) (pool : list (list TransactionFrame))
    : list (list TransactionFrame) :=
  match n with
  | O => pool
  | S m => rotate_from m (rotate_step m pool)
  end.

Definition rotate (pool : list (list TransactionFrame))
    : list (list TransactionFrame) :=
  rotate_from (length pool - 1)%nat pool.

(** The number of transactions of [l] with the source account of [tx]:
    what [numOthers] counts. *)
Definition same_source_count (tx : TransactionFrame)
    (l : list TransactionFrame) : Z :=
  Z.of_nat (length (filter (fun t => getSourceID t = getSourceID tx) l)).

(** A call either returns or stops at a failed [assert]. *)
Inductive outcome (A : Type) :=
| Returned (a : A)
| AssertFailed.
Arguments Returned {A} a.
Arguments AssertFailed {A}.

Section HerderCode.
Context `{Prim : Primitives} `{Cst : Constants}.

(** ** BallotCodec *)

Definition verifyStellarBallot (b : StellarBallot) : bool :=
  verifySig (nodeID b) (signature b) (value b).

(** ** ValueOrdering *)

(** [xdr::operator<] on [StellarBallotValue]: field by field, in declaration
    order. *)
Definition value_lt (a b : StellarBallotValue) : bool :=
  if txSetHash a <? txSetHash b then true
  else if txSetHash b <? txSetHash a then false
  else if closeTime a <? closeTime b then true
  else if closeTime b <? closeTime a then false
  else baseFee a <? baseFee b.

(** [Herder::compareValues].  A value that does not decode reaches
    [assert(false)], an unverified one fails its [assert]. *)
Definition compareValues (slotIndex : Z) (ballotCounter : Z) (v1 v2 : Value)
    : outcome Z :=
  match xdr_from_opaque v1, xdr_from_opaque v2 with
  | Some b1, Some b2 =>
      if negb (verifyStellarBallot b1) then AssertFailed
      else if negb (verifyStellarBallot b2) then AssertFailed
      else
        let h1 := sha256_king slotIndex ballotCounter (nodeID b1) in
        let h2 := sha256_king slotIndex ballotCounter (nodeID b2) in
        if h1 <? h2 then Returned (-1)
        else if h2 <? h1 then Returned 1
        else if value_lt (value b1) (value b2) then Returned (-1)
        else if value_lt (value b2) (value b1) then Returned (-1)
        else Returned 0
  | _, _ => AssertFailed
  end.

(** ** BallotValidator *)

(** [Herder::fetchTxSet]. *)
Definition fetchTxSet (app : Application) (h : Herder) (txSetHash : Hash)
    (askNetwork : bool) : option TxSetFrame :=
  fetchItem app (mCurrentTxSetFetcher h) txSetHash askNetwork.

(** The [validate] closure of [validateValue], run on a resolved set. *)
Definition validateValue_validate (app : Application) (h : Herder)
    (cb : Callback) (txSet : TxSetFrame) : list Event :=
  if (mLedgersToWaitToParticipate h =? 0) && negb (txSet_checkValid app txSet)
  then [Cb cb false]
  else [Cb cb true].

(** [Herder::validateValue].  When the tx set is not resolved the closure is
    queued in [mTxSetFetches]. *)
Definition validateValue (app : Application) (slot : Z) (fromNode : uint256)
    (v : Value) (cb : Callback) (h : Herder) : Herder * list Event :=
  match xdr_from_opaque v with
  | None => (h, [Cb cb false])
  | Some b =>
      if negb (verifyStellarBallot b) then (h, [Cb cb false])
      else if (mLedgersToWaitToParticipate h =? 0)
              && negb (wrap64 (ledgerSeq (mLastClosedLedger h) + 1) =? slot)
      then (h, [Cb cb false])
      else if (mLedgersToWaitToParticipate h =? 0)
              && (closeTime (value b) <=? lh_closeTime (mLastClosedLedger h))
      then (h, [Cb cb false])
      else
        match fetchTxSet app h (txSetHash (value b)) true with
        | None =>
            let waiters := default [] (mTxSetFetches h !! txSetHash (value b)) in
            (set_mTxSetFetches
               (<[txSetHash (value b) := waiters ++ [cb]]> (mTxSetFetches h)) h,
             [])
        | Some txSet => (h, validateValue_validate app h cb txSet)
        end
  end.

(** [(int) x] for a double of integral value [x]. *)
Definition double_to_int (x : Z) : Z :=
  if (INT_MIN <=? x) && (x <=? INT_MAX) then x
  else double_to_int_out_of_range x.

(** [(int)pow(2.0, i)]. *)
Definition pow2_int (i : Z) : Z := double_to_int (2 ^ i).

(** The counter-growth loop of [validateBallot]
    [for (i = 0; i < ballot.counter && timeNow + SLIP >= lastTrigger + sum; i++)
       sum += min(MAX_FBA_TIMEOUT_SECONDS, (int)pow(2.0, i))],
    with [remaining = ballot.counter - i]; the result is [sumTimeouts] at
    loop exit. *)
Fixpoint sumTimeouts_loop (remaining : nat) (i : Z)
    (timeNow lastTrigger sumTimeouts : Z) : Z :=
  match remaining with
  | O => sumTimeouts
  | S r =>
      if wrap64 (timeNow + MAX_TIME_SLIP_SECONDS)
           >=? wrap64 (lastTrigger + sumTimeouts)
      then sumTimeouts_loop r (i + 1) timeNow lastTrigger
             (wrap64 (sumTimeouts
                      + Z.min MAX_FBA_TIMEOUT_SECONDS (pow2_int i)))
      else sumTimeouts
  end.

(** The counter-growth check: [true] when [validateBallot] goes on past it. *)
Definition counter_growth_ok (timeNow lastTrigger : Z) (c : Z) : bool :=
  let sumTimeouts := sumTimeouts_loop (Z.to_nat c) 0 timeNow lastTrigger 0 in
  negb (wrap64 (timeNow + MAX_TIME_SLIP_SECONDS)
          <? wrap64 (lastTrigger + sumTimeouts)).

(** The loop over [getLocalQuorumSet().validators]; the state is
    [(isKing, isTrusted)]. *)
Fixpoint king_loop (slot c : Z) (bNode localNode : uint256)
    (vs : list uint256) (isKing isTrusted : bool) : bool * bool :=
  match vs with
  | [] => (isKing, isTrusted)
  | vID :: r =>
      let isTrusted' :=
        if (bNode =? vID) || (bNode =? localNode) then true else isTrusted in
      let hProposed := sha256_king slot c bNode in
      let hContender := sha256_king slot c vID in
      let isKing' := if hProposed <? hContender then false else isKing in
      king_loop slot c bNode localNode r isKing' isTrusted'
  end.

(** [isKing] and [isTrusted] as [validateBallot] has them after the loop. *)
Definition validateBallot_isKing (h : Herder) (slot : Z) (c : Z)
    (bNode : uint256) : bool :=
  fst (king_loop slot c bNode (getLocalNodeID (fba h))
         (validators (getLocalQuorumSet (fba h))) true false).

Definition validateBallot_isTrusted (h : Herder) (slot : Z) (c : Z)
    (bNode : uint256) : bool :=
  snd (king_loop slot c bNode (getLocalNodeID (fba h))
         (validators (getLocalQuorumSet (fba h))) true false).

(** The handler given to [ballotTimer.async_wait]:
    [[cb] (const asio::error_code& error) { return cb(true); }]. *)
Definition ballotTimer_handler (t : VirtualTimer) (error : error_code)
    : list Event :=
  [Cb (captured_cb t) true].

(** All timers of one entry of [mBallotValidationTimers]. *)
Definition timers_of (inner : smap (list VirtualTimer)) : list VirtualTimer :=
  flat_map snd inner.

(** [Herder::validateBallot].  The fee bounds compare [baseFee] with
    [DESIRED_BASE_FEE * .5] (a double: [fee < D / 2] is [2 * fee < D]) and
    with [DESIRED_BASE_FEE * 2].  In the deferring branch the timer is pushed
    under [(ballot, fromNode)]; erasing the ballot's entry cancels its
    timers. *)
Definition validateBallot (app : Application) (slot : Z) (fromNode : uint256)
    (ballot : FBABallot) (cb : Callback) (h : Herder) : Herder * list Event :=
  match xdr_from_opaque (bvalue ballot) with
  | None => (h, [Cb cb false])
  | Some b =>
      let timeNow := wrap64 (pointToTimeT (clock_now app)) in
      if closeTime (value b) >? wrap64 (timeNow + MAX_TIME_SLIP_SECONDS)
      then (h, [Cb cb false])
      else
      let lastTrigger := wrap64 (pointToTimeT (mLastTrigger h)) in
      if negb (counter_growth_ok timeNow lastTrigger (counter ballot))
      then (h, [Cb cb false])
      else if 2 * baseFee (value b) <? DESIRED_BASE_FEE app
      then (h, [Cb cb false])
      else if baseFee (value b) >? DESIRED_BASE_FEE app * 2
      then (h, [Cb cb false])
      else if secretKey_isZero (fba h) && (fromNode =? getLocalNodeID (fba h))
      then (h, [Cb cb false])
      else
      let isKing := validateBallot_isKing h slot (counter ballot) (nodeID b) in
      let isTrusted :=
        validateBallot_isTrusted h slot (counter ballot) (nodeID b) in
      if isKing && isTrusted then (h, [Cb cb true])
      else
        let ballotTimer :=
          {| expires_ms := double_to_int (1000 * 2 ^ counter ballot / 2);
             captured_cb := cb |} in
        let inner := default [] (mBallotValidationTimers h !! ballot) in
        let vec := default [] (smap_lookup fromNode inner) in
        let inner' := smap_insert fromNode (vec ++ [ballotTimer]) inner in
        let nodes := map fst inner' in
        if isVBlocking (fba h) nodes
        then (set_mBallotValidationTimers
                (delete ballot (mBallotValidationTimers h)) h,
              map BallotTimer_cancelled (timers_of inner'))
        else (set_mBallotValidationTimers
                (<[ballot := inner']> (mBallotValidationTimers h)) h,
              [])
  end.

(** ** SlotDriver *)

(** [std::chrono::seconds(s)] in clock ticks (nanoseconds). *)
Definition chrono_seconds (s : Z) : Z := s * 1000000000.

(** [for (auto tx : externalizedSet->mTransactions) removeReceivedTx(tx)]. *)
Definition removeReceivedTxs (txs : list TransactionFrame)
    (pool : list (list TransactionFrame)) : list (list TransactionFrame) :=
  fold_left (fun p tx => removeReceivedTx_pool tx p) txs pool.

(** The node-eviction loop of [valueExternalized]. *)
Definition purge_events (now : Z) (m : smap Z) : list Event :=
  flat_map (fun it : Z * Z =>
              if now - snd it >? chrono_seconds NODE_EXPIRATION_SECONDS
              then [FBA_purgeNode (fst it)] else []) m.

(** The ballot [valueExternalized] goes on with: the decoded one, or what the
    throwing decoder left in [b]. *)
Definition externalized_ballot (v : Value) : StellarBallot :=
  match xdr_from_opaque v with
  | Some b => b
  | None => xdr_from_opaque_partial v
  end.

Definition externalized_decode_log (v : Value) : list Event :=
  match xdr_from_opaque v with
  | Some _ => []
  | None => [Log_error]
  end.

(** [Herder::valueExternalized].  The ledger's [externalizeValue] is recorded
    as an event. *)
Definition valueExternalized (app : Application) (slot : Z) (v : Value)
    (h : Herder) : outcome (Herder * list Event) :=
  let b := externalized_ballot v in
  match fetchTxSet app h (txSetHash (value b)) false with
  | Some externalizedSet =>
      let cur := mCurrentTxSetFetcher h in
      let cur' := if cur =? 0 then 1 else 0 in
      let pool1 :=
        removeReceivedTxs (mTransactions externalizedSet)
          (mReceivedTransactions h) in
      if (length pool1 <? 2)%nat then AssertFailed
      else
        let rebroadcast := default [] (pool1 !! 1%nat) in
        Returned
          (set_mReceivedTransactions (rotate pool1)
             (set_mCurrentTxSetFetcher cur' h),
           [BumpTimer_cancel] ++ externalized_decode_log v
           ++ [Fetcher_stopFetchingAll cur; Fetcher_clear cur';
               Ledger_externalizeValue externalizedSet]
           ++ map Overlay_broadcastTx rebroadcast
           ++ purge_events (clock_now app) (mNodeLastAccess h)
           ++ (if slot >? LEDGER_VALIDITY_BRACKET
               then [FBA_purgeSlots (wrap64 (slot - LEDGER_VALIDITY_BRACKET))]
               else []))
  | None =>
      Returned (h, [BumpTimer_cancel] ++ externalized_decode_log v
                   ++ [Log_error])
  end.

(** The transactions handed to the overlay, in order. *)
Definition broadcasts (evs : list Event) : list TransactionFrame :=
  flat_map (fun e => match e with Overlay_broadcastTx tx => [tx] | _ => [] end)
           evs.

(** The envelopes handed to the FBA engine, in order. *)
Definition forwarded (evs : list Event) : list (FBAEnvelope * Callback) :=
  flat_map (fun e => match e with
                     | FBA_receiveEnvelope env cb => [(env, cb)]
                     | _ => []
                     end) evs.

(** The callback invocations, in order. *)
Definition callbacks (evs : list Event) : list (Callback * bool) :=
  flat_map (fun e => match e with Cb cb ok => [(cb, ok)] | _ => [] end) evs.

(** [x - y] on [int]: the difference when it is in the range of [int];
    otherwise the subtraction overflows, which C++ leaves undefined. *)
Definition int_sub (x y : Z) : Z :=
  if (INT_MIN <=? x - y) && (x - y <=? INT_MAX) then x - y
  else int_sub_out_of_range (x - y).

(** [minLedgerSeq] and [maxLedgerSeq] of [recvFBAEnvelope]. *)
Definition minLedgerSeq (h : Herder) : Z :=
  if int_sub (to_int (ledgerSeq (mLastClosedLedger h)))
       LEDGER_VALIDITY_BRACKET <? 0
  then 0
  else wrap64 (ledgerSeq (mLastClosedLedger h) - LEDGER_VALIDITY_BRACKET).

Definition maxLedgerSeq (h : Herder) : Z :=
  wrap64 (ledgerSeq (mLastClosedLedger h) + LEDGER_VALIDITY_BRACKET).

(** [Herder::recvFBAEnvelope]: the early [return] drops the envelope; the
    stash is followed by [return receiveEnvelope(envelope, cb)]. *)
Definition recvFBAEnvelope (envelope : FBAEnvelope) (cb : Callback)
    (h : Herder) : Herder * list Event :=
  if mLedgersToWaitToParticipate h =? 0 then
    if (slotIndex envelope >? maxLedgerSeq h)
       || (slotIndex envelope <? minLedgerSeq h)
    then (h, [])
    else
      let h' :=
        if slotIndex envelope >? wrap64 (ledgerSeq (mLastClosedLedger h) + 1)
        then
          let q := default [] (mFutureEnvelopes h !! slotIndex envelope) in
          set_mFutureEnvelopes
            (<[slotIndex envelope := q ++ [(envelope, cb)]]>
               (mFutureEnvelopes h)) h
        else h in
      (h', [FBA_receiveEnvelope envelope cb])
  else (h, [FBA_receiveEnvelope envelope cb]).

(** Every timer held in [mBallotValidationTimers]. *)
Definition all_ballot_timers
    (m : gmap FBABallot (smap (list VirtualTimer))) : list VirtualTimer :=
  flat_map (fun p : FBABallot * smap (list VirtualTimer) => timers_of (snd p))
           (map_to_list m).

(** The counter update of [ledgerClosed]. *)
Definition ledgerClosed_counter (app : Application) (n : Z) : Z :=
  if (n >? 0) && negb (bool_decide (getState app = SYNCED_STATE))
  then n - 1 else n.

(** [Herder::ledgerClosed].  Clearing [mBallotValidationTimers] cancels
    every timer it holds. *)
Definition ledgerClosed (app : Application) (ledger : LedgerHeader)
    (h : Herder) : Herder * list Event :=
  let cancelled :=
    map BallotTimer_cancelled (all_ballot_timers (mBallotValidationTimers h)) in
  let n := ledgerClosed_counter app (mLedgersToWaitToParticipate h) in
  let h' :=
    set_mLedgersToWaitToParticipate n
      (set_mBallotValidationTimers ∅ (set_mLastClosedLedger ledger h)) in
  if secretKey_isZero (fba h) then (h', cancelled)
  else if n >? 0 then (h', cancelled)
  else
    let now := clock_now app in
    let timeout :=
      if now - mLastTrigger h <? chrono_seconds EXP_LEDGER_TIMESPAN_SECONDS
      then chrono_seconds EXP_LEDGER_TIMESPAN_SECONDS - (now - mLastTrigger h)
      else 0 in
    (h', cancelled ++ [TriggerTimer_cancel; TriggerTimer_arm timeout]).

(** Modelled from the spec: the timer primitive (VirtualTimer / asio) is not
    part of Herder.cpp.  "Any pending timer observes an operation-aborted
    error": a cancelled ballot timer has its handler run with
    [operation_aborted]; an expired one with no error. *)
Definition dispatch (e : Event) : list Event :=
  match e with
  | BallotTimer_cancelled t => ballotTimer_handler t operation_aborted
  | _ => []
  end.

Definition handlers_run (evs : list Event) : list Event :=
  flat_map dispatch evs.

(** The cumulative timeout of the specification,
    [Σ_{k=0..n-1} min(MAX_FBA_TIMEOUT_SECONDS, 2^k)]. *)
Fixpoint sum_timeouts (n : nat) : Z :=
  match n with
  | O => 0
  | S m => sum_timeouts m + Z.min MAX_FBA_TIMEOUT_SECONDS (2 ^ Z.of_nat m)
  end.

End HerderCode.


(** ** The remaining member functions *)

Definition set_mLastTrigger (t : Z) (h : Herder) : Herder :=
  {| fba := fba h; mReceivedTransactions := mReceivedTransactions h;
     mCurrentTxSetFetcher := mCurrentTxSetFetcher h;
     mLedgersToWaitToParticipate := mLedgersToWaitToParticipate h;
     mLastClosedLedger := mLastClosedLedger h;
     mLastTrigger := t;
     mBallotValidationTimers := mBallotValidationTimers h;
     mFutureEnvelopes := mFutureEnvelopes h;
     mTxSetFetches := mTxSetFetches h;
     mNodeLastAccess := mNodeLastAccess h |}.

Definition set_mNodeLastAccess (m : smap Z) (h : Herder) : Herder :=
  {| fba := fba h; mReceivedTransactions := mReceivedTransactions h;
     mCurrentTxSetFetcher := mCurrentTxSetFetcher h;
     mLedgersToWaitToParticipate := mLedgersToWaitToParticipate h;
     mLastClosedLedger := mLastClosedLedger h;
     mLastTrigger := mLastTrigger h;
     mBallotValidationTimers := mBallotValidationTimers h;
     mFutureEnvelopes := mFutureEnvelopes h;
     mTxSetFetches := mTxSetFetches h;
     mNodeLastAccess := m |}.

(** The fields the functions above do not touch: the value being proposed
    and the waiters of the quorum-set fetcher. *)
Record HerderObject := {
  herder : Herder;
  mCurrentValue : Value;
  mFBAQSetFetches : gmap Z (list Callback)
}.

Definition set_herder (h : Herder) (o : HerderObject) : HerderObject :=
  {| herder := h; mCurrentValue := mCurrentValue o;
     mFBAQSetFetches := mFBAQSetFetches o |}.

(** Further answers of the collaborators: what the fetchers say when an item
    is delivered, the quorum-set cache, the ledger master and the config. *)
Record Gateways := {
  (* mTxSetFetcher[i].recvItem(txSet) *)
  txSet_recvItem : Z -> TxSetFrame -> bool;
  (* mFBAQSetFetcher.fetchItem(hash, askNetwork) *)
  qSet_fetchItem : Hash -> bool -> option FBAQuorumSet;
  (* mFBAQSetFetcher.recvItem(qSet) *)
  qSet_recvItem : FBAQuorumSet -> bool;
  (* getLedgerMaster().getLastClosedLedgerHeader() *)
  getLastClosedLedgerHeader : LedgerHeader;
  (* getConfig().START_NEW_NETWORK *)
  START_NEW_NETWORK : bool
}.

(** The local key and the encoders Herder writes with. *)
Class Signing := {
  (* getSecretKey().getPublicKey() *)
  getPublicKey : uint256;
  (* getSecretKey().sign(xdr::xdr_to_msg(value)) *)
  secretKey_sign : StellarBallotValue -> Signature;
  (* xdr::xdr_to_opaque *)
  xdr_to_opaque : StellarBallot -> Value;
  (* TxSetFrame::getContentsHash of a set built from its transactions and
     previous ledger hash *)
  contentsHash : list TransactionFrame -> Hash -> Hash;
  (* sha256(xdr::xdr_to_msg(qSet)) *)
  qSet_hash : FBAQuorumSet -> Hash
}.

(** Calls the remaining functions make, beside the [Event]s above. *)
Inductive Action :=
| Ev (e : Event)
| FBA_prepareValue (slot : Z) (v : Value) (bumpCounter : bool)
| Overlay_broadcastEnvelope (e : FBAEnvelope)
| BumpTimer_arm (seconds : Z) (slot : Z) (ballot : FBABallot)
| QSetCb (cb : Callback) (q : FBAQuorumSet).

Section HerderCodeRest.
Context `{Prim : Primitives} `{Cst : Constants} `{Sig : Signing}.

(** [Herder::signStellarBallot]. *)
Definition signStellarBallot (b : StellarBallot) : StellarBallot :=
  {| nodeID := getPublicKey;
     signature := secretKey_sign (value b);
     value := value b |}.

(** [Herder::nodeTouched]: [mNodeLastAccess[nodeID] = now]. *)
Definition nodeTouched (app : Application) (node : uint256) (h : Herder)
    : Herder :=
  set_mNodeLastAccess
    (smap_insert node (clock_now app) (mNodeLastAccess h)) h.

(** [Herder::emitEnvelope]. *)
Definition emitEnvelope (envelope : FBAEnvelope) (h : Herder) : list Action :=
  if mLedgersToWaitToParticipate h >? 0 then []
  else [Overlay_broadcastEnvelope envelope].

(** [Herder::ballotDidHearFromQuorum]; the timer is armed for
    [(int)pow(2.0, ballot.counter)] seconds with [expireBallot] bound to the
    slot and the ballot. *)
Definition ballotDidHearFromQuorum (slot : Z) (ballot : FBABallot) (h : Herder)
    : outcome (list Action) :=
  if mLedgersToWaitToParticipate h >? 0 then Returned []
  else if negb (slot =? wrap64 (ledgerSeq (mLastClosedLedger h) + 1))
  then AssertFailed
  else Returned [Ev BumpTimer_cancel;
                 BumpTimer_arm (pow2_int (counter ballot)) slot ballot].

(** [Herder::expireBallot]. *)
Definition expireBallot (error : error_code) (slot : Z) (ballot : FBABallot)
    (o : HerderObject) : outcome (list Action) :=
  match error with
  | operation_aborted => Returned []
  | _ =>
      if negb (slot =? wrap64 (ledgerSeq (mLastClosedLedger (herder o)) + 1))
      then AssertFailed
      else Returned [FBA_prepareValue slot (mCurrentValue o) true]
  end.

(** [for (auto tx : txSet->mTransactions) recvTransaction(tx)]. *)
Definition recvTransactions (app : Application) (txs : list TransactionFrame)
    (h : Herder) : Herder :=
  fold_left (fun h tx => snd (recvTransaction app tx h)) txs h.

(** [Herder::recvTxSet]: the pending [validate] closures of the set's hash
    are run in order, then their entry is erased. *)
Definition recvTxSet (app : Application) (gw : Gateways) (txSet : TxSetFrame)
    (h : Herder) : Herder * list Event :=
  if txSet_recvItem gw (mCurrentTxSetFetcher h) txSet then
    let h1 := recvTransactions app (mTransactions txSet) h in
    match mTxSetFetches h1 !! getContentsHash txSet with
    | Some waiters =>
        (set_mTxSetFetches (delete (getContentsHash txSet) (mTxSetFetches h1))
           h1,
         flat_map (fun cb => validateValue_validate app h1 cb txSet) waiters)
    | None => (h1, [])
    end
  else (h, []).

(** The replay loop of [triggerNextLedger]. *)
Definition replay (envs : list (FBAEnvelope * Callback)) (h : Herder)
    : Herder * list Event :=
  fold_left (fun acc p =>
               let r := recvFBAEnvelope (fst p) (snd p) (fst acc) in
               (fst r, snd acc ++ snd r))
            envs (h, []).

(** The set [triggerNextLedger] proposes: every pooled transaction, in bucket
    order. *)
Definition proposedSet (h : Herder) : TxSetFrame :=
  let txs := concat (mReceivedTransactions h) in
  {| mTransactions := txs;
     mPreviousLedgerHash := hash (mLastClosedLedger h);
     getContentsHash := contentsHash txs (hash (mLastClosedLedger h)) |}.

(** [nextCloseTime] of [triggerNextLedger]. *)
Definition nextCloseTime (app : Application) (h : Herder) : Z :=
  let t := wrap64 (pointToTimeT (clock_now app)) in
  if t <=? lh_closeTime (mLastClosedLedger h)
  then wrap64 (lh_closeTime (mLastClosedLedger h) + 1)
  else t.

(** The ballot [triggerNextLedger] signs. *)
Definition proposedBallot (app : Application) (h : Herder) : StellarBallot :=
  signStellarBallot
    {| nodeID := 0; signature := [];
       value := {| txSetHash := getContentsHash (proposedSet h);
                   closeTime := nextCloseTime app h;
                   baseFee := DESIRED_BASE_FEE app |} |}.

(** [Herder::triggerNextLedger]. *)
Definition triggerNextLedger (app : Application) (gw : Gateways)
    (error : error_code) (o : HerderObject) : HerderObject * list Action :=
  match error with
  | no_error =>
      let h0 := set_mLastTrigger (clock_now app) (herder o) in
      let set := proposedSet h0 in
      let '(h1, evs1) := recvTxSet app gw set h0 in
      let slot := wrap64 (ledgerSeq (mLastClosedLedger h1) + 1) in
      let v := xdr_to_opaque (proposedBallot app h0) in
      let '(h2, evs2) :=
        replay (default [] (mFutureEnvelopes h1 !! slot)) h1 in
      ({| herder := set_mFutureEnvelopes (delete slot (mFutureEnvelopes h2)) h2;
          mCurrentValue := v;
          mFBAQSetFetches := mFBAQSetFetches o |},
       map Ev evs1 ++ [FBA_prepareValue slot v false] ++ map Ev evs2)
  | _ => (o, [])
  end.

(** [Herder::bootstrap]. *)
Definition bootstrap (app : Application) (gw : Gateways) (o : HerderObject)
    : outcome (HerderObject * list Action) :=
  if secretKey_isZero (fba (herder o)) then AssertFailed
  else if negb (START_NEW_NETWORK gw) then AssertFailed
  else
    Returned
      (triggerNextLedger app gw no_error
         (set_herder
            (set_mLedgersToWaitToParticipate 0
               (set_mLastClosedLedger (getLastClosedLedgerHeader gw)
                  (herder o))) o)).

(** [Herder::retrieveQuorumSet]. *)
Definition retrieveQuorumSet (gw : Gateways) (fromNode : uint256)
    (qSetHash : Hash) (cb : Callback) (o : HerderObject)
    : HerderObject * list Action :=
  match qSet_fetchItem gw qSetHash true with
  | None =>
      let waiters := default [] (mFBAQSetFetches o !! qSetHash) in
      ({| herder := herder o; mCurrentValue := mCurrentValue o;
          mFBAQSetFetches :=
            <[qSetHash := waiters ++ [cb]]> (mFBAQSetFetches o) |},
       [])
  | Some qSet => (o, [QSetCb cb qSet])
  end.

(** [Herder::recvFBAQuorumSet]. *)
Definition recvFBAQuorumSet (gw : Gateways) (qSet : FBAQuorumSet)
    (o : HerderObject) : HerderObject * list Action :=
  if qSet_recvItem gw qSet then
    match mFBAQSetFetches o !! qSet_hash qSet with
    | Some waiters =>
        ({| herder := herder o; mCurrentValue := mCurrentValue o;
            mFBAQSetFetches := delete (qSet_hash qSet) (mFBAQSetFetches o) |},
         map (fun cb => QSetCb cb qSet) waiters)
    | None => (o, [])
    end
  else (o, []).

(** [Herder::Herder]: four empty buckets, fetcher 0, three ledgers to wait,
    last trigger now; the local quorum set is then handed to
    [recvFBAQuorumSet]. *)
Definition Herder_new (app : Application) (gw : Gateways) (base : FBA)
    : HerderObject * list Action :=
  recvFBAQuorumSet gw (getLocalQuorumSet base)
    {| herder :=
         {| fba := base;
            mReceivedTransactions := replicate 4 [];
            mCurrentTxSetFetcher := 0;
            mLedgersToWaitToParticipate := 3;
            mLastClosedLedger :=
              {| ledgerSeq := 0; hash := 0; lh_closeTime := 0 |};
            mLastTrigger := clock_now app;
            mBallotValidationTimers := ∅;
            mFutureEnvelopes := ∅;
            mTxSetFetches := ∅;
            mNodeLastAccess := [] |};
       mCurrentValue := [];
       mFBAQSetFetches := ∅ |}.

End HerderCodeRest.

(** ** Invariants of the transaction pool and of the access map *)

(** No two pooled transactions have the same full hash. *)
Definition pool_unique (pool : list (list TransactionFrame)) : Prop :=
  NoDup (getFullHash <$> concat pool).

(** The keys of a [std::map] come in strictly increasing order. *)
Definition smap_sorted {V} (m : smap V) : Prop :=
  StronglySorted Z.lt (map fst m).

(** Every stashed future envelope sits under its own slot index. *)
Definition stash_keyed (h : Herder) : Prop :=
  forall k envs p,
    mFutureEnvelopes h !! k = Some envs -> p ∈ envs -> slotIndex (fst p) = k.

Definition herder_inv (h : Herder) : Prop :=
  length (mReceivedTransactions h) = 4%nat
  /\ pool_unique (mReceivedTransactions h)
  /\ stash_keyed h
  /\ smap_sorted (mNodeLastAccess h).

(** The envelopes among a list of actions, in order. *)
Definition forwarded_actions (acts : list Action)
    : list (FBAEnvelope * Callback) :=
  flat_map (fun a => match a with
                     | Ev (FBA_receiveEnvelope env cb) => [(env, cb)]
                     | _ => []
                     end) acts.

Section HerderSteps.
Context `{Prim : Primitives} `{Cst : Constants} `{Sig : Signing}.

(** One call of a public member function, with whatever the collaborators
    answer during the call. *)
Inductive step : HerderObject -> HerderObject -> Prop :=
| step_recvTransaction app tx o :
    step o (set_herder (snd (recvTransaction app tx (herder o))) o)
| step_recvTxSet app gw txSet o :
    step o (set_herder (fst (recvTxSet app gw txSet (herder o))) o)
| step_validateValue app slot fromNode v cb o :
    step o (set_herder
              (fst (validateValue app slot fromNode v cb (herder o))) o)
| step_validateBallot app slot fromNode ballot cb o :
    step o (set_herder
              (fst (validateBallot app slot fromNode ballot cb (herder o))) o)
| step_valueExternalized app slot v o h' evs :
    valueExternalized app slot v (herder o) = Returned (h', evs) ->
    step o (set_herder h' o)
| step_recvFBAEnvelope envelope cb o :
    step o (set_herder (fst (recvFBAEnvelope envelope cb (herder o))) o)
| step_ledgerClosed app ledger o :
    step o (set_herder (fst (ledgerClosed app ledger (herder o))) o)
| step_nodeTouched app node o :
    step o (set_herder (nodeTouched app node (herder o)) o)
| step_triggerNextLedger app gw error o :
    step o (fst (triggerNextLedger app gw error o))
| step_bootstrap app gw o o' acts :
    bootstrap app gw o = Returned (o', acts) -> step o o'
| step_retrieveQuorumSet gw fromNode qSetHash cb o :
    step o (fst (retrieveQuorumSet gw fromNode qSetHash cb o))
| step_recvFBAQuorumSet gw qSet o :
    step o (fst (recvFBAQuorumSet gw qSet o)).

(** The Herder objects that calls can lead to from a freshly constructed
    one. *)
Inductive reachable : HerderObject -> Prop :=
| reachable_new app gw base : reachable (fst (Herder_new app gw base))
| reachable_step o o' : reachable o -> step o o' -> reachable o'.

End HerderSteps.
(** ** Concrete collaborators for the examples *)

(** Constants used in the examples. *)
Definition example_constants : Constants :=
  {| MAX_TIME_SLIP_SECONDS := 60;
     MAX_FBA_TIMEOUT_SECONDS := 240;
     EXP_LEDGER_TIMESPAN_SECONDS := 2;
     LEDGER_VALIDITY_BRACKET := 10;
     NODE_EXPIRATION_SECONDS := 240 |}.

Definition byte_of_Z (z : Z) : Byte.byte :=
  default Byte.x00 (Byte.of_N (Z.to_N (z mod 256))).

(** [n] bytes, big-endian. *)
Fixpoint be_encode (n : nat) (z : Z) : list Byte.byte :=
  match n with
  | O => []
  | S m => be_encode m (z / 256) ++ [byte_of_Z z]
  end.

Definition be_decode (l : list Byte.byte) : Z :=
  fold_left (fun acc b => acc * 256 + Z.of_N (Byte.to_N b)) l 0.

(** A fixed-width encoding of [StellarBallot] for the examples: node id (32
    bytes), signature (64), tx-set hash (32), close time (8), base fee (4). *)
Definition example_to_opaque (b : StellarBallot) : list Byte.byte :=
  be_encode 32 (nodeID b)
  ++ take 64 (signature b ++ replicate 64 Byte.x00)
  ++ be_encode 32 (txSetHash (value b))
  ++ be_encode 8 (closeTime (value b))
  ++ be_encode 4 (baseFee (value b)).

Definition example_from_opaque (v : list Byte.byte) : option StellarBallot :=
  if (length v =? 140)%nat then
    Some {| nodeID := be_decode (take 32 v);
            signature := take 64 (drop 32 v);
            value := {| txSetHash := be_decode (take 32 (drop 96 v));
                        closeTime := be_decode (take 8 (drop 128 v));
                        baseFee := be_decode (drop 136 v) |} |}
  else None.

(** A stand-in signature scheme for the examples: the signature of a value
    by a node is the 64-byte encoding of the sum of the node id and the
    fields of the value. *)
Definition example_sign (node : Z) (v : StellarBallotValue) : list Byte.byte :=
  be_encode 64 (node + txSetHash v + closeTime v + baseFee v).

Definition example_primitives : Primitives :=
  {| sha256_king := fun slot c node => (slot + c + node) mod 2 ^ 256;
     xdr_from_opaque := example_from_opaque;
     xdr_from_opaque_partial := fun _ =>
       {| nodeID := 0; signature := [];
          value := {| txSetHash := 0; closeTime := 0; baseFee := 0 |} |};
     verifySig := fun node sig v =>
       bool_decide (sig = example_sign node v);
     pointToTimeT := fun t => t / 1000000000;
     double_to_int_out_of_range := fun _ => INT_MIN;
     int_sub_out_of_range := to_int |}.

Definition example_txset : TxSetFrame :=
  {| mTransactions := []; mPreviousLedgerHash := 0; getContentsHash := 77 |}.

(** An application at clock time 1000 s, synced, with fee 10; the tx-set
    fetchers hold [example_txset] under hash 77. *)
Definition example_app : Application :=
  {| DESIRED_BASE_FEE := 10;
     clock_now := 1000 * 1000000000;
     getState := SYNCED_STATE;
     getTxFee := 10;
     tx_checkValid := fun _ => true;
     txSet_checkValid := fun _ => true;
     fetchItem := fun _ hash _ =>
       if hash =? 77 then Some example_txset else None |}.

(** The Herder as its constructor leaves it (four empty buckets, three
    ledgers to wait), local node 1 with quorum set {1, 2, 3}; last trigger at
    clock time 990 s, last closed ledger 5. *)
Definition example_herder : Herder :=
  {| fba := {| getLocalNodeID := 1;
               getLocalQuorumSet := {| threshold := 2; validators := [1; 2; 3] |};
               secretKey_isZero := false;
               isVBlocking := fun nodes => (2 <=? length nodes)%nat |};
     mReceivedTransactions := [[]; []; []; []];
     mCurrentTxSetFetcher := 0;
     mLedgersToWaitToParticipate := 3;
     mLastClosedLedger := {| ledgerSeq := 5; hash := 55; lh_closeTime := 900 |};
     mLastTrigger := 990 * 1000000000;
     mBallotValidationTimers := ∅;
     mFutureEnvelopes := ∅;
     mTxSetFetches := ∅;
     mNodeLastAccess := [] |}.

Definition example_tx (n : Z) : TransactionFrame :=
  {| getFullHash := n; getSourceID := 100 + n; getBalance := 1000 |}.

(** A signed ballot value of node [node], encoded. *)
Definition example_value (node : Z) (v : StellarBallotValue) : list Byte.byte :=
  example_to_opaque
    {| nodeID := node; signature := example_sign node v; value := v |}.

Definition value_a : StellarBallotValue :=
  {| txSetHash := 77; closeTime := 1000; baseFee := 10 |}.

Definition value_b : StellarBallotValue :=
  {| txSetHash := 77; closeTime := 1001; baseFee := 10 |}.

(** A ballot value naming node 3 as its signer, with an all-zero signature. *)
Definition forged_value : list Byte.byte :=
  example_to_opaque {| nodeID := 3; signature := []; value := value_a |}.

(** A ballot of node 1 (trusted, not king). *)
Definition deferring_ballot : FBABallot :=
  {| counter := 1; bvalue := example_value 1 value_a |}.

(** The example Herder after node 2 asked for validation of
    [deferring_ballot] with callback 7. *)
Definition herder_with_timer : Herder :=
  fst (validateBallot (Prim := example_primitives) (Cst := example_constants)
         example_app 6 2 deferring_ballot 7%nat example_herder).

Definition synced_herder : Herder :=
  set_mLedgersToWaitToParticipate 0 example_herder.

Definition future_envelope : FBAEnvelope :=
  {| env_nodeID := 2; slotIndex := 7; env_payload := [] |}.

Definition catching_up_app : Application :=
  {| DESIRED_BASE_FEE := 10;
     clock_now := 1000 * 1000000000;
     getState := OTHER_STATE 0;
     getTxFee := 10;
     tx_checkValid := fun _ => true;
     txSet_checkValid := fun _ => true;
     fetchItem := fun _ _ _ => None |}.

Definition ledger6 : LedgerHeader :=
  {| ledgerSeq := 6; hash := 66; lh_closeTime := 1000 |}.

Definition pool_1_3 : list (list TransactionFrame) :=
  [[]; [example_tx 1]; []; [example_tx 2]].

Definition pool_full : list (list TransactionFrame) :=
  [[example_tx 1]; [example_tx 2]; [example_tx 3]; [example_tx 4]].

(** An application whose fetcher resolves every hash to the set of
    transactions 1 and 2. *)
Definition app_with_set_1_2 : Application :=
  {| DESIRED_BASE_FEE := 10;
     clock_now := 1000 * 1000000000;
     getState := SYNCED_STATE;
     getTxFee := 10;
     tx_checkValid := fun _ => true;
     txSet_checkValid := fun _ => true;
     fetchItem := fun _ _ _ =>
       Some {| mTransactions := [example_tx 1; example_tx 2];
               mPreviousLedgerHash := 55;
               getContentsHash := 77 |} |}.

(** A stand-in for the local key and the encoders: node 1 signs with
    [example_sign], ballots are written with [example_to_opaque], and the
    hashes of tx sets and quorum sets are small sums. *)
Definition example_signing : Signing :=
  {| getPublicKey := 1;
     secretKey_sign := example_sign 1;
     xdr_to_opaque := example_to_opaque;
     contentsHash := fun txs prev => 22 + prev + Z.of_nat (length txs);
     qSet_hash := fun q => threshold q + foldr Z.add 0 (validators q) |}.

(** Fetchers that want every delivered item and have no quorum set cached;
    a ledger master at ledger 6 on a new network. *)
Definition example_gateways : Gateways :=
  {| txSet_recvItem := fun _ _ => true;
     qSet_fetchItem := fun _ _ => None;
     qSet_recvItem := fun _ => true;
     getLastClosedLedgerHeader := ledger6;
     START_NEW_NETWORK := true |}.

Definition example_object : HerderObject :=
  {| herder := synced_herder; mCurrentValue := []; mFBAQSetFetches := ∅ |}.

(** The synced example Herder once ledger sequence 3000000000 (above 2^31
    by more than the validity bracket) is closed. *)
Definition herder_high_seq : Herder :=
  set_mLastClosedLedger
    {| ledgerSeq := 3000000000; hash := 55; lh_closeTime := 900 |}
    synced_herder.

(** The synced example Herder once ledger sequence 2^31 is closed: there
    [(int)ledgerSeq - LEDGER_VALIDITY_BRACKET] is below the range of [int]. *)
Definition herder_seq_2_31 : Herder :=
  set_mLastClosedLedger
    {| ledgerSeq := 2 ^ 31; hash := 55; lh_closeTime := 900 |} synced_herder.

(** The example application at clock time 2^32 + 5900 s. *)
Definition late_app : Application :=
  {| DESIRED_BASE_FEE := 10;
     clock_now := (2 ^ 32 + 5900) * 1000000000;
     getState := SYNCED_STATE;
     getTxFee := 10;
     tx_checkValid := fun _ => true;
     txSet_checkValid := fun _ => true;
     fetchItem := fun _ hash _ =>
       if hash =? 77 then Some example_txset else None |}.

(** The example Herder with its last trigger at clock time 2^32 s. *)
Definition herder_late_trigger : Herder :=
  set_mLastTrigger (2 ^ 32 * 1000000000) example_herder.

(** The example Herder with no validator in its quorum set. *)
Definition herder_no_validators : Herder :=
  {| fba := {| getLocalNodeID := 1;
               getLocalQuorumSet := {| threshold := 0; validators := [] |};
               secretKey_isZero := false;
               isVBlocking := fun nodes => (2 <=? length nodes)%nat |};
     mReceivedTransactions := [[]; []; []; []];
     mCurrentTxSetFetcher := 0;
     mLedgersToWaitToParticipate := 3;
     mLastClosedLedger := {| ledgerSeq := 5; hash := 55; lh_closeTime := 900 |};
     mLastTrigger := 990 * 1000000000;
     mBallotValidationTimers := ∅;
     mFutureEnvelopes := ∅;
     mTxSetFetches := ∅;
     mNodeLastAccess := [] |}.

(** The synced example Herder after it stashed [future_envelope] (slot 7)
    and ledger 6 was closed. *)
Definition object_with_stash : HerderObject :=
  {| herder :=
       fst (ledgerClosed (Cst := example_constants) example_app ledger6
              (fst (recvFBAEnvelope (Prim := example_primitives)
                      (Cst := example_constants)
                      future_envelope 7%nat synced_herder)));
     mCurrentValue := [];
     mFBAQSetFetches := ∅ |}.

(** The example Herder after [validateValue] deferred a value whose tx set
    (hash 77) was not resolved. *)
Definition herder_with_waiter : Herder :=
  fst (validateValue (Prim := example_primitives)
         catching_up_app 6 2 (example_value 3 value_a) 7%nat example_herder).

(** The set of transactions 1 and 2 that [app_with_set_1_2] resolves. *)
Definition txset_1_2 : TxSetFrame :=
  {| mTransactions := [example_tx 1; example_tx 2];
     mPreviousLedgerHash := 55;
     getContentsHash := 77 |}.

(** * Properties *)

(** ** TxPool *)

Section TxPoolFacts.

Implicit Types (tx t : TransactionFrame) (l : list TransactionFrame)
  (pool : list (list TransactionFrame)).

Lemma recv_scan_list_None tx l n :
  recv_scan_list tx l n = None <->
  exists t, t ∈ l /\ getFullHash t = getFullHash tx.
Proof.
  revert n. induction l as [|old r IH]; intros n; simpl.
  - split; [discriminate | intros (t & Hin & _); inversion Hin].
  - destruct (Z.eqb_spec (getFullHash tx) (getFullHash old)) as [E|E].
    + split; [intros _ | reflexivity].
      exists old. split; [left | congruence].
    + rewrite IH. split.
      * intros (t & Hin & Ht). exists t. split; [by right | done].
      * intros (t & Hin & Ht). apply elem_of_cons in Hin as [->|Hin].
        -- congruence.
        -- eauto.
Qed.

Lemma recv_scan_list_Some tx l n m :
  recv_scan_list tx l n = Some m -> m = n + same_source_count tx l.
Proof.
  unfold same_source_count. revert n.
  induction l as [|old r IH]; intros n; simpl.
  - intros [= <-]. lia.
  - destruct (getFullHash tx =? getFullHash old); [discriminate|].
    intros H. apply IH in H. rewrite filter_cons.
    destruct (Z.eqb_spec (getSourceID old) (getSourceID tx)) as [E|E].
    + rewrite decide_True by done. simpl length. lia.
    + rewrite decide_False by done. lia.
Qed.

Lemma recv_scan_None tx pool n :
  recv_scan tx pool n = None <->
  exists t, t ∈ concat pool /\ getFullHash t = getFullHash tx.
Proof.
  revert n. induction pool as [|l r IH]; intros n; simpl.
  - split; [discriminate | intros (t & Hin & _); inversion Hin].
  - destruct (recv_scan_list tx l n) as [k|] eqn:Hl.
    + rewrite IH. split.
      * intros (t & Hin & Ht). exists t. split; [|done].
        apply elem_of_app. by right.
      * intros (t & Hin & Ht). apply elem_of_app in Hin as [Hin|Hin].
        -- assert (recv_scan_list tx l n = None) as Habs
             by (apply recv_scan_list_None; eauto).
           congruence.
        -- eauto.
    + split; [intros _ | reflexivity].
      apply recv_scan_list_None in Hl as (t & Hin & Ht).
      exists t. split; [|done]. apply elem_of_app. by left.
Qed.

Lemma recv_scan_Some tx pool n m :
  recv_scan tx pool n = Some m -> m = n + same_source_count tx (concat pool).
Proof.
  unfold same_source_count. revert n.
  induction pool as [|l r IH]; intros n; simpl.
  - intros [= <-]. lia.
  - destruct (recv_scan_list tx l n) as [k|] eqn:Hl; [|discriminate].
    intros H. apply IH in H. apply recv_scan_list_Some in Hl.
    unfold same_source_count in Hl.
    rewrite filter_app, length_app. lia.
Qed.

(** When [recvTransaction] returns, [true] means: no pooled transaction has
    the full hash of [tx], [tx] is valid, and the balance of its source
    account covers the fee of [tx] and of every pooled transaction of the
    same source. *)
Lemma recvTransaction_true_iff app tx h :
  fst (recvTransaction app tx h) = true <->
  (forall t, t ∈ concat (mReceivedTransactions h) ->
             getFullHash t <> getFullHash tx)
  /\ tx_checkValid app tx = true
  /\ (same_source_count tx (concat (mReceivedTransactions h)) + 1)
       * getTxFee app <= getBalance tx.
Proof.
  unfold recvTransaction.
  destruct (recv_scan tx (mReceivedTransactions h) 0) as [k|] eqn:Hs.
  - assert (forall t, t ∈ concat (mReceivedTransactions h) ->
                      getFullHash t <> getFullHash tx) as Hfresh.
    { intros t Hin Heq.
      assert (recv_scan tx (mReceivedTransactions h) 0 = None) as Habs
        by (apply recv_scan_None; eauto).
      congruence. }
    apply recv_scan_Some in Hs. subst k. rewrite Z.add_0_l.
    destruct (tx_checkValid app tx); simpl.
    + destruct (Z.ltb_spec (getBalance tx)
                  ((same_source_count tx (concat (mReceivedTransactions h)) + 1)
                   * getTxFee app)); simpl.
      * split; [discriminate | intros (_ & _ & ?); lia].
      * split; [intros _; repeat split; [done | lia] | done].
    + split; [discriminate | intros (_ & ? & _); discriminate].
  - simpl. split; [discriminate|].
    intros (Hfresh & _). apply recv_scan_None in Hs as (t & Hin & Ht).
    by apply Hfresh in Hin.
Qed.

(** C10: [recvTransaction] is atomic on failure.  Whenever it returns
    [false], the Herder (hence every bucket of [mReceivedTransactions]) is
    exactly as before the call; whenever it returns [true], the only change
    is that [tx] is appended to bucket 0: bucket 0 is its former content
    followed by [tx], every other bucket is as before, and no other field
    changes. *)
Theorem recvTransaction_atomic app tx h :
  match recvTransaction app tx h with
  | (false, h') => h' = h
  | (true, h') =>
      h' = set_mReceivedTransactions (mReceivedTransactions h') h
      /\ length (mReceivedTransactions h') = length (mReceivedTransactions h)
      /\ mReceivedTransactions h' !! 0%nat
         = (fun b => b ++ [tx]) <$> (mReceivedTransactions h !! 0%nat)
      /\ forall n, n <> 0%nat ->
           mReceivedTransactions h' !! n = mReceivedTransactions h !! n
  end.
Proof.
  unfold recvTransaction.
  destruct (recv_scan tx (mReceivedTransactions h) 0) as [k|]; [|done].
  destruct (tx_checkValid app tx); simpl; [|done].
  destruct (getBalance tx <? (k + 1) * getTxFee app); [done|].
  simpl. unfold push_bucket0. repeat split.
  - by rewrite length_alter.
  - by rewrite list_lookup_alter_eq.
  - intros n Hn. by rewrite list_lookup_alter_ne.
Qed.

Lemma rotate_step_at (front : list (list TransactionFrame)) x y back :
  rotate_step (length front) (front ++ x :: y :: back)
  = front ++ [] :: (y ++ x) :: back.
Proof.
  induction front as [|z front IH]; [reflexivity|].
  unfold rotate_step in *. simpl. f_equal. exact IH.
Qed.

(** Closed form of the rotation loop started at the last-but-one bucket [x]
    and the bucket [y] above it. *)
Lemma rotate_from_closed (front : list (list TransactionFrame)) :
  forall x y back,
    rotate_from (S (length front)) (front ++ x :: y :: back)
    = [] :: front ++ (y ++ x) :: back.
Proof.
  induction front as [|z front IH] using rev_ind; intros x y back.
  - reflexivity.
  - cbn [rotate_from]. rewrite rotate_step_at.
    rewrite length_app. simpl length.
    replace (length front + 1)%nat with (S (length front)) by lia.
    rewrite <- (assoc_L (++)). cbn [app].
    rewrite IH. by rewrite <- (assoc_L (++)).
Qed.

Lemma rotate_closed front x y :
  rotate (front ++ [x; y]) = [] :: front ++ [y ++ x].
Proof.
  unfold rotate. rewrite length_app. simpl length.
  replace (length front + 2 - 1)%nat with (S (length front)) by lia.
  apply rotate_from_closed.
Qed.

(** A pool of at least two buckets splits into a front and its two last
    buckets. *)
Lemma pool_split_last2 pool :
  (2 <= length pool)%nat ->
  exists front x y, pool = front ++ [x; y].
Proof.
  intros Hlen.
  destruct pool as [|a pool] using rev_ind; [simpl in Hlen; lia|].
  clear IHpool.
  destruct pool as [|b pool] using rev_ind.
  - simpl in Hlen. lia.
  - exists pool, b, a. by rewrite <- (assoc_L (++)).
Qed.

(** What the rotation does to a pool of [N >= 2] buckets. *)
Lemma rotate_buckets pool :
  (2 <= length pool)%nat ->
  let N := length pool in
  length (rotate pool) = N
  /\ rotate pool !! 0%nat = Some []
  /\ (forall n, (0 < n < N - 1)%nat -> rotate pool !! n = pool !! (n - 1)%nat)
  /\ rotate pool !! (N - 1)%nat
     = Some (default [] (pool !! (N - 1)%nat)
             ++ default [] (pool !! (N - 2)%nat))
  /\ concat (rotate pool) ≡ₚ concat pool.
Proof.
  intros Hlen N. subst N.
  destruct (pool_split_last2 pool Hlen) as (front & x & y & ->).
  rewrite rotate_closed. rewrite !length_app. simpl length.
  repeat split.
  - simpl. rewrite length_app. simpl. lia.
  - intros n Hn. destruct n as [|n]; [lia|]. simpl.
    replace (n - 0)%nat with n by lia.
    by rewrite !lookup_app_l by lia.
  - replace (length front + 2 - 1)%nat with (S (length front)) by lia.
    replace (length front + 2 - 2)%nat with (length front) by lia.
    simpl. rewrite !lookup_app_r by lia.
    replace (length front - length front)%nat with 0%nat by lia.
    replace (S (length front) - length front)%nat with 1%nat by lia.
    done.
  - simpl. rewrite !concat_app. simpl. rewrite !app_nil_r.
    apply Permutation_app_head. apply Permutation_app_comm.
Qed.

End TxPoolFacts.

(** ** Externalization: rebroadcast and bucket rotation *)

Section ExternalizeFacts.
Context `{Prim : Primitives} `{Cst : Constants}.

Lemma broadcasts_app (a b : list Event) :
  broadcasts (a ++ b) = broadcasts a ++ broadcasts b.
Proof. apply flat_map_app. Qed.

Lemma broadcasts_skip (e : Event) (l : list Event) :
  match e with Overlay_broadcastTx _ => False | _ => True end ->
  broadcasts (e :: l) = broadcasts l.
Proof. by destruct e. Qed.

Lemma broadcasts_map (l : list TransactionFrame) :
  broadcasts (map Overlay_broadcastTx l) = l.
Proof. induction l as [|t l IH]; [done|]. simpl. by rewrite IH. Qed.

Lemma broadcasts_purge now m : broadcasts (purge_events now m) = [].
Proof.
  unfold purge_events. induction m as [|it m IH]; [done|].
  simpl. rewrite broadcasts_app, IH. by destruct (_ >? _).
Qed.

Lemma broadcasts_decode_log v : broadcasts (externalized_decode_log v) = [].
Proof. unfold externalized_decode_log. by destruct (xdr_from_opaque v). Qed.

(** What [valueExternalized] does when the externalized tx set is resolved
    locally: [pre] is the pool once the externalized transactions are
    removed. *)
Lemma valueExternalized_resolved app slot v h externalizedSet h' evs :
  fetchTxSet app h (txSetHash (value (externalized_ballot v))) false
    = Some externalizedSet ->
  valueExternalized app slot v h = Returned (h', evs) ->
  let pre := removeReceivedTxs (mTransactions externalizedSet)
               (mReceivedTransactions h) in
  (2 <= length pre)%nat
  /\ mReceivedTransactions h' = rotate pre
  /\ broadcasts evs = default [] (pre !! 1%nat).
Proof.
  intros Hfetch Hrun pre. unfold valueExternalized in Hrun.
  rewrite Hfetch in Hrun. fold pre in Hrun.
  destruct (Nat.ltb_spec (length pre) 2) as [Hlt|Hge]; [discriminate|].
  inversion Hrun as [[Hh Hevs]]. clear Hrun. split; [done|]. split; [done|].
  rewrite broadcasts_skip by done.
  rewrite broadcasts_app, broadcasts_decode_log. cbn [Datatypes.app].
  rewrite !broadcasts_skip by done.
  rewrite !broadcasts_app, broadcasts_map, broadcasts_purge.
  cbn [Datatypes.app]. destruct (_ >? _); simpl; by rewrite app_nil_r.
Qed.

(** C6, as amended: during [valueExternalized] with a locally resolvable tx
    set, the transactions rebroadcast to the overlay are exactly the contents
    of bucket 1 of [mReceivedTransactions] ("those left in set 1"), read
    after the externalized transactions are removed and before the rotation:
    the pool left behind is the rotation of the pool the rebroadcast was read
    from. *)
Theorem valueExternalized_rebroadcasts_bucket1
    app slot v h externalizedSet h' evs :
  fetchTxSet app h (txSetHash (value (externalized_ballot v))) false
    = Some externalizedSet ->
  valueExternalized app slot v h = Returned (h', evs) ->
  let pre := removeReceivedTxs (mTransactions externalizedSet)
               (mReceivedTransactions h) in
  broadcasts evs = default [] (pre !! 1%nat)
  /\ mReceivedTransactions h' = rotate pre.
Proof.
  intros Hfetch Hrun pre.
  destruct (valueExternalized_resolved _ _ _ _ _ _ _ Hfetch Hrun)
    as (_ & Hrot & Hb).
  done.
Qed.

(** C7, as amended: after the rotation inside [valueExternalized]
    (resolvable tx set), with [N] buckets, bucket 0 is empty, each bucket
    [0 < n < N-1] holds exactly the pre-rotation content of bucket [n-1], and
    the oldest bucket [N-1] holds its own pre-rotation content followed by
    that of bucket [N-2]: the rotation discards nothing from the pool. *)
Theorem valueExternalized_rotation app slot v h externalizedSet h' evs :
  fetchTxSet app h (txSetHash (value (externalized_ballot v))) false
    = Some externalizedSet ->
  valueExternalized app slot v h = Returned (h', evs) ->
  let pre := removeReceivedTxs (mTransactions externalizedSet)
               (mReceivedTransactions h) in
  let post := mReceivedTransactions h' in
  let N := length pre in
  length post = N
  /\ post !! 0%nat = Some []
  /\ (forall n, (0 < n < N - 1)%nat -> post !! n = pre !! (n - 1)%nat)
  /\ post !! (N - 1)%nat
     = Some (default [] (pre !! (N - 1)%nat)
             ++ default [] (pre !! (N - 2)%nat))
  /\ concat post ≡ₚ concat pre.
Proof.
  intros Hfetch Hrun pre post N.
  destruct (valueExternalized_resolved _ _ _ _ _ _ _ Hfetch Hrun)
    as (Hlen & Hrot & _).
  subst post. rewrite Hrot. by apply rotate_buckets.
Qed.

End ExternalizeFacts.

(** ** ValueOrdering *)

Section OrderingFacts.
Context `{Prim : Primitives} `{Cst : Constants}.

Lemma value_lt_irrefl a : value_lt a a = false.
Proof. unfold value_lt. by rewrite !Z.ltb_irrefl. Qed.

(** [value_lt] is a strict total order on ballot values: of two values, one
    is below the other or they are equal. *)
Lemma value_lt_trichotomy a b :
  (value_lt a b = true /\ value_lt b a = false)
  \/ (value_lt b a = true /\ value_lt a b = false)
  \/ (a = b /\ value_lt a b = false /\ value_lt b a = false).
Proof.
  destruct a as [ha ca fa], b as [hb cb fb]. unfold value_lt. simpl.
  destruct (Z.ltb_spec ha hb), (Z.ltb_spec hb ha); try lia; auto.
  destruct (Z.ltb_spec ca cb), (Z.ltb_spec cb ca); try lia; auto.
  destruct (Z.ltb_spec fa fb), (Z.ltb_spec fb fa); try lia; auto.
  right. right. repeat split. f_equal; lia.
Qed.

(** The tie-break of [compareValues]: for decodable, verified values whose
    signer hashes are equal, the result is [-1] whenever the two ballot
    values differ, in either direction, and [0] when they are equal. *)
Lemma compareValues_tiebreak slot c v1 v2 b1 b2 :
  xdr_from_opaque v1 = Some b1 ->
  xdr_from_opaque v2 = Some b2 ->
  verifyStellarBallot b1 = true ->
  verifyStellarBallot b2 = true ->
  sha256_king slot c (nodeID b1) = sha256_king slot c (nodeID b2) ->
  compareValues slot c v1 v2
  = Returned (if value_lt (value b1) (value b2)
                 || value_lt (value b2) (value b1) then -1 else 0).
Proof.
  intros D1 D2 V1 V2 Hh. unfold compareValues.
  rewrite D1, D2, V1, V2, Hh. simpl. rewrite Z.ltb_irrefl.
  by destruct (value_lt (value b1) (value b2)),
              (value_lt (value b2) (value b1)).
Qed.

(** The branch the trichotomy is about: with equal signer hashes and
    [v2.value] below [v1.value], [compareValues] returns [-1]. *)
Lemma compareValues_above_returns_minus_one slot c v1 v2 b1 b2 :
  xdr_from_opaque v1 = Some b1 ->
  xdr_from_opaque v2 = Some b2 ->
  verifyStellarBallot b1 = true ->
  verifyStellarBallot b2 = true ->
  sha256_king slot c (nodeID b1) = sha256_king slot c (nodeID b2) ->
  value_lt (value b2) (value b1) = true ->
  compareValues slot c v1 v2 = Returned (-1).
Proof.
  intros D1 D2 V1 V2 Hh Hlt.
  rewrite (compareValues_tiebreak _ _ _ _ _ _ D1 D2 V1 V2 Hh), Hlt.
  by rewrite orb_true_r.
Qed.

End OrderingFacts.

(** ** BallotValidator *)

Section ValidatorFacts.
Context `{Prim : Primitives} `{Cst : Constants}.

Lemma king_loop_spec slot c bNode localNode vs isKing isTrusted :
  king_loop slot c bNode localNode vs isKing isTrusted
  = (isKing && forallb (fun v => negb (sha256_king slot c bNode
                                       <? sha256_king slot c v)) vs,
     isTrusted || existsb (fun v => (bNode =? v) || (bNode =? localNode)) vs).
Proof.
  revert isKing isTrusted.
  induction vs as [|v vs IH]; intros isKing isTrusted; simpl.
  - by rewrite andb_true_r, orb_false_r.
  - rewrite IH.
    destruct (sha256_king slot c bNode <? sha256_king slot c v),
      ((bNode =? v) || (bNode =? localNode)), isKing, isTrusted; simpl;
      try reflexivity.
Qed.

(** C1, as amended: in [validateBallot], the ballot is classified as king
    exactly when, for every validator [v] of the local quorum set,
    H(slotIndex || counter || v) <= H(slotIndex || counter || signer): the
    king is the hash-maximizing node ("higher than any potential ballots
    from nodes in our qSet"). *)
Theorem validateBallot_isKing_iff_hash_max h slot c signer :
  validateBallot_isKing h slot c signer = true <->
  forall v, v ∈ validators (getLocalQuorumSet (fba h)) ->
            sha256_king slot c v <= sha256_king slot c signer.
Proof.
  unfold validateBallot_isKing. rewrite king_loop_spec. simpl.
  rewrite forallb_forall. split.
  - intros Hall v Hin. apply list_elem_of_In, Hall in Hin.
    apply negb_true_iff, Z.ltb_ge in Hin. exact Hin.
  - intros Hall v Hin. apply list_elem_of_In, Hall in Hin.
    apply negb_true_iff, Z.ltb_ge. exact Hin.
Qed.

(** [isTrusted]: the quorum set has a validator, and the signer is one of
    them or is the local node. *)
Lemma validateBallot_isTrusted_iff h slot c signer :
  validateBallot_isTrusted h slot c signer = true <->
  exists v, v ∈ validators (getLocalQuorumSet (fba h))
            /\ (signer = v \/ signer = getLocalNodeID (fba h)).
Proof.
  unfold validateBallot_isTrusted. rewrite king_loop_spec. simpl.
  rewrite existsb_exists. split.
  - intros (v & Hin & Hv). exists v. split; [by apply list_elem_of_In|].
    apply orb_true_iff in Hv. rewrite !Z.eqb_eq in Hv. exact Hv.
  - intros (v & Hin & Hv). exists v. split; [by apply list_elem_of_In|].
    apply orb_true_iff. by rewrite !Z.eqb_eq.
Qed.

(** *** The counter-growth bound *)

Lemma sum_timeouts_step_nonneg :
  0 <= MAX_FBA_TIMEOUT_SECONDS ->
  forall k, 0 <= Z.min MAX_FBA_TIMEOUT_SECONDS (2 ^ Z.of_nat k).
Proof.
  intros HM k. assert (0 < 2 ^ Z.of_nat k) by (apply Z.pow_pos_nonneg; lia).
  lia.
Qed.

Lemma sum_timeouts_bounds :
  0 <= MAX_FBA_TIMEOUT_SECONDS ->
  forall n, 0 <= sum_timeouts n <= Z.of_nat n * MAX_FBA_TIMEOUT_SECONDS.
Proof.
  intros HM n. induction n as [|n IH]; simpl sum_timeouts; [lia|].
  pose proof (sum_timeouts_step_nonneg HM n). nia.
Qed.

Lemma sum_timeouts_mono :
  0 <= MAX_FBA_TIMEOUT_SECONDS ->
  forall n m, (n <= m)%nat -> sum_timeouts n <= sum_timeouts m.
Proof.
  intros HM n m Hle. induction Hle as [|m Hle IH]; [lia|].
  simpl. pose proof (sum_timeouts_step_nonneg HM m). lia.
Qed.

Lemma wrap64_small z : 0 <= z < 2 ^ 64 -> wrap64 z = z.
Proof. intros Hz. unfold wrap64. by apply Z.mod_small. Qed.

(** The loop computes the cumulative timeout as long as the bound holds,
    and stops at the first partial sum that exceeds it. *)
Lemma sumTimeouts_loop_spec timeNow lastTrigger :
  0 <= MAX_FBA_TIMEOUT_SECONDS ->
  0 <= timeNow + MAX_TIME_SLIP_SECONDS < 2 ^ 64 ->
  0 <= lastTrigger ->
  forall r i,
    (forall k, (i <= k < i + r)%nat ->
       Z.min MAX_FBA_TIMEOUT_SECONDS (pow2_int (Z.of_nat k))
       = Z.min MAX_FBA_TIMEOUT_SECONDS (2 ^ Z.of_nat k)) ->
    lastTrigger + sum_timeouts (i + r) < 2 ^ 64 ->
    let s := sumTimeouts_loop r (Z.of_nat i) timeNow lastTrigger
               (sum_timeouts i) in
    0 <= s <= sum_timeouts (i + r)
    /\ (timeNow + MAX_TIME_SLIP_SECONDS < lastTrigger + s <->
        timeNow + MAX_TIME_SLIP_SECONDS
        < lastTrigger + sum_timeouts (i + r)).
Proof.
  intros HM Hnow Hlast r.
  induction r as [|r IH]; intros i Hpow Hfit; simpl.
  - rewrite Nat.add_0_r. pose proof (sum_timeouts_bounds HM i). lia.
  - pose proof (sum_timeouts_bounds HM i) as Hi.
    pose proof (sum_timeouts_mono HM i (i + S r) ltac:(lia)) as Hmono.
    rewrite (wrap64_small (timeNow + _)) by lia.
    rewrite (wrap64_small (lastTrigger + _)) by lia.
    rewrite Z.geb_leb.
    destruct (Z.leb_spec (lastTrigger + sum_timeouts i)
                (timeNow + MAX_TIME_SLIP_SECONDS)) as [Hle|Hgt].
    + rewrite Hpow by lia.
      pose proof (sum_timeouts_mono HM (S i) (i + S r) ltac:(lia)) as Hmono'.
      pose proof (sum_timeouts_step_nonneg HM i) as Hstep.
      simpl sum_timeouts in Hmono'.
      rewrite wrap64_small by lia.
      replace (Z.of_nat i + 1) with (Z.of_nat (S i)) by lia.
      replace (i + S r)%nat with (S i + r)%nat in * by lia.
      change (sum_timeouts i
              + Z.min MAX_FBA_TIMEOUT_SECONDS (2 ^ Z.of_nat i))
        with (sum_timeouts (S i)).
      apply IH; [|done].
      intros k Hk. apply Hpow. lia.
    + lia.
Qed.

(** The check of [validateBallot] passes exactly when the bound holds for
    the whole cumulative timeout of [c] rounds. *)
Lemma counter_growth_ok_iff timeNow lastTrigger c :
  0 <= MAX_TIME_SLIP_SECONDS <= INT_MAX ->
  0 <= MAX_FBA_TIMEOUT_SECONDS <= INT_MAX ->
  0 <= timeNow < 2 ^ 63 ->
  0 <= lastTrigger < 2 ^ 63 ->
  0 <= c < 2 ^ 32 ->
  (c <= 31 \/
   forall x, INT_MAX < x ->
             MAX_FBA_TIMEOUT_SECONDS <= double_to_int_out_of_range x) ->
  counter_growth_ok timeNow lastTrigger c = true <->
  lastTrigger + sum_timeouts (Z.to_nat c)
  <= timeNow + MAX_TIME_SLIP_SECONDS.
Proof.
  unfold INT_MAX. intros HS HM Hnow Hlast Hc Hconv.
  assert (forall k, (0 <= k < 0 + Z.to_nat c)%nat ->
            Z.min MAX_FBA_TIMEOUT_SECONDS (pow2_int (Z.of_nat k))
            = Z.min MAX_FBA_TIMEOUT_SECONDS (2 ^ Z.of_nat k)) as Hpow.
  { intros k Hk. unfold pow2_int, double_to_int, INT_MIN, INT_MAX.
    assert (0 < 2 ^ Z.of_nat k) by (apply Z.pow_pos_nonneg; lia).
    destruct (Z.leb_spec (2 ^ Z.of_nat k) (2 ^ 31 - 1)) as [Hin|Hout].
    - rewrite andb_true_r.
      destruct (Z.leb_spec (- 2 ^ 31) (2 ^ Z.of_nat k)); [done|lia].
    - rewrite andb_false_r.
      destruct Hconv as [Hsmall|Hsat].
      + assert (2 ^ Z.of_nat k <= 2 ^ 30)
          by (apply Z.pow_le_mono_r; lia).
        lia.
      + specialize (Hsat (2 ^ Z.of_nat k)). unfold INT_MAX in Hsat. lia. }
  pose proof (sum_timeouts_bounds (proj1 HM) (Z.to_nat c)) as Hsum.
  assert (lastTrigger + sum_timeouts (0 + Z.to_nat c) < 2 ^ 64) as Hfit.
  { simpl. assert (Z.of_nat (Z.to_nat c) * MAX_FBA_TIMEOUT_SECONDS
                   <= 2 ^ 32 * 2 ^ 31) by nia. lia. }
  destruct (sumTimeouts_loop_spec timeNow lastTrigger (proj1 HM)
              ltac:(lia) (proj1 Hlast) (Z.to_nat c) 0%nat Hpow Hfit)
    as (Hs & Hiff).
  simpl in Hs, Hiff, Hfit. change (Z.of_nat 0) with 0 in Hs, Hiff.
  unfold counter_growth_ok.
  rewrite (wrap64_small (timeNow + _)) by lia.
  rewrite (wrap64_small (lastTrigger + _)) by lia.
  rewrite negb_true_iff, Z.ltb_ge. lia.
Qed.

(** The counter-growth bound where the conversion is defined: for a ballot
    with counter [c >= 1] that passes the counter-growth check of
    [validateBallot],
    now + MAX_TIME_SLIP_SECONDS >= lastTrigger + Σ_{k=0..c-2} min(MAX_FBA_TIMEOUT_SECONDS, 2^k),
    and so some [i < c] satisfies the cumulative-timeout inequality.  The
    times are time_t values, the constants are non-negative ints, and the
    counter is in the range where [(int)pow(2.0, i)] is defined (or the
    platform's out-of-range conversion is not below the timeout cap). *)
Theorem validateBallot_counter_growth_bound app h (ballot : FBABallot) :
  let timeNow := pointToTimeT (clock_now app) in
  let lastTrigger := pointToTimeT (mLastTrigger h) in
  let c := counter ballot in
  0 <= MAX_TIME_SLIP_SECONDS <= INT_MAX ->
  0 <= MAX_FBA_TIMEOUT_SECONDS <= INT_MAX ->
  0 <= timeNow < 2 ^ 63 ->
  0 <= lastTrigger < 2 ^ 63 ->
  1 <= c < 2 ^ 32 ->
  (c <= 31 \/
   forall x, INT_MAX < x ->
             MAX_FBA_TIMEOUT_SECONDS <= double_to_int_out_of_range x) ->
  counter_growth_ok (wrap64 timeNow) (wrap64 lastTrigger) c = true ->
  timeNow + MAX_TIME_SLIP_SECONDS
    >= lastTrigger + sum_timeouts (Z.to_nat (c - 1))
  /\ exists i, (Z.of_nat i < c)
       /\ timeNow + MAX_TIME_SLIP_SECONDS >= lastTrigger + sum_timeouts i.
Proof.
  intros timeNow lastTrigger c HS HM Hnow Hlast Hc Hconv Hok.
  rewrite !wrap64_small in Hok by lia.
  apply counter_growth_ok_iff in Hok; try done; [|lia].
  pose proof (sum_timeouts_mono (proj1 HM) (Z.to_nat (c - 1)) (Z.to_nat c)
                ltac:(lia)) as Hmono.
  split; [lia|].
  exists (Z.to_nat (c - 1)). split; lia.
Qed.

(** A ballot that [validateBallot] does not answer with [cb(false)] on the
    spot has passed the counter-growth check. *)
Lemma validateBallot_not_rejected_growth_ok app slot fromNode ballot cb h :
  snd (validateBallot app slot fromNode ballot cb h) <> [Cb cb false] ->
  counter_growth_ok (wrap64 (pointToTimeT (clock_now app)))
    (wrap64 (pointToTimeT (mLastTrigger h))) (counter ballot) = true.
Proof.
  unfold validateBallot.
  destruct (xdr_from_opaque (bvalue ballot)) as [b|]; [|done].
  destruct (closeTime (value b) >? _); [done|].
  destruct (counter_growth_ok _ _ _); [done|]. simpl. done.
Qed.

(** A ballot answered with [cb(true)] by [validateBallot] itself is king and
    trusted under the local quorum set. *)
Lemma validateBallot_accepts_king_trusted app slot fromNode ballot cb h :
  Cb cb true ∈ snd (validateBallot app slot fromNode ballot cb h) ->
  exists b, xdr_from_opaque (bvalue ballot) = Some b
            /\ validateBallot_isKing h slot (counter ballot) (nodeID b) = true
            /\ validateBallot_isTrusted h slot (counter ballot) (nodeID b)
               = true.
Proof.
  assert (forall e : Event, e ∈ [Cb cb false] -> e <> Cb cb true) as Hno.
  { intros e He. apply list_elem_of_singleton in He. by subst e. }
  unfold validateBallot.
  destruct (xdr_from_opaque (bvalue ballot)) as [b|];
    [|intros Hin; by apply Hno in Hin].
  destruct (_ >? _); [intros Hin; by apply Hno in Hin|].
  destruct (counter_growth_ok _ _ _); simpl;
    [|intros Hin; by apply Hno in Hin].
  destruct (_ <? _); [intros Hin; by apply Hno in Hin|].
  destruct (_ >? _); [intros Hin; by apply Hno in Hin|].
  destruct (_ && _); [intros Hin; by apply Hno in Hin|].
  destruct (validateBallot_isKing _ _ _ _) eqn:Hk;
    destruct (validateBallot_isTrusted _ _ _ _) eqn:Ht; simpl;
    try (intros _; by exists b).
  all: destruct (isVBlocking _ _); simpl; intros Hin;
    try (by inversion Hin);
    apply list_elem_of_fmap in Hin as (t & Heq & _); discriminate.
Qed.

End ValidatorFacts.

(** *** Signature handling *)

Section SignatureFacts.
Context `{Cst : Constants}.

(** [validateBallot] does not consult [verifySig]: replacing the signature
    check by any other leaves its result unchanged. *)
Lemma validateBallot_ignores_verifySig (P : Primitives)
    (verify' : Z -> list Byte.byte -> StellarBallotValue -> bool)
    app slot fromNode ballot cb h :
  let P' := {| sha256_king := @sha256_king P;
               xdr_from_opaque := @xdr_from_opaque P;
               xdr_from_opaque_partial := @xdr_from_opaque_partial P;
               verifySig := verify';
               pointToTimeT := @pointToTimeT P;
               double_to_int_out_of_range := @double_to_int_out_of_range P;
               int_sub_out_of_range := @int_sub_out_of_range P |} in
  validateBallot (Prim := P') app slot fromNode ballot cb h
  = validateBallot (Prim := P) app slot fromNode ballot cb h.
Proof. reflexivity. Qed.

(** The sibling [validateValue] answers a failed signature with [cb(false)]
    and leaves the Herder as it was. *)
Lemma validateValue_rejects_bad_signature `{Prim : Primitives}
    app slot fromNode v cb h b :
  xdr_from_opaque v = Some b ->
  verifyStellarBallot b = false ->
  validateValue app slot fromNode v cb h = (h, [Cb cb false]).
Proof. intros D V. unfold validateValue. by rewrite D, V. Qed.

(** A decodable ballot that passes the time, counter, fee and observer
    checks and whose signer is king and trusted is accepted at once, whatever
    its signature. *)
Lemma validateBallot_king_trusted_accepts `{Prim : Primitives}
    app slot fromNode ballot cb h b :
  xdr_from_opaque (bvalue ballot) = Some b ->
  closeTime (value b)
    <= wrap64 (wrap64 (pointToTimeT (clock_now app)) + MAX_TIME_SLIP_SECONDS) ->
  counter_growth_ok (wrap64 (pointToTimeT (clock_now app)))
    (wrap64 (pointToTimeT (mLastTrigger h))) (counter ballot) = true ->
  DESIRED_BASE_FEE app <= 2 * baseFee (value b) ->
  baseFee (value b) <= DESIRED_BASE_FEE app * 2 ->
  secretKey_isZero (fba h) && (fromNode =? getLocalNodeID (fba h)) = false ->
  validateBallot_isKing h slot (counter ballot) (nodeID b) = true ->
  validateBallot_isTrusted h slot (counter ballot) (nodeID b) = true ->
  validateBallot app slot fromNode ballot cb h = (h, [Cb cb true]).
Proof.
  intros D Ht Hc Hf1 Hf2 Hobs Hk Htr. unfold validateBallot.
  rewrite D, Hc, Hobs, Hk, Htr. simpl.
  destruct (Z.gtb_spec (closeTime (value b))
              (wrap64 (wrap64 (pointToTimeT (clock_now app))
                       + MAX_TIME_SLIP_SECONDS))); [lia|].
  destruct (Z.ltb_spec (2 * baseFee (value b)) (DESIRED_BASE_FEE app)); [lia|].
  destruct (Z.gtb_spec (baseFee (value b)) (DESIRED_BASE_FEE app * 2)); [lia|].
  done.
Qed.

End SignatureFacts.

(** *** Deferred acceptance timers *)

Section TimerFacts.
Context `{Prim : Primitives} `{Cst : Constants}.

Lemma handlers_run_app (a b : list Event) :
  handlers_run (a ++ b) = handlers_run a ++ handlers_run b.
Proof. apply flat_map_app. Qed.

Lemma handlers_run_cancelled (ts : list VirtualTimer) :
  handlers_run (map BallotTimer_cancelled ts)
  = map (fun t => Cb (captured_cb t) true) ts.
Proof. induction ts as [|t ts IH]; [done|]. simpl. by rewrite <- IH. Qed.

(** [ledgerClosed] empties the timer registry and cancels every timer that
    was in it. *)
Lemma ledgerClosed_cancels_timers app ledger h :
  mBallotValidationTimers (fst (ledgerClosed app ledger h)) = ∅
  /\ handlers_run (snd (ledgerClosed app ledger h))
     = map (fun t => Cb (captured_cb t) true)
           (all_ballot_timers (mBallotValidationTimers h)).
Proof.
  unfold ledgerClosed.
  destruct (secretKey_isZero (fba h)); simpl;
    [by rewrite handlers_run_cancelled|].
  destruct (_ >? 0); simpl; [by rewrite handlers_run_cancelled|].
  rewrite handlers_run_app, handlers_run_cancelled. simpl.
  by rewrite app_nil_r.
Qed.

(** C5, as amended: the handler of a deferred ballot-acceptance timer
    ignores its error code: when the timer is cancelled (the handler observes
    operation aborted) it invokes the validation callback [cb(true)], exactly
    once, as it does on expiry. *)
Theorem ballotTimer_handler_fires_on_cancel t error :
  ballotTimer_handler t error = [Cb (captured_cb t) true]
  /\ callbacks (ballotTimer_handler t operation_aborted)
     = [(captured_cb t, true)].
Proof. done. Qed.

(** When [ledgerClosed] clears the timer map, the callback of every timer
    that was registered is invoked with [true]. *)
Lemma ledgerClosed_fires_callbacks app ledger h :
  callbacks (handlers_run (snd (ledgerClosed app ledger h)))
  = map (fun t => (captured_cb t, true))
        (all_ballot_timers (mBallotValidationTimers h)).
Proof.
  destruct (ledgerClosed_cancels_timers app ledger h) as (_ & ->).
  induction (all_ballot_timers _) as [|t ts IH]; [done|].
  simpl. by rewrite <- IH.
Qed.

(** A call of [validateBallot] without any event has deferred the ballot:
    a timer capturing [cb] is registered under the ballot, and its handler,
    whatever the error code, invokes [cb(true)]. *)
Lemma validateBallot_defer_registers app slot fromNode ballot cb h h' :
  validateBallot app slot fromNode ballot cb h = (h', []) ->
  exists inner t,
    mBallotValidationTimers h' !! ballot = Some inner
    /\ t ∈ timers_of inner
    /\ forall error, ballotTimer_handler t error = [Cb cb true].
Proof.
  unfold validateBallot.
  destruct (xdr_from_opaque (bvalue ballot)) as [b|]; [|discriminate].
  destruct (_ >? _); [discriminate|].
  destruct (counter_growth_ok _ _ _); simpl; [|discriminate].
  destruct (_ <? _); [discriminate|].
  destruct (_ >? _); [discriminate|].
  destruct (_ && _); [discriminate|].
  destruct (_ && _); [discriminate|].
  set (t := {| expires_ms := _; captured_cb := cb |}).
  set (inner := default [] (mBallotValidationTimers h !! ballot)).
  set (vec := default [] (smap_lookup fromNode inner)).
  assert (t ∈ timers_of (smap_insert fromNode (vec ++ [t]) inner)) as Hin.
  { clearbody vec. unfold timers_of.
    induction inner as [|[k w] inner IH]; simpl.
    - rewrite app_nil_r. apply elem_of_app. right. by left.
    - destruct (fromNode <? k); simpl.
      + apply elem_of_app. left. apply elem_of_app. right. by left.
      + destruct (fromNode =? k); simpl.
        * apply elem_of_app. left. apply elem_of_app. right. by left.
        * apply elem_of_app. by right. }
  destruct (isVBlocking _ _).
  - intros [= <- Hevs]. exfalso. apply list_elem_of_In in Hin.
    destruct (timers_of _) as [|t0 ts]; [inversion Hin|]. discriminate.
  - intros [= <- ]. exists (smap_insert fromNode (vec ++ [t]) inner), t.
    split; [apply lookup_insert_eq|]. split; [exact Hin|]. done.
Qed.

End TimerFacts.

(** ** SlotDriver *)

Section SlotFacts.
Context `{Prim : Primitives} `{Cst : Constants}.

(** C4, as amended: when fully synced, an envelope whose slot index is
    strictly greater than lastClosedLedger.ledgerSeq + 1 and within the
    validity bracket is appended to [mFutureEnvelopes] under its slot index
    for later replay, and is also forwarded to the FBA engine's
    [receiveEnvelope] at reception time. *)
Theorem recvFBAEnvelope_future_stashed_and_forwarded envelope cb h :
  mLedgersToWaitToParticipate h = 0 ->
  slotIndex envelope > wrap64 (ledgerSeq (mLastClosedLedger h) + 1) ->
  minLedgerSeq h <= slotIndex envelope <= maxLedgerSeq h ->
  mFutureEnvelopes (fst (recvFBAEnvelope envelope cb h)) !! slotIndex envelope
  = Some (default [] (mFutureEnvelopes h !! slotIndex envelope)
          ++ [(envelope, cb)])
  /\ (forall s, s <> slotIndex envelope ->
        mFutureEnvelopes (fst (recvFBAEnvelope envelope cb h)) !! s
        = mFutureEnvelopes h !! s)
  /\ snd (recvFBAEnvelope envelope cb h) = [FBA_receiveEnvelope envelope cb].
Proof.
  intros Hsync Hfuture [Hmin Hmax]. unfold recvFBAEnvelope.
  rewrite Hsync. simpl.
  destruct (Z.gtb_spec (slotIndex envelope) (maxLedgerSeq h)); [lia|].
  destruct (Z.ltb_spec (slotIndex envelope) (minLedgerSeq h)); [lia|].
  simpl.
  destruct (Z.gtb_spec (slotIndex envelope)
              (wrap64 (ledgerSeq (mLastClosedLedger h) + 1))); [|lia].
  simpl. split; [apply lookup_insert_eq|]. split; [|done].
  intros s Hs. by apply lookup_insert_ne.
Qed.

(** Every envelope that is not dropped is forwarded at reception time. *)
Lemma recvFBAEnvelope_forwards_or_drops envelope cb h :
  snd (recvFBAEnvelope envelope cb h) = [FBA_receiveEnvelope envelope cb]
  \/ recvFBAEnvelope envelope cb h = (h, []).
Proof.
  unfold recvFBAEnvelope.
  destruct (mLedgersToWaitToParticipate h =? 0); [|by left].
  destruct (_ || _); [by right | by left].
Qed.

(** The counter after [ledgerClosed]. *)
Lemma ledgerClosed_counter_after app ledger h :
  mLedgersToWaitToParticipate (fst (ledgerClosed app ledger h))
  = ledgerClosed_counter app (mLedgersToWaitToParticipate h).
Proof.
  unfold ledgerClosed.
  destruct (secretKey_isZero (fba h)); [done|].
  by destruct (_ >? 0).
Qed.

(** In synced state [ledgerClosed] leaves the counter as it is; the counter
    is decremented exactly when it is positive and the application is not in
    synced state. *)
Lemma ledgerClosed_decrements_iff app ledger h :
  let n := mLedgersToWaitToParticipate h in
  let n' := mLedgersToWaitToParticipate (fst (ledgerClosed app ledger h)) in
  (n > 0 /\ getState app <> SYNCED_STATE -> n' = n - 1)
  /\ (n <= 0 \/ getState app = SYNCED_STATE -> n' = n).
Proof.
  intros n n'. subst n n'. rewrite ledgerClosed_counter_after.
  unfold ledgerClosed_counter.
  destruct (Z.gtb_spec (mLedgersToWaitToParticipate h) 0);
    destruct (decide (getState app = SYNCED_STATE)) as [E|E];
    [rewrite bool_decide_eq_true_2 by done
    |rewrite bool_decide_eq_false_2 by done
    |rewrite bool_decide_eq_true_2 by done
    |rewrite bool_decide_eq_false_2 by done]; simpl;
    (split; [intros [? ?]|intros [?|?]]); try lia; try done.
Qed.

End SlotFacts.

(** * The claims on concrete inputs *)

Section Examples.
#[local] Existing Instance example_primitives.
#[local] Existing Instance example_constants.

Ltac by_compute :=
  repeat split; vm_compute; first [reflexivity | intro; discriminate].

(** ** King election *)

(** With the quorum set {1, 2, 3} and the example hash (increasing in the
    node id), node 3 has the highest hash and node 1 the lowest. *)
Example isKing_highest_hash :
  validateBallot_isKing example_herder 6 1 3 = true.
Proof. reflexivity. Qed.

Example isKing_lowest_hash :
  validateBallot_isKing example_herder 6 1 1 = false.
Proof. reflexivity. Qed.

(** C1, counterexample: signer 1 minimizes the hash over the quorum set
    {1, 2, 3}, yet [validateBallot] does not classify its ballot as king. *)
Lemma isKing_hash_min_counterexample :
  ~ (validateBallot_isKing example_herder 6 1 1 = true <->
     forall v, v ∈ validators (getLocalQuorumSet (fba example_herder)) ->
               sha256_king 6 1 1 <= sha256_king 6 1 v).
Proof.
  intros [_ Hmin]. cut (false = true); [discriminate|].
  change false with (validateBallot_isKing example_herder 6 1 1).
  apply Hmin. intros v Hv. apply list_elem_of_In in Hv. simpl in Hv.
  destruct Hv as [<-|[<-|[<-|[]]]]; by_compute.
Qed.

(** ** Value ordering *)

(** C2, failing input: two verified values of the same signer (equal signer
    hashes), the first with the greater close time, so that [v2.value] is
    below [v1.value]: [compareValues] returns [-1], not [+1]; with the
    arguments swapped it returns [-1] as well. *)
Theorem compareValues_above_failing_input :
  value_lt value_a value_b = true
  /\ compareValues 6 1 (example_value 3 value_b) (example_value 3 value_a)
     = Returned (-1)
  /\ compareValues 6 1 (example_value 3 value_a) (example_value 3 value_b)
     = Returned (-1).
Proof. by_compute. Qed.

Example compareValues_equal :
  compareValues 6 1 (example_value 3 value_a) (example_value 3 value_a)
  = Returned 0.
Proof. by_compute. Qed.

Example compareValues_hash_order :
  compareValues 6 1 (example_value 2 value_a) (example_value 3 value_a)
    = Returned (-1)
  /\ compareValues 6 1 (example_value 3 value_a) (example_value 2 value_a)
    = Returned 1.
Proof. by_compute. Qed.

(** ** Signature check *)

(** C3, failing input: a ballot whose value decodes, names the trusted king
    (node 3) as signer and carries a signature that does not verify.
    [validateBallot] invokes [cb(true)]; [validateValue], given the same
    value, invokes [cb(false)]. *)
Theorem validateBallot_forged_signature_failing_input :
  exists b,
    xdr_from_opaque forged_value = Some b
    /\ verifyStellarBallot b = false
    /\ validateBallot example_app 6 2
         {| counter := 1; bvalue := forged_value |} 7%nat example_herder
       = (example_herder, [Cb 7%nat true])
    /\ validateValue example_app 6 2 forged_value 7%nat example_herder
       = (example_herder, [Cb 7%nat false]).
Proof. eexists. by_compute. Qed.

(** A ballot of the same node with a good signature is treated alike. *)
Example validateBallot_king_accepted :
  validateBallot example_app 6 2
    {| counter := 1; bvalue := example_value 3 value_a |} 7%nat example_herder
  = (example_herder, [Cb 7%nat true]).
Proof. by_compute. Qed.

(** ** Counter growth *)

(** The bound at work: at clock time 1000 s, last trigger at 990 s, a ballot
    with counter 3 passes the check, and 1000 + 60 >= 990 + (1 + 2). *)
Lemma validateBallot_counter_growth_bound_witness :
  counter_growth_ok (wrap64 (pointToTimeT (clock_now example_app)))
    (wrap64 (pointToTimeT (mLastTrigger example_herder))) 3 = true
  /\ (pointToTimeT (clock_now example_app) + MAX_TIME_SLIP_SECONDS
        >= pointToTimeT (mLastTrigger example_herder)
           + sum_timeouts (Z.to_nat (3 - 1))
      /\ exists i, Z.of_nat i < 3
           /\ pointToTimeT (clock_now example_app) + MAX_TIME_SLIP_SECONDS
              >= pointToTimeT (mLastTrigger example_herder) + sum_timeouts i).
Proof.
  split; [reflexivity|].
  apply (validateBallot_counter_growth_bound example_app example_herder
           {| counter := 3; bvalue := [] |});
    try by_compute.
  left. by_compute.
Defined.

(** C8, failing input: a ballot of the king (node 3) with counter 33, last
    trigger at 2^32 s, clock at 2^32 + 5900 s, where the out-of-range
    [(int)pow(2.0, i)] is [INT_MIN] (as on x86-64).  For [i = 31] and
    [i = 32] the loop adds [min(240, INT_MIN)] to the unsigned 64-bit sum,
    so that [lastTrigger + sumTimeouts] wraps to 5775, the sum over
    [k = 0..30] alone.  The check passes and [validateBallot] invokes
    [cb(true)], although
    now + MAX_TIME_SLIP_SECONDS = 2^32 + 5960 is below
    lastTrigger + Σ_{k=0..31} min(240, 2^k) = 2^32 + 6015. *)
Theorem validateBallot_counter_growth_failing_input :
  let timeNow := pointToTimeT (clock_now late_app) in
  let lastTrigger := pointToTimeT (mLastTrigger herder_late_trigger) in
  pow2_int 31 = INT_MIN
  /\ pow2_int 32 = INT_MIN
  /\ wrap64 (lastTrigger + sumTimeouts_loop 33 0 timeNow lastTrigger 0)
     = sum_timeouts 31
  /\ counter_growth_ok timeNow lastTrigger 33 = true
  /\ validateBallot late_app 6 2
       {| counter := 33; bvalue := example_value 3 value_a |} 7%nat
       herder_late_trigger
     = (herder_late_trigger, [Cb 7%nat true])
  /\ timeNow + MAX_TIME_SLIP_SECONDS = 2 ^ 32 + 5960
  /\ lastTrigger + sum_timeouts (Z.to_nat (33 - 1)) = 2 ^ 32 + 6015
  /\ ~ (timeNow + MAX_TIME_SLIP_SECONDS
        >= lastTrigger + sum_timeouts (Z.to_nat (33 - 1))).
Proof.
  intros timeNow lastTrigger.
  repeat split; try (vm_compute; reflexivity).
  vm_compute. intros Hge. apply Hge. reflexivity.
Qed.

(** With counter 31, the last one for which every [(int)pow(2.0, i)] is in
    range, the same clock is not accepted before the bound. *)
Example validateBallot_counter_31_bound :
  counter_growth_ok (pointToTimeT (clock_now late_app))
    (pointToTimeT (mLastTrigger herder_late_trigger)) 31 = true
  /\ pointToTimeT (clock_now late_app) + MAX_TIME_SLIP_SECONDS
     >= pointToTimeT (mLastTrigger herder_late_trigger)
        + sum_timeouts (Z.to_nat (31 - 1)).
Proof. by_compute. Qed.

(** A counter far ahead of the elapsed time is rejected. *)
Example validateBallot_counter_exhaustion :
  validateBallot example_app 6 2
    {| counter := 10000; bvalue := example_value 3 value_a |} 7%nat
    example_herder
  = (example_herder, [Cb 7%nat false]).
Proof. by_compute. Qed.

(** ** Deferred acceptance *)

Example validateBallot_defers :
  snd (validateBallot example_app 6 2 deferring_ballot 7%nat example_herder)
    = []
  /\ all_ballot_timers (mBallotValidationTimers herder_with_timer)
     = [{| expires_ms := 1000; captured_cb := 7%nat |}].
Proof. by_compute. Qed.

(** C5, counterexample: [ledgerClosed] cancels the timer registered for
    callback 7, and the timer's handler, run with [operation_aborted],
    invokes callback 7 with [true]. *)
Lemma ballotTimer_cancel_counterexample :
  let t := {| expires_ms := 1000; captured_cb := 7%nat |} in
  all_ballot_timers (mBallotValidationTimers herder_with_timer) = [t]
  /\ snd (ledgerClosed example_app ledger6 herder_with_timer)
     = [BallotTimer_cancelled t]
  /\ callbacks (ballotTimer_handler t operation_aborted) = [(7%nat, true)]
  /\ callbacks (ballotTimer_handler t operation_aborted) <> [].
Proof. by_compute. Qed.

(** The v-blocking shortcut: a second node requesting the same ballot makes
    the requesters v-blocking; both timers are cancelled and both callbacks
    are invoked with [true]. *)
Example validateBallot_vblocking_rush :
  callbacks
    (handlers_run
       (snd (validateBallot example_app 6 3 deferring_ballot 8%nat
               herder_with_timer)))
  = [(7%nat, true); (8%nat, true)].
Proof. by_compute. Qed.

(** ** Future envelopes *)

(** C4, counterexample: fully synced at ledger 5, an envelope for slot 7 is
    within the bracket [0, 15] and beyond slot 6; it is stashed, and it is
    handed to [receiveEnvelope] at reception time. *)
Lemma recvFBAEnvelope_future_counterexample :
  mLedgersToWaitToParticipate synced_herder = 0
  /\ slotIndex future_envelope
     > ledgerSeq (mLastClosedLedger synced_herder) + 1
  /\ minLedgerSeq synced_herder <= slotIndex future_envelope
     <= maxLedgerSeq synced_herder
  /\ mFutureEnvelopes (fst (recvFBAEnvelope future_envelope 7%nat synced_herder))
       !! 7 = Some [(future_envelope, 7%nat)]
  /\ forwarded (snd (recvFBAEnvelope future_envelope 7%nat synced_herder))
     = [(future_envelope, 7%nat)].
Proof. by_compute. Qed.

(** C4, witness. *)
Lemma recvFBAEnvelope_future_stashed_and_forwarded_witness :
  mFutureEnvelopes (fst (recvFBAEnvelope future_envelope 7%nat synced_herder))
    !! slotIndex future_envelope
  = Some (default [] (mFutureEnvelopes synced_herder
                        !! slotIndex future_envelope)
          ++ [(future_envelope, 7%nat)])
  /\ (forall s, s <> slotIndex future_envelope ->
        mFutureEnvelopes
          (fst (recvFBAEnvelope future_envelope 7%nat synced_herder)) !! s
        = mFutureEnvelopes synced_herder !! s)
  /\ snd (recvFBAEnvelope future_envelope 7%nat synced_herder)
     = [FBA_receiveEnvelope future_envelope 7%nat].
Proof.
  apply (recvFBAEnvelope_future_stashed_and_forwarded
           future_envelope 7%nat synced_herder); by_compute.
Defined.

(** An envelope beyond the bracket is dropped. *)
Example recvFBAEnvelope_beyond_bracket :
  recvFBAEnvelope {| env_nodeID := 2; slotIndex := 16; env_payload := [] |}
    7%nat synced_herder = (synced_herder, [])
  /\ snd (recvFBAEnvelope
            {| env_nodeID := 2; slotIndex := 15; env_payload := [] |}
            7%nat synced_herder) <> [].
Proof. by_compute. Qed.

(** ** Ledger closed *)

(** C9, failing input: with the counter at 3, [ledgerClosed] in synced state
    leaves it at 3; in a state other than synced it lowers it to 2. *)
Theorem ledgerClosed_counter_failing_input :
  getState example_app = SYNCED_STATE
  /\ mLedgersToWaitToParticipate example_herder = 3
  /\ mLedgersToWaitToParticipate
       (fst (ledgerClosed example_app ledger6 example_herder)) = 3
  /\ mLedgersToWaitToParticipate
       (fst (ledgerClosed catching_up_app ledger6 example_herder)) = 2.
Proof. by_compute. Qed.

(** ** Transaction pool *)

(** C6, counterexample: bucket 1 holds transaction 1 and the oldest bucket
    (index 3) holds transaction 2; externalizing an empty tx set rebroadcasts
    transaction 1, not the content of bucket 3. *)
Lemma valueExternalized_rebroadcast_counterexample :
  exists h' evs,
    valueExternalized example_app 6 (example_value 3 value_a)
      (set_mReceivedTransactions pool_1_3 example_herder)
    = Returned (h', evs)
    /\ pool_1_3 !! 3%nat = Some [example_tx 2]
    /\ broadcasts evs = [example_tx 1]
    /\ broadcasts evs <> [example_tx 2].
Proof. eexists _, _. by_compute. Qed.

(** C6, witness. *)
Lemma valueExternalized_rebroadcasts_bucket1_witness :
  exists h' evs,
    valueExternalized example_app 6 (example_value 3 value_a)
      (set_mReceivedTransactions pool_1_3 example_herder)
    = Returned (h', evs)
    /\ broadcasts evs
       = default [] (removeReceivedTxs (mTransactions example_txset) pool_1_3
                       !! 1%nat)
    /\ mReceivedTransactions h'
       = rotate (removeReceivedTxs (mTransactions example_txset) pool_1_3).
Proof.
  eexists _, _. split; [vm_compute; reflexivity|].
  apply (valueExternalized_rebroadcasts_bucket1 example_app 6
           (example_value 3 value_a)
           (set_mReceivedTransactions pool_1_3 example_herder)
           example_txset);
    vm_compute; reflexivity.
Defined.

(** C7, counterexample: four buckets holding transactions 1, 2, 3 and 4;
    after externalizing an empty tx set the oldest bucket holds transactions
    4 and 3: it is not exactly the former bucket 2, and transaction 4 is
    still in the pool. *)
Lemma valueExternalized_rotation_counterexample :
  exists h' evs,
    valueExternalized example_app 6 (example_value 3 value_a)
      (set_mReceivedTransactions pool_full example_herder)
    = Returned (h', evs)
    /\ mReceivedTransactions h'
       = [[]; [example_tx 1]; [example_tx 2]; [example_tx 4; example_tx 3]]
    /\ mReceivedTransactions h' !! 3%nat <> pool_full !! 2%nat
    /\ example_tx 4 ∈ concat (mReceivedTransactions h').
Proof.
  eexists _, _. split; [vm_compute; reflexivity|].
  split; [reflexivity|]. split; [intro; discriminate|].
  simpl. apply list_elem_of_lookup. by exists 2%nat.
Qed.

(** C7, witness. *)
Lemma valueExternalized_rotation_witness :
  exists h' evs,
    valueExternalized example_app 6 (example_value 3 value_a)
      (set_mReceivedTransactions pool_full example_herder)
    = Returned (h', evs)
    /\ (let pre := removeReceivedTxs (mTransactions example_txset) pool_full in
        let post := mReceivedTransactions h' in
        let N := length pre in
        length post = N
        /\ post !! 0%nat = Some []
        /\ (forall n, (0 < n < N - 1)%nat -> post !! n = pre !! (n - 1)%nat)
        /\ post !! (N - 1)%nat
           = Some (default [] (pre !! (N - 1)%nat)
                   ++ default [] (pre !! (N - 2)%nat))
        /\ concat post ≡ₚ concat pre).
Proof.
  eexists _, _. split; [vm_compute; reflexivity|].
  eapply (valueExternalized_rotation example_app 6
           (example_value 3 value_a)
           (set_mReceivedTransactions pool_full example_herder)
           example_txset);
    vm_compute; reflexivity.
Defined.

(** Externalizing a set removes its transactions from the pool before the
    rebroadcast and the rotation. *)
Example valueExternalized_flushes_pool :
  exists h' evs,
    valueExternalized app_with_set_1_2 6 (example_value 3 value_a)
      (set_mReceivedTransactions
         [[example_tx 1; example_tx 2; example_tx 3]; []; []; []]
         example_herder)
    = Returned (h', evs)
    /\ mReceivedTransactions h' = [[]; [example_tx 3]; []; []]
    /\ broadcasts evs = [].
Proof. eexists _, _. by_compute. Qed.

(** The same transaction offered twice is taken once. *)
Example recvTransaction_twice :
  let r1 := recvTransaction example_app (example_tx 1) example_herder in
  let r2 := recvTransaction example_app (example_tx 1) (snd r1) in
  fst r1 = true
  /\ mReceivedTransactions (snd r1) = [[example_tx 1]; []; []; []]
  /\ fst r2 = false
  /\ snd r2 = snd r1.
Proof. by_compute. Qed.

End Examples.

(** * Further properties of the code *)

(** ** The transaction pool *)

Section PoolMore.

Implicit Types (tx t dropTx : TransactionFrame) (l : list TransactionFrame)
  (pool : list (list TransactionFrame)).

Lemma erase_first_spec dropTx l :
  match erase_first dropTx l with
  | None => forall t, t ∈ l -> getFullHash t <> getFullHash dropTx
  | Some l' =>
      exists l1 t l2,
        l = l1 ++ t :: l2 /\ l' = l1 ++ l2
        /\ getFullHash t = getFullHash dropTx
        /\ forall u, u ∈ l1 -> getFullHash u <> getFullHash dropTx
  end.
Proof.
  induction l as [|a l IH]; simpl.
  - intros t Ht. inversion Ht.
  - destruct (Z.eqb_spec (getFullHash a) (getFullHash dropTx)) as [E|E].
    + exists [], a, l. repeat split; try done. intros u Hu. inversion Hu.
    + destruct (erase_first dropTx l) as [l'|].
      * destruct IH as (l1 & t & l2 & -> & -> & Ht & Hl1).
        exists (a :: l1), t, l2. repeat split; try done.
        intros u Hu. apply elem_of_cons in Hu as [->|Hu]; auto.
      * intros t Ht. apply elem_of_cons in Ht as [->|Ht]; auto.
Qed.

Lemma removeReceivedTx_pool_length dropTx pool :
  length (removeReceivedTx_pool dropTx pool) = length pool.
Proof.
  induction pool as [|l r IH]; simpl; [done|].
  destruct (erase_first dropTx l); simpl; congruence.
Qed.

Lemma removeReceivedTx_pool_spec dropTx pool :
  (removeReceivedTx_pool dropTx pool = pool
   /\ forall t, t ∈ concat pool -> getFullHash t <> getFullHash dropTx)
  \/ (exists l1 t l2,
        concat pool = l1 ++ t :: l2
        /\ concat (removeReceivedTx_pool dropTx pool) = l1 ++ l2
        /\ getFullHash t = getFullHash dropTx
        /\ forall u, u ∈ l1 -> getFullHash u <> getFullHash dropTx).
Proof.
  induction pool as [|l r IH]; simpl.
  - left. split; [done|]. intros t Ht. inversion Ht.
  - pose proof (erase_first_spec dropTx l) as Hl.
    destruct (erase_first dropTx l) as [l'|].
    + right. destruct Hl as (l1 & t & l2 & -> & -> & Ht & Hl1).
      exists l1, t, (l2 ++ concat r). simpl.
      rewrite <- !(assoc_L (++)). done.
    + destruct IH as [[Heq Hno]|(l1 & t & l2 & Hc & Hc' & Ht & Hl1)].
      * left. split; [by rewrite Heq|].
        intros t Ht. apply elem_of_app in Ht as [Ht|Ht]; auto.
      * right. exists (l ++ l1), t, l2. simpl. rewrite Hc, Hc'.
        rewrite <- !(assoc_L (++)). repeat split; try done.
        intros u Hu. apply elem_of_app in Hu as [Hu|Hu]; auto.
Qed.


Lemma pool_unique_remove_middle (l1 l2 : list TransactionFrame) t :
  NoDup (getFullHash <$> (l1 ++ t :: l2)) ->
  NoDup (getFullHash <$> (l1 ++ l2))
  /\ forall u, u ∈ l1 ++ l2 -> getFullHash u <> getFullHash t.
Proof.
  rewrite !fmap_app, fmap_cons. intros Hnd.
  apply NoDup_app in Hnd as (H1 & H12 & H2).
  apply NoDup_cons in H2 as (Ht & H2).
  split.
  - apply NoDup_app. repeat split; [done| |done].
    intros x Hx Hx2. apply (H12 x Hx). by right.
  - intros u Hu Heq. apply elem_of_app in Hu as [Hu|Hu].
    + apply (H12 (getFullHash u)).
      * apply list_elem_of_fmap. eauto.
      * rewrite Heq. by left.
    + apply Ht. rewrite <- Heq. apply list_elem_of_fmap. eauto.
Qed.

Lemma removeReceivedTx_pool_unique dropTx pool :
  pool_unique pool ->
  pool_unique (removeReceivedTx_pool dropTx pool)
  /\ (forall t, t ∈ concat (removeReceivedTx_pool dropTx pool) ->
                getFullHash t <> getFullHash dropTx)
  /\ (forall t, t ∈ concat (removeReceivedTx_pool dropTx pool) ->
                t ∈ concat pool).
Proof.
  unfold pool_unique. intros Hu.
  destruct (removeReceivedTx_pool_spec dropTx pool)
    as [[-> Hno]|(l1 & t & l2 & Hc & Hc' & Ht & Hl1)]; [done|].
  rewrite Hc in Hu. rewrite Hc', Hc.
  apply pool_unique_remove_middle in Hu as (Hnd & Hne).
  split; [done|]. split.
  - intros u Hin. rewrite <- Ht. by apply Hne.
  - intros u Hin. apply elem_of_app in Hin as [Hin|Hin];
      apply elem_of_app; [by left|right; by right].
Qed.

(** X4: in a pool without duplicate full hashes, [removeReceivedTx] leaves
    no transaction with the full hash of [dropTx], adds none, and keeps the
    pool free of duplicates. *)
Theorem removeReceivedTx_unique_absent dropTx h :
  pool_unique (mReceivedTransactions h) ->
  let pool' := mReceivedTransactions (removeReceivedTx dropTx h) in
  pool_unique pool'
  /\ (forall t, t ∈ concat pool' -> getFullHash t <> getFullHash dropTx)
  /\ (forall t, t ∈ concat pool' -> t ∈ concat (mReceivedTransactions h)).
Proof. intros Hu. simpl. by apply removeReceivedTx_pool_unique. Qed.

Lemma push_bucket0_concat tx pool :
  pool <> [] -> concat (push_bucket0 tx pool) ≡ₚ tx :: concat pool.
Proof.
  destruct pool as [|b r]; [done|]. intros _. unfold push_bucket0. simpl.
  rewrite <- (assoc_L (++)). simpl.
  by rewrite <- Permutation_middle.
Qed.

Lemma recvTransaction_pool app tx h :
  mReceivedTransactions (snd (recvTransaction app tx h))
  = if fst (recvTransaction app tx h)
    then push_bucket0 tx (mReceivedTransactions h)
    else mReceivedTransactions h.
Proof.
  unfold recvTransaction.
  destruct (recv_scan tx (mReceivedTransactions h) 0); [|done].
  destruct (tx_checkValid app tx); [|done]. simpl.
  by destruct (_ <? _).
Qed.

(** X2: a transaction that [recvTransaction] has just accepted is refused
    when offered again, and the second call changes nothing (the pool has at
    least one bucket). *)
Theorem recvTransaction_duplicate_rejected app app' tx h :
  mReceivedTransactions h <> [] ->
  fst (recvTransaction app tx h) = true ->
  let h' := snd (recvTransaction app tx h) in
  recvTransaction app' tx h' = (false, h').
Proof.
  intros Hne Hacc h'.
  assert (recv_scan tx (mReceivedTransactions h') 0 = None) as Hscan.
  { apply recv_scan_None. exists tx. split; [|done].
    subst h'. rewrite recvTransaction_pool, Hacc.
    rewrite (push_bucket0_concat tx _ Hne). by left. }
  unfold recvTransaction at 1. by rewrite Hscan.
Qed.

Lemma recvTransaction_unique app tx h :
  pool_unique (mReceivedTransactions h) ->
  pool_unique (mReceivedTransactions (snd (recvTransaction app tx h))).
Proof.
  intros Hu. rewrite recvTransaction_pool.
  destruct (fst (recvTransaction app tx h)) eqn:Hacc; [|done].
  destruct (mReceivedTransactions h) as [|b r] eqn:Hp; [done|].
  apply recvTransaction_true_iff in Hacc as (Hfresh & _).
  unfold pool_unique in *. rewrite push_bucket0_concat by done.
  rewrite fmap_cons. apply NoDup_cons. split; [|done].
  intros Hin. apply list_elem_of_fmap in Hin as (t & Heq & Hin).
  rewrite Hp in Hfresh. by apply (Hfresh t Hin).
Qed.

Lemma recvTransaction_length app tx h :
  length (mReceivedTransactions (snd (recvTransaction app tx h)))
  = length (mReceivedTransactions h).
Proof.
  rewrite recvTransaction_pool. destruct (fst _); [|done].
  unfold push_bucket0. by rewrite length_alter.
Qed.

(** X5: with the four buckets the constructor makes, three rotations move
    every pooled transaction into the oldest bucket, oldest first, and
    further rotations leave that pool as it is: the rotation alone never
    drops a transaction. *)
Theorem rotate_three_times (b0 b1 b2 b3 : list TransactionFrame) :
  rotate (rotate (rotate [b0; b1; b2; b3]))
    = [[]; []; []; ((b3 ++ b2) ++ b1) ++ b0]
  /\ rotate [[]; []; []; b3] = [[]; []; []; b3].
Proof.
  split; [reflexivity|].
  unfold rotate, rotate_from, rotate_step. simpl. by rewrite app_nil_r.
Qed.

(** X1: [recvTransaction] returns [false] exactly for one of three causes:
    a pooled transaction has the same full hash, [checkValid] fails, or the
    balance of the source account is below the fee times one more than the
    number of pooled transactions of that source account. *)
Theorem recvTransaction_rejection_causes app tx h :
  fst (recvTransaction app tx h) = false <->
  (exists t, t ∈ concat (mReceivedTransactions h)
             /\ getFullHash t = getFullHash tx)
  \/ tx_checkValid app tx = false
  \/ getBalance tx
     < (same_source_count tx (concat (mReceivedTransactions h)) + 1)
       * getTxFee app.
Proof.
  pose proof (recvTransaction_true_iff app tx h) as Hiff.
  destruct (fst (recvTransaction app tx h)).
  - split; [discriminate|]. destruct Hiff as [Hiff _].
    destruct (Hiff eq_refl) as (Hfresh & Hvalid & Hbal).
    intros [(t & Hin & Heq)|[Hinv|Hlow]]; exfalso.
    + by apply (Hfresh t Hin).
    + congruence.
    + lia.
  - split; [intros _|done]. destruct Hiff as [_ Hiff].
    destruct (recv_scan tx (mReceivedTransactions h) 0) as [k|] eqn:Hscan.
    + destruct (tx_checkValid app tx) eqn:Hv; [|by right; left].
      destruct (Z.lt_ge_cases (getBalance tx)
                  ((same_source_count tx (concat (mReceivedTransactions h))
                    + 1) * getTxFee app)) as [Hlow|Hok];
        [by right; right|].
      exfalso. enough (false = true) by discriminate. apply Hiff.
      split; [|split; [done|lia]].
      intros t Hin Heq.
      assert (recv_scan tx (mReceivedTransactions h) 0 = None) as Habs
        by (apply recv_scan_None; eauto).
      congruence.
    + left. by apply recv_scan_None in Hscan.
Qed.

End PoolMore.

(** ** Externalization *)

Section ExternalizeMore.
Context `{Prim : Primitives} `{Cst : Constants}.

Lemma removeReceivedTxs_length txs pool :
  length (removeReceivedTxs txs pool) = length pool.
Proof.
  unfold removeReceivedTxs. revert pool.
  induction txs as [|tx txs IH]; intros pool; simpl; [done|].
  by rewrite IH, removeReceivedTx_pool_length.
Qed.

Lemma removeReceivedTxs_unique txs pool :
  pool_unique pool ->
  pool_unique (removeReceivedTxs txs pool)
  /\ (forall tx t, tx ∈ txs -> t ∈ concat (removeReceivedTxs txs pool) ->
                   getFullHash t <> getFullHash tx)
  /\ (forall t, t ∈ concat (removeReceivedTxs txs pool) -> t ∈ concat pool).
Proof.
  unfold removeReceivedTxs. revert pool.
  induction txs as [|tx txs IH]; intros pool Hu; simpl.
  - split; [done|]. split; [|done]. intros tx t Htx. inversion Htx.
  - destruct (removeReceivedTx_pool_unique tx pool Hu) as (Hu1 & Habs & Hsub).
    destruct (IH _ Hu1) as (Hu2 & Habs2 & Hsub2).
    split; [done|]. split.
    + intros tx' t Htx Ht. apply elem_of_cons in Htx as [->|Htx].
      * apply Habs. by apply Hsub2.
      * by apply (Habs2 tx' t).
    + intros t Ht. by apply Hsub, Hsub2.
Qed.

(** X6: with at least two buckets and a locally resolvable tx set,
    [valueExternalized] returns (its assertion holds), keeps the number of
    buckets, and flips the active fetcher: index 0 becomes 1, any other
    index becomes 0. *)
Theorem valueExternalized_returns app slot v h externalizedSet :
  (2 <= length (mReceivedTransactions h))%nat ->
  fetchTxSet app h (txSetHash (value (externalized_ballot v))) false
    = Some externalizedSet ->
  exists h' evs,
    valueExternalized app slot v h = Returned (h', evs)
    /\ length (mReceivedTransactions h') = length (mReceivedTransactions h)
    /\ mCurrentTxSetFetcher h'
       = (if mCurrentTxSetFetcher h =? 0 then 1 else 0)
    /\ Fetcher_stopFetchingAll (mCurrentTxSetFetcher h) ∈ evs
    /\ Fetcher_clear (mCurrentTxSetFetcher h') ∈ evs.
Proof.
  intros Hlen Hfetch. unfold valueExternalized. rewrite Hfetch.
  rewrite removeReceivedTxs_length.
  destruct (Nat.ltb_spec (length (mReceivedTransactions h)) 2); [lia|].
  eexists _, _. split; [reflexivity|]. simpl.
  split.
  - destruct (rotate_buckets (removeReceivedTxs (mTransactions externalizedSet)
                                (mReceivedTransactions h))) as (Hl & _).
    + by rewrite removeReceivedTxs_length.
    + by rewrite Hl, removeReceivedTxs_length.
  - split; [done|]. split.
    + right. apply elem_of_app. right. by left.
    + right. apply elem_of_app. right. right. by left.
Qed.

(** X7: when the pool has no duplicate full hash, after [valueExternalized]
    (resolvable tx set) no transaction with the full hash of an externalized
    one is left in the pool, every pooled transaction was pooled before, and
    the pool is still free of duplicates. *)
Theorem valueExternalized_removes_externalized
    app slot v h externalizedSet h' evs :
  pool_unique (mReceivedTransactions h) ->
  fetchTxSet app h (txSetHash (value (externalized_ballot v))) false
    = Some externalizedSet ->
  valueExternalized app slot v h = Returned (h', evs) ->
  pool_unique (mReceivedTransactions h')
  /\ (forall tx t, tx ∈ mTransactions externalizedSet ->
                   t ∈ concat (mReceivedTransactions h') ->
                   getFullHash t <> getFullHash tx)
  /\ (forall t, t ∈ concat (mReceivedTransactions h') ->
                t ∈ concat (mReceivedTransactions h)).
Proof.
  intros Hu Hfetch Hrun.
  destruct (valueExternalized_resolved _ _ _ _ _ _ _ Hfetch Hrun)
    as (Hlen & Hrot & _).
  destruct (rotate_buckets _ Hlen) as (_ & _ & _ & _ & Hperm).
  destruct (removeReceivedTxs_unique (mTransactions externalizedSet) _ Hu)
    as (Hu' & Habs & Hsub).
  rewrite Hrot. unfold pool_unique. rewrite Hperm.
  split; [done|]. split.
  - intros tx t Htx Ht. rewrite Hperm in Ht. by apply (Habs tx t).
  - intros t Ht. rewrite Hperm in Ht. by apply Hsub.
Qed.

Lemma purge_events_elem now (m : smap Z) (e : Event) :
  e ∈ purge_events now m <->
  exists n t, e = FBA_purgeNode n /\ (n, t) ∈ m
              /\ now - t > chrono_seconds NODE_EXPIRATION_SECONDS.
Proof.
  unfold purge_events. induction m as [|[k t] m IH]; simpl.
  - split; [intros H; inversion H|].
    intros (n & t & _ & Hin & _). inversion Hin.
  - rewrite elem_of_app, IH. split.
    + intros [Hhere|(n & t' & -> & Hin & Hold)].
      * destruct (Z.gtb_spec (now - t)
                    (chrono_seconds NODE_EXPIRATION_SECONDS));
          [|inversion Hhere].
        apply list_elem_of_singleton in Hhere as ->.
        exists k, t. split; [done|]. split; [by left | lia].
      * exists n, t'. split; [done|]. split; [by right | done].
    + intros (n & t' & -> & Hin & Hold).
      apply elem_of_cons in Hin as [[= -> ->]|Hin].
      * left. destruct (Z.gtb_spec (now - t)
                          (chrono_seconds NODE_EXPIRATION_SECONDS)); [|lia].
        by left.
      * right. eauto.
Qed.

Lemma valueExternalized_purge_spec app slot v h externalizedSet h' evs :
  fetchTxSet app h (txSetHash (value (externalized_ballot v))) false
    = Some externalizedSet ->
  valueExternalized app slot v h = Returned (h', evs) ->
  (forall n, FBA_purgeNode n ∈ evs <->
             exists t, (n, t) ∈ mNodeLastAccess h
                       /\ clock_now app - t
                          > chrono_seconds NODE_EXPIRATION_SECONDS)
  /\ (forall s, FBA_purgeSlots s ∈ evs <->
                slot > LEDGER_VALIDITY_BRACKET
                /\ s = wrap64 (slot - LEDGER_VALIDITY_BRACKET)).
Proof.
  intros Hfetch Hrun. unfold valueExternalized in Hrun.
  rewrite Hfetch in Hrun.
  destruct (_ <? _)%nat; [discriminate|].
  inversion Hrun as [[Hh Hevs]]. clear Hrun Hh Hevs.
  assert (forall e : Event,
            e ∈ externalized_decode_log v -> e = Log_error) as Hlog.
  { intros e. unfold externalized_decode_log.
    destruct (xdr_from_opaque v); intros He; [inversion He|].
    by apply list_elem_of_singleton in He. }
  assert (forall e : Event,
            e ∈ (if slot >? LEDGER_VALIDITY_BRACKET
                 then [FBA_purgeSlots (wrap64 (slot - LEDGER_VALIDITY_BRACKET))]
                 else []) <->
            slot > LEDGER_VALIDITY_BRACKET
            /\ e = FBA_purgeSlots (wrap64 (slot - LEDGER_VALIDITY_BRACKET)))
    as Hslots.
  { intros e. destruct (Z.gtb_spec slot LEDGER_VALIDITY_BRACKET).
    - rewrite list_elem_of_singleton. split; [intros ->; split; [lia|done]|].
      by intros [_ ->].
    - split; [intros He; inversion He | lia]. }
  split.
  - intros n. cbn [Datatypes.app].
    rewrite elem_of_cons, elem_of_app, !elem_of_cons, !elem_of_app,
      purge_events_elem, Hslots, list_elem_of_fmap.
    split.
    + intros [He|[He|[He|[He|[He|[He|[He|He]]]]]]]; try discriminate.
      * apply Hlog in He. discriminate.
      * destruct He as (t & He & _). discriminate.
      * destruct He as (n' & t & [= ->] & Hin & Hold). eauto.
      * destruct He as [_ He]. discriminate.
    + intros (t & Hin & Hold). do 6 right. left. eauto.
  - intros s. cbn [Datatypes.app].
    rewrite elem_of_cons, elem_of_app, !elem_of_cons, !elem_of_app,
      purge_events_elem, Hslots, list_elem_of_fmap.
    split.
    + intros [He|[He|[He|[He|[He|[He|[He|He]]]]]]]; try discriminate.
      * apply Hlog in He. discriminate.
      * destruct He as (t & He & _). discriminate.
      * destruct He as (n' & t & He & _). discriminate.
      * destruct He as [Hgt [= ->]]. done.
    + intros (Hgt & ->). do 7 right. done.
Qed.

(** X8: during [valueExternalized] (resolvable tx set) the FBA engine is
    asked to purge exactly the nodes whose last access is older than
    [NODE_EXPIRATION_SECONDS], and to purge slots exactly when the slot index
    exceeds [LEDGER_VALIDITY_BRACKET], up to the slot index minus the
    bracket. *)
Theorem valueExternalized_purges app slot v h externalizedSet h' evs :
  fetchTxSet app h (txSetHash (value (externalized_ballot v))) false
    = Some externalizedSet ->
  valueExternalized app slot v h = Returned (h', evs) ->
  (forall n, FBA_purgeNode n ∈ evs <->
             exists t, (n, t) ∈ mNodeLastAccess h
                       /\ clock_now app - t
                          > chrono_seconds NODE_EXPIRATION_SECONDS)
  /\ (forall s, FBA_purgeSlots s ∈ evs <->
                slot > LEDGER_VALIDITY_BRACKET
                /\ s = wrap64 (slot - LEDGER_VALIDITY_BRACKET)).
Proof. apply valueExternalized_purge_spec. Qed.

End ExternalizeMore.

(** ** Node access times *)

Section AccessMap.
Context {V : Type}.
Implicit Types (m : smap V) (k j : Z) (v w : V).

Lemma smap_lookup_insert_eq k v m :
  smap_lookup k (smap_insert k v m) = Some v.
Proof.
  induction m as [|[k' v'] m IH]; simpl.
  - by rewrite Z.eqb_refl.
  - destruct (Z.ltb_spec k k'); simpl; [by rewrite Z.eqb_refl|].
    destruct (Z.eqb_spec k k') as [->|Hne]; simpl.
    + by rewrite Z.eqb_refl.
    + destruct (Z.eqb_spec k k'); [done|]. exact IH.
Qed.

Lemma smap_lookup_insert_ne k j v m :
  j <> k -> smap_lookup j (smap_insert k v m) = smap_lookup j m.
Proof.
  intros Hne. induction m as [|[k' v'] m IH]; simpl.
  - by destruct (Z.eqb_spec j k).
  - destruct (Z.ltb_spec k k'); simpl.
    + by destruct (Z.eqb_spec j k).
    + destruct (Z.eqb_spec k k') as [->|Hkk]; simpl.
      * by destruct (Z.eqb_spec j k').
      * destruct (Z.eqb_spec j k'); [done|]. exact IH.
Qed.

Lemma smap_insert_keys (P : Z -> Prop) k v m :
  P k -> Forall P (map fst m) -> Forall P (map fst (smap_insert k v m)).
Proof.
  intros Hk. induction m as [|[k' v'] m IH]; simpl; intros Hm.
  - by constructor.
  - inversion Hm as [|? ? Hk' Hm']; subst.
    destruct (k <? k'); simpl; [by repeat constructor|].
    destruct (k =? k'); simpl; constructor; auto.
Qed.

Lemma smap_insert_sorted k v m :
  smap_sorted m -> smap_sorted (smap_insert k v m).
Proof.
  unfold smap_sorted. induction m as [|[k' v'] m IH]; simpl; intros Hs.
  - repeat constructor.
  - apply StronglySorted_inv in Hs as [Hs Hall].
    destruct (Z.ltb_spec k k'); simpl.
    + constructor; [by constructor|]. constructor; [done|].
      eapply Forall_impl; [exact Hall|]. simpl. intros; lia.
    + destruct (Z.eqb_spec k k') as [->|Hne]; simpl.
      * by constructor.
      * constructor; [by apply IH|].
        apply smap_insert_keys; [lia | done].
Qed.

Lemma smap_insert_elem k v m j w :
  smap_sorted m ->
  (j, w) ∈ smap_insert k v m ->
  (j = k /\ w = v) \/ (j <> k /\ (j, w) ∈ m).
Proof.
  unfold smap_sorted. induction m as [|[k' v'] m IH]; simpl; intros Hs Hin.
  - apply list_elem_of_singleton in Hin as [= -> ->]. by left.
  - apply StronglySorted_inv in Hs as [Hs Hall].
    assert (forall x y, (x, y) ∈ m -> k' < x) as Habove.
    { intros x y Hxy. rewrite Forall_forall in Hall. apply Hall.
      change (map fst m) with (fst <$> m).
      by apply (list_elem_of_fmap_2' fst m (x, y)). }
    destruct (Z.ltb_spec k k'); simpl in Hin.
    + apply elem_of_cons in Hin as [[= -> ->]|Hin]; [by left|].
      right. split; [|done].
      apply elem_of_cons in Hin as [[= -> ->]|Hin]; [lia|].
      apply Habove in Hin. lia.
    + destruct (Z.eqb_spec k k') as [->|Hne]; simpl in Hin.
      * apply elem_of_cons in Hin as [[= -> ->]|Hin]; [by left|].
        right. split; [|by right]. apply Habove in Hin. lia.
      * apply elem_of_cons in Hin as [[= -> ->]|Hin].
        -- right. split; [lia | by left].
        -- destruct (IH Hs Hin) as [?|[? ?]]; [by left|].
           right. split; [done | by right].
Qed.

End AccessMap.

Section SlotMore.
Context `{Prim : Primitives} `{Cst : Constants}.

(** X9: after [nodeTouched], the last access of the node is the current
    clock time, the last access of every other node is as before, and the
    map stays ordered by node id. *)
Theorem nodeTouched_lookup app node h :
  let m' := mNodeLastAccess (nodeTouched app node h) in
  smap_lookup node m' = Some (clock_now app)
  /\ (forall j, j <> node ->
        smap_lookup j m' = smap_lookup j (mNodeLastAccess h))
  /\ (smap_sorted (mNodeLastAccess h) -> smap_sorted m').
Proof.
  simpl. split; [apply smap_lookup_insert_eq|]. split.
  - intros j Hj. by apply smap_lookup_insert_ne.
  - apply smap_insert_sorted.
Qed.

(** X10: a node touched less than [NODE_EXPIRATION_SECONDS] before an
    externalization is not purged by it, whatever its earlier access time
    (the access map being ordered by node id). *)
Theorem nodeTouched_not_purged app app' node slot v h externalizedSet h' evs :
  smap_sorted (mNodeLastAccess h) ->
  clock_now app' - clock_now app
    <= chrono_seconds NODE_EXPIRATION_SECONDS ->
  fetchTxSet app' (nodeTouched app node h)
    (txSetHash (value (externalized_ballot v))) false = Some externalizedSet ->
  valueExternalized app' slot v (nodeTouched app node h)
    = Returned (h', evs) ->
  FBA_purgeNode node ∉ evs.
Proof.
  intros Hs Hrecent Hfetch Hrun Hin.
  destruct (valueExternalized_purge_spec _ _ _ _ _ _ _ Hfetch Hrun)
    as (Hnodes & _).
  apply Hnodes in Hin as (t & Hin & Hold). simpl in Hin.
  apply smap_insert_elem in Hin as [[_ ->]|[Hne _]]; [lia|done|done].
Qed.

(** ** Envelope intake *)

Lemma to_int_small z : 0 <= z < 2 ^ 31 -> to_int z = z.
Proof.
  intros Hz. unfold to_int. rewrite Z.mod_small by lia. lia.
Qed.

Lemma to_int_high z : 2 ^ 31 <= z < 2 ^ 32 -> to_int z = z - 2 ^ 32.
Proof.
  intros Hz. unfold to_int.
  replace (z + 2 ^ 31) with (z - 2 ^ 31 + 1 * 2 ^ 32) by lia.
  rewrite Z.mod_add by lia. rewrite Z.mod_small by lia. lia.
Qed.

Lemma int_sub_in_range x y :
  INT_MIN <= x - y <= INT_MAX -> int_sub x y = x - y.
Proof.
  intros Hr. unfold int_sub.
  destruct (Z.leb_spec INT_MIN (x - y)); [|lia].
  destruct (Z.leb_spec (x - y) INT_MAX); [done|lia].
Qed.

(** X11: when fully synced (ledger sequence and bracket below 2^31), an
    envelope is dropped, with no effect at all, exactly when its slot index
    is more than [LEDGER_VALIDITY_BRACKET] away from the last closed ledger;
    at the bracket's ends it is still forwarded. *)
Theorem recvFBAEnvelope_bracket envelope cb h :
  let lcl := ledgerSeq (mLastClosedLedger h) in
  let s := slotIndex envelope in
  mLedgersToWaitToParticipate h = 0 ->
  0 <= lcl < 2 ^ 31 ->
  0 <= LEDGER_VALIDITY_BRACKET < 2 ^ 31 ->
  0 <= s ->
  (s < lcl - LEDGER_VALIDITY_BRACKET \/ lcl + LEDGER_VALIDITY_BRACKET < s ->
   recvFBAEnvelope envelope cb h = (h, []))
  /\ (lcl - LEDGER_VALIDITY_BRACKET <= s <= lcl + LEDGER_VALIDITY_BRACKET ->
      snd (recvFBAEnvelope envelope cb h) = [FBA_receiveEnvelope envelope cb]).
Proof.
  intros lcl s Hsync Hlcl HB Hs. subst lcl s.
  unfold recvFBAEnvelope, minLedgerSeq, maxLedgerSeq. rewrite Hsync. simpl.
  rewrite to_int_small by done.
  rewrite int_sub_in_range by (unfold INT_MIN, INT_MAX; lia).
  rewrite (wrap64_small (_ + LEDGER_VALIDITY_BRACKET)) by lia.
  split.
  - intros Hout.
    destruct (Z.gtb_spec (slotIndex envelope)
                (ledgerSeq (mLastClosedLedger h) + LEDGER_VALIDITY_BRACKET));
      [done|].
    destruct (Z.ltb_spec (ledgerSeq (mLastClosedLedger h)
                          - LEDGER_VALIDITY_BRACKET) 0).
    + lia.
    + rewrite wrap64_small by lia.
      destruct (Z.ltb_spec (slotIndex envelope)
                  (ledgerSeq (mLastClosedLedger h)
                   - LEDGER_VALIDITY_BRACKET)); [done|lia].
  - intros Hin.
    destruct (Z.gtb_spec (slotIndex envelope)
                (ledgerSeq (mLastClosedLedger h) + LEDGER_VALIDITY_BRACKET));
      [lia|].
    destruct (Z.ltb_spec (ledgerSeq (mLastClosedLedger h)
                          - LEDGER_VALIDITY_BRACKET) 0).
    + destruct (Z.ltb_spec (slotIndex envelope) 0); [lia|]. reflexivity.
    + rewrite wrap64_small by lia.
      destruct (Z.ltb_spec (slotIndex envelope)
                  (ledgerSeq (mLastClosedLedger h)
                   - LEDGER_VALIDITY_BRACKET)); [lia|]. reflexivity.
Qed.

(** X12: the lower end of the bracket is computed through [(int)]: once the
    last closed ledger sequence is in [2^31 + LEDGER_VALIDITY_BRACKET, 2^32)
    the cast is negative and the [int] subtraction stays in range, so the
    lower end is 0, and an envelope for any slot up to the upper end is
    forwarded, however old. *)
Theorem recvFBAEnvelope_int_cast_lower_bound envelope cb h :
  let lcl := ledgerSeq (mLastClosedLedger h) in
  mLedgersToWaitToParticipate h = 0 ->
  0 <= LEDGER_VALIDITY_BRACKET < 2 ^ 31 ->
  2 ^ 31 + LEDGER_VALIDITY_BRACKET <= lcl < 2 ^ 32 ->
  0 <= slotIndex envelope <= lcl + LEDGER_VALIDITY_BRACKET ->
  minLedgerSeq h = 0
  /\ snd (recvFBAEnvelope envelope cb h) = [FBA_receiveEnvelope envelope cb].
Proof.
  intros lcl Hsync HB Hlcl Hs. subst lcl.
  assert (minLedgerSeq h = 0) as Hmin.
  { unfold minLedgerSeq. rewrite to_int_high by lia.
    rewrite int_sub_in_range by (unfold INT_MIN, INT_MAX; lia).
    destruct (Z.ltb_spec (ledgerSeq (mLastClosedLedger h) - 2 ^ 32
                          - LEDGER_VALIDITY_BRACKET) 0); [done|lia]. }
  split; [done|].
  unfold recvFBAEnvelope. rewrite Hsync, Hmin. unfold maxLedgerSeq. simpl.
  rewrite (wrap64_small (_ + LEDGER_VALIDITY_BRACKET)) by lia.
  destruct (Z.gtb_spec (slotIndex envelope)
              (ledgerSeq (mLastClosedLedger h) + LEDGER_VALIDITY_BRACKET));
    [lia|].
  destruct (Z.ltb_spec (slotIndex envelope) 0); [lia|]. reflexivity.
Qed.

(** ** Ledger closed *)

(** X13: [ledgerClosed] arms the trigger timer exactly when the node has a
    secret key and no ledger is left to wait for; the delay is what remains
    of [EXP_LEDGER_TIMESPAN_SECONDS] since the last trigger, and zero when
    that span is over.  The timer is cancelled before it is armed. *)
Theorem ledgerClosed_trigger_timer app ledger h :
  let n' := ledgerClosed_counter app (mLedgersToWaitToParticipate h) in
  let remaining :=
    chrono_seconds EXP_LEDGER_TIMESPAN_SECONDS
    - (clock_now app - mLastTrigger h) in
  (forall t, TriggerTimer_arm t ∈ snd (ledgerClosed app ledger h) <->
             secretKey_isZero (fba h) = false /\ n' <= 0
             /\ t = Z.max 0 remaining)
  /\ (forall t, TriggerTimer_arm t ∈ snd (ledgerClosed app ledger h) ->
        exists before,
          snd (ledgerClosed app ledger h)
          = before ++ [TriggerTimer_cancel; TriggerTimer_arm t]).
Proof.
  intros n' remaining. subst n' remaining. unfold ledgerClosed.
  assert (forall (t : Z) ts, TriggerTimer_arm t ∉ map BallotTimer_cancelled ts)
    as Hno.
  { intros t ts Hin. apply list_elem_of_fmap in Hin as (x & Hx & _).
    discriminate. }
  destruct (secretKey_isZero (fba h)); simpl.
  { split; intros t; [split|]; intros Hin;
      [by apply Hno in Hin | by destruct Hin | by apply Hno in Hin]. }
  destruct (Z.gtb_spec
              (ledgerClosed_counter app (mLedgersToWaitToParticipate h)) 0);
    simpl.
  { split; intros t; [split|]; intros Hin;
      [by apply Hno in Hin | lia | by apply Hno in Hin]. }
  assert ((if clock_now app - mLastTrigger h
              <? chrono_seconds EXP_LEDGER_TIMESPAN_SECONDS
           then chrono_seconds EXP_LEDGER_TIMESPAN_SECONDS
                - (clock_now app - mLastTrigger h)
           else 0)
          = Z.max 0 (chrono_seconds EXP_LEDGER_TIMESPAN_SECONDS
                     - (clock_now app - mLastTrigger h))) as ->.
  { destruct (Z.ltb_spec (clock_now app - mLastTrigger h)
                (chrono_seconds EXP_LEDGER_TIMESPAN_SECONDS)); lia. }
  split; intros t.
  - rewrite elem_of_app, !elem_of_cons. split.
    + intros [Hin|[Hin|[[= ->]|Hin]]];
        [by apply Hno in Hin | discriminate | done | inversion Hin].
    + intros (_ & _ & ->). right. right. by left.
  - rewrite elem_of_app, !elem_of_cons.
    intros [Hin|[Hin|[[= ->]|Hin]]];
      [by apply Hno in Hin | discriminate | by eexists | inversion Hin].
Qed.

(** [ledgerClosed] records the header and empties the ballot timer
    map; it leaves the transaction pool, the stashed future envelopes, the
    pending tx-set validations, the fetcher index, the last trigger and the
    node access times as they were. *)
Lemma ledgerClosed_frame app ledger h :
  let h' := fst (ledgerClosed app ledger h) in
  mLastClosedLedger h' = ledger
  /\ mBallotValidationTimers h' = ∅
  /\ mReceivedTransactions h' = mReceivedTransactions h
  /\ mFutureEnvelopes h' = mFutureEnvelopes h
  /\ mTxSetFetches h' = mTxSetFetches h
  /\ mCurrentTxSetFetcher h' = mCurrentTxSetFetcher h
  /\ mLastTrigger h' = mLastTrigger h
  /\ mNodeLastAccess h' = mNodeLastAccess h.
Proof.
  unfold ledgerClosed.
  destruct (secretKey_isZero (fba h)); [done|].
  by destruct (_ >? 0).
Qed.

End SlotMore.

(** ** Value validation and tx-set delivery *)

Section ValueMore.
Context `{Prim : Primitives} `{Cst : Constants}.

(** X15: when fully synced, a value that [validateValue] answers with
    [cb(true)] decodes, carries a verified signature, is for the slot right
    after the last closed ledger, closes strictly later than it, and refers
    to a tx set that is resolved and passes [checkValid]. *)
Theorem validateValue_synced_accept app slot fromNode v cb h :
  mLedgersToWaitToParticipate h = 0 ->
  Cb cb true ∈ snd (validateValue app slot fromNode v cb h) ->
  exists b txSet,
    xdr_from_opaque v = Some b
    /\ verifyStellarBallot b = true
    /\ slot = wrap64 (ledgerSeq (mLastClosedLedger h) + 1)
    /\ lh_closeTime (mLastClosedLedger h) < closeTime (value b)
    /\ fetchTxSet app h (txSetHash (value b)) true = Some txSet
    /\ txSet_checkValid app txSet = true.
Proof.
  intros Hsync. unfold validateValue, validateValue_validate.
  rewrite Hsync. simpl.
  assert (forall e : Event, e ∈ [Cb cb false] -> e <> Cb cb true) as Hno.
  { intros e He. apply list_elem_of_singleton in He. by subst e. }
  destruct (xdr_from_opaque v) as [b|]; [|intros Hin; by apply Hno in Hin].
  destruct (verifyStellarBallot b) eqn:Hv; simpl;
    [|intros Hin; by apply Hno in Hin].
  destruct (Z.eqb_spec (wrap64 (ledgerSeq (mLastClosedLedger h) + 1)) slot)
    as [Hslot|Hslot]; simpl; [|intros Hin; by apply Hno in Hin].
  destruct (Z.leb_spec (closeTime (value b))
              (lh_closeTime (mLastClosedLedger h)));
    [intros Hin; by apply Hno in Hin|].
  destruct (fetchTxSet app h (txSetHash (value b)) true) as [txSet|] eqn:Hf;
    simpl; [|intros Hin; inversion Hin].
  destruct (txSet_checkValid app txSet) eqn:Hc; simpl;
    [|intros Hin; by apply Hno in Hin].
  intros _. exists b, txSet. by repeat split.
Qed.

(** X16: [validateValue] either answers its callback once, on the spot, and
    leaves the Herder as it is, or answers nothing: then the value decodes,
    its tx set is not resolved, and the callback is queued behind the
    waiters already pending for that tx-set hash; no other waiter list and
    no pooled transaction changes. *)
Theorem validateValue_outcomes app slot fromNode v cb h :
  (exists ok, validateValue app slot fromNode v cb h = (h, [Cb cb ok]))
  \/ (exists b,
        xdr_from_opaque v = Some b
        /\ fetchTxSet app h (txSetHash (value b)) true = None
        /\ snd (validateValue app slot fromNode v cb h) = []
        /\ let h' := fst (validateValue app slot fromNode v cb h) in
           mTxSetFetches h' !! txSetHash (value b)
           = Some (default [] (mTxSetFetches h !! txSetHash (value b))
                   ++ [cb])
           /\ (forall k, k <> txSetHash (value b) ->
                 mTxSetFetches h' !! k = mTxSetFetches h !! k)
           /\ mReceivedTransactions h' = mReceivedTransactions h).
Proof.
  unfold validateValue, validateValue_validate.
  destruct (xdr_from_opaque v) as [b|]; [|left; by eexists].
  destruct (negb (verifyStellarBallot b)); [left; by eexists|].
  destruct (_ && _); [left; by eexists|].
  destruct (_ && _); [left; by eexists|].
  destruct (fetchTxSet app h (txSetHash (value b)) true) as [txSet|] eqn:Hf.
  - left. destruct (_ && _); by eexists.
  - right. exists b. split; [done|]. split; [done|]. split; [done|].
    simpl. split; [apply lookup_insert_eq|]. split; [|done].
    intros k Hk. by apply lookup_insert_ne.
Qed.

(** X17: while the node still waits to participate, every value that
    decodes, verifies and has a resolved tx set is answered with [cb(true)],
    whatever its slot, its close time and the validity of the set. *)
Theorem validateValue_unsynced_accepts app slot fromNode v cb h b txSet :
  mLedgersToWaitToParticipate h <> 0 ->
  xdr_from_opaque v = Some b ->
  verifyStellarBallot b = true ->
  fetchTxSet app h (txSetHash (value b)) true = Some txSet ->
  validateValue app slot fromNode v cb h = (h, [Cb cb true]).
Proof.
  intros Hn Hd Hv Hf. unfold validateValue, validateValue_validate.
  rewrite Hd, Hv, Hf. simpl.
  by destruct (Z.eqb_spec (mLedgersToWaitToParticipate h) 0).
Qed.

Lemma set_mReceivedTransactions_id h :
  set_mReceivedTransactions (mReceivedTransactions h) h = h.
Proof. by destruct h. Qed.

Lemma recvTransaction_frame app tx h :
  snd (recvTransaction app tx h)
  = set_mReceivedTransactions
      (mReceivedTransactions (snd (recvTransaction app tx h))) h.
Proof.
  unfold recvTransaction.
  destruct (recv_scan tx (mReceivedTransactions h) 0); simpl;
    [|by rewrite set_mReceivedTransactions_id].
  destruct (tx_checkValid app tx); simpl;
    [|by rewrite set_mReceivedTransactions_id].
  destruct (_ <? _); simpl; [by rewrite set_mReceivedTransactions_id|done].
Qed.

Lemma recvTransactions_frame app txs h :
  recvTransactions app txs h
  = set_mReceivedTransactions
      (mReceivedTransactions (recvTransactions app txs h)) h.
Proof.
  unfold recvTransactions. revert h.
  induction txs as [|tx txs IH]; intros h; simpl.
  - by rewrite set_mReceivedTransactions_id.
  - rewrite IH at 1. rewrite (recvTransaction_frame app tx h) at 2. done.
Qed.

Lemma recvTransactions_length app txs h :
  length (mReceivedTransactions (recvTransactions app txs h))
  = length (mReceivedTransactions h).
Proof.
  unfold recvTransactions. revert h.
  induction txs as [|tx txs IH]; intros h; simpl; [done|].
  by rewrite IH, recvTransaction_length.
Qed.

Lemma recvTransactions_unique app txs h :
  pool_unique (mReceivedTransactions h) ->
  pool_unique (mReceivedTransactions (recvTransactions app txs h)).
Proof.
  unfold recvTransactions. revert h.
  induction txs as [|tx txs IH]; intros h Hu; simpl; [done|].
  by apply IH, recvTransaction_unique.
Qed.

Lemma callbacks_validate app h txSet (waiters : list Callback) :
  callbacks (flat_map (fun cb => validateValue_validate app h cb txSet) waiters)
  = map (fun c =>
           (c, negb ((mLedgersToWaitToParticipate h =? 0)
                     && negb (txSet_checkValid app txSet)))) waiters.
Proof.
  unfold validateValue_validate.
  induction waiters as [|c ws IH]; [done|]. simpl.
  unfold callbacks in *. rewrite flat_map_app, IH.
  by destruct (_ && _).
Qed.

(** What [recvTxSet] does when the fetcher says somebody waits for the set:
    the set's transactions are offered to the pool, the pending validations
    of its hash are answered in the order they were queued, and their entry
    is erased. *)
Lemma recvTxSet_wanted app gw txSet h :
  txSet_recvItem gw (mCurrentTxSetFetcher h) txSet = true ->
  let r := recvTxSet app gw txSet h in
  let waiters := default [] (mTxSetFetches h !! getContentsHash txSet) in
  mReceivedTransactions (fst r)
    = mReceivedTransactions (recvTransactions app (mTransactions txSet) h)
  /\ mTxSetFetches (fst r) = delete (getContentsHash txSet) (mTxSetFetches h)
  /\ snd r
     = flat_map (fun cb =>
                   validateValue_validate app
                     (recvTransactions app (mTransactions txSet) h) cb txSet)
                waiters
  /\ fst r = set_mTxSetFetches (mTxSetFetches (fst r))
               (set_mReceivedTransactions (mReceivedTransactions (fst r)) h).
Proof.
  intros Hwant. unfold recvTxSet. rewrite Hwant.
  pose proof (recvTransactions_frame app (mTransactions txSet) h) as Hfr.
  set (h1 := recvTransactions app (mTransactions txSet) h) in *.
  assert (mTxSetFetches h1 = mTxSetFetches h) as Hm by (by rewrite Hfr).
  rewrite Hm.
  destruct (mTxSetFetches h !! getContentsHash txSet) as [ws|] eqn:Hw; simpl.
  - split; [done|]. split; [by rewrite ?Hm|]. split; [done|].
    f_equal. exact Hfr.
  - split; [done|]. split; [by rewrite ?Hm, delete_id|]. split; [done|].
    rewrite <- Hfr. by destruct h1.
Qed.

(** X18: a validation that [validateValue] deferred for want of the tx set
    is answered when [recvTxSet] delivers a set with that hash to a fetcher
    that wanted it: the queued callbacks, the deferred one last, are
    answered in order, [false] only if the node is synced and the set fails
    [checkValid]; afterwards no waiter is left for the hash. *)
Theorem deferred_validation_resolved
    app app' gw slot fromNode v cb h h1 b txSet :
  xdr_from_opaque v = Some b ->
  validateValue app slot fromNode v cb h = (h1, []) ->
  txSet_recvItem gw (mCurrentTxSetFetcher h1) txSet = true ->
  getContentsHash txSet = txSetHash (value b) ->
  let r := recvTxSet app' gw txSet h1 in
  let ok := negb ((mLedgersToWaitToParticipate h =? 0)
                  && negb (txSet_checkValid app' txSet)) in
  callbacks (snd r)
    = map (fun c => (c, ok))
          (default [] (mTxSetFetches h !! txSetHash (value b)) ++ [cb])
  /\ mTxSetFetches (fst r) !! txSetHash (value b) = None.
Proof.
  intros Hd Hrun Hwant Hhash r ok. subst r ok.
  destruct (validateValue_outcomes app slot fromNode v cb h)
    as [(ok & Hok)|(b' & Hd' & _ & _ & Hq & _ & _)].
  { rewrite Hok in Hrun. discriminate. }
  rewrite Hd in Hd'. injection Hd' as <-.
  rewrite Hrun in Hq. simpl in Hq.
  assert (mLedgersToWaitToParticipate h1 = mLedgersToWaitToParticipate h)
    as Hn.
  { assert (fst (validateValue app slot fromNode v cb h) = h1) as <-
      by (by rewrite Hrun).
    unfold validateValue. rewrite Hd.
    destruct (negb _); [done|]. destruct (_ && _); [done|].
    destruct (_ && _); [done|]. by destruct (fetchTxSet _ _ _ _). }
  destruct (recvTxSet_wanted app' gw txSet h1 Hwant) as (_ & Hf & Hev & _).
  rewrite Hev, Hf, Hhash, Hq. simpl.
  rewrite callbacks_validate.
  rewrite (recvTransactions_frame app' (mTransactions txSet) h1). simpl.
  rewrite Hn. split; [done|]. apply lookup_delete_eq.
Qed.

End ValueMore.

(** ** Ballot validation *)

Section BallotMore.
Context `{Prim : Primitives} `{Cst : Constants}.

Lemma callbacks_cancelled (ts : list VirtualTimer) :
  callbacks (map BallotTimer_cancelled ts) = [].
Proof. induction ts as [|t ts IH]; [done|]. exact IH. Qed.

Lemma Cb_not_cancelled cb ok (ts : list VirtualTimer) :
  Cb cb ok ∉ map BallotTimer_cancelled ts.
Proof.
  intros Hin. apply list_elem_of_fmap in Hin as (t & Heq & _). discriminate.
Qed.

(** X19: a ballot that [validateBallot] answers with [cb(true)] decodes,
    closes no later than [MAX_TIME_SLIP_SECONDS] after now, has passed the
    counter-growth check, has a base fee between half and twice
    [DESIRED_BASE_FEE], and its signer is king and trusted; the Herder is
    left as it was. *)
Theorem validateBallot_sync_accept_sound app slot fromNode ballot cb h :
  Cb cb true ∈ snd (validateBallot app slot fromNode ballot cb h) ->
  exists b,
    xdr_from_opaque (bvalue ballot) = Some b
    /\ closeTime (value b)
       <= wrap64 (wrap64 (pointToTimeT (clock_now app))
                  + MAX_TIME_SLIP_SECONDS)
    /\ counter_growth_ok (wrap64 (pointToTimeT (clock_now app)))
         (wrap64 (pointToTimeT (mLastTrigger h))) (counter ballot) = true
    /\ DESIRED_BASE_FEE app <= 2 * baseFee (value b)
    /\ baseFee (value b) <= DESIRED_BASE_FEE app * 2
    /\ validateBallot_isKing h slot (counter ballot) (nodeID b) = true
    /\ validateBallot_isTrusted h slot (counter ballot) (nodeID b) = true
    /\ fst (validateBallot app slot fromNode ballot cb h) = h.
Proof.
  assert (forall e : Event, e ∈ [Cb cb false] -> e <> Cb cb true) as Hno.
  { intros e He. apply list_elem_of_singleton in He. by subst e. }
  unfold validateBallot.
  destruct (xdr_from_opaque (bvalue ballot)) as [b|];
    [|intros Hin; by apply Hno in Hin].
  destruct (Z.gtb_spec (closeTime (value b))
              (wrap64 (wrap64 (pointToTimeT (clock_now app))
                       + MAX_TIME_SLIP_SECONDS)));
    [intros Hin; by apply Hno in Hin|].
  destruct (counter_growth_ok _ _ _) eqn:Hg; simpl;
    [|intros Hin; by apply Hno in Hin].
  destruct (Z.ltb_spec (2 * baseFee (value b)) (DESIRED_BASE_FEE app));
    [intros Hin; by apply Hno in Hin|].
  destruct (Z.gtb_spec (baseFee (value b)) (DESIRED_BASE_FEE app * 2));
    [intros Hin; by apply Hno in Hin|].
  destruct (_ && _); [intros Hin; by apply Hno in Hin|].
  destruct (validateBallot_isKing _ _ _ _) eqn:Hk;
    destruct (validateBallot_isTrusted _ _ _ _) eqn:Ht; simpl;
    try (intros _; exists b; by repeat split).
  all: destruct (isVBlocking _ _); simpl; intros Hin;
    try (by inversion Hin); by apply Cb_not_cancelled in Hin.
Qed.

(** X20: with an empty validator list in the local quorum set no signer is
    trusted, not even the local node, so [validateBallot] never answers
    [cb(true)] itself. *)
Theorem validateBallot_empty_quorum_never_accepts
    app slot fromNode ballot cb h :
  validators (getLocalQuorumSet (fba h)) = [] ->
  Cb cb true ∉ snd (validateBallot app slot fromNode ballot cb h).
Proof.
  intros Hq.
  assert (forall e : Event, e ∈ [Cb cb false] -> e <> Cb cb true) as Hno.
  { intros e He. apply list_elem_of_singleton in He. by subst e. }
  unfold validateBallot, validateBallot_isKing, validateBallot_isTrusted.
  rewrite Hq. simpl.
  destruct (xdr_from_opaque (bvalue ballot)) as [b|];
    [|intros Hin; by apply Hno in Hin].
  destruct (_ >? _); [intros Hin; by apply Hno in Hin|].
  destruct (counter_growth_ok _ _ _); simpl;
    [|intros Hin; by apply Hno in Hin].
  destruct (_ <? _); [intros Hin; by apply Hno in Hin|].
  destruct (_ >? _); [intros Hin; by apply Hno in Hin|].
  destruct (_ && _); [intros Hin; by apply Hno in Hin|].
  destruct (isVBlocking _ _); simpl; intros Hin;
    [by apply Cb_not_cancelled in Hin | inversion Hin].
Qed.

(** X21: whenever [validateBallot] invokes its callback during the call, it
    invokes it exactly once, does nothing else, and leaves the Herder as it
    was: the timer map changes only when the ballot is deferred. *)
Theorem validateBallot_answer_leaves_unchanged app slot fromNode ballot cb h :
  callbacks (snd (validateBallot app slot fromNode ballot cb h)) <> [] ->
  exists ok, validateBallot app slot fromNode ballot cb h = (h, [Cb cb ok]).
Proof.
  unfold validateBallot.
  destruct (xdr_from_opaque (bvalue ballot)) as [b|]; [|by eexists].
  destruct (_ >? _); [by eexists|].
  destruct (counter_growth_ok _ _ _); simpl; [|by eexists].
  destruct (_ <? _); [by eexists|].
  destruct (_ >? _); [by eexists|].
  destruct (_ && _); [by eexists|].
  destruct (_ && _); [by eexists|].
  destruct (isVBlocking _ _); simpl; [|done].
  by rewrite callbacks_cancelled.
Qed.

(** X22: a ballot whose counter runs ahead of the clock is refused: if
    now + MAX_TIME_SLIP_SECONDS is below
    lastTrigger + Σ_{k=0..c-1} min(MAX_FBA_TIMEOUT_SECONDS, 2^k),
    [validateBallot] answers [cb(false)] and changes nothing (times are
    time_t values, the constants non-negative ints, and the counter is in the
    range where [(int)pow(2.0, i)] is defined, or the out-of-range
    conversion is not below the timeout cap). *)
Theorem validateBallot_counter_ahead_rejected app slot fromNode ballot cb h :
  let timeNow := pointToTimeT (clock_now app) in
  let lastTrigger := pointToTimeT (mLastTrigger h) in
  let c := counter ballot in
  0 <= MAX_TIME_SLIP_SECONDS <= INT_MAX ->
  0 <= MAX_FBA_TIMEOUT_SECONDS <= INT_MAX ->
  0 <= timeNow < 2 ^ 63 ->
  0 <= lastTrigger < 2 ^ 63 ->
  0 <= c < 2 ^ 32 ->
  (c <= 31 \/
   forall x, INT_MAX < x ->
             MAX_FBA_TIMEOUT_SECONDS <= double_to_int_out_of_range x) ->
  timeNow + MAX_TIME_SLIP_SECONDS < lastTrigger + sum_timeouts (Z.to_nat c) ->
  validateBallot app slot fromNode ballot cb h = (h, [Cb cb false]).
Proof.
  intros timeNow lastTrigger c HS HM Hnow Hlast Hc Hconv Hahead.
  assert (counter_growth_ok (wrap64 timeNow) (wrap64 lastTrigger) c = false)
    as Hg.
  { rewrite !wrap64_small by lia.
    destruct (counter_growth_ok timeNow lastTrigger c) eqn:Hok; [|done].
    apply counter_growth_ok_iff in Hok; try done. lia. }
  unfold validateBallot.
  destruct (xdr_from_opaque (bvalue ballot)) as [b|]; [|done].
  destruct (_ >? _); [done|].
  fold timeNow lastTrigger c. by rewrite Hg.
Qed.

(** X23: [validateBallot] answers [cb(false)] at once, changing nothing, on
    a ballot that does not decode, that closes later than
    [MAX_TIME_SLIP_SECONDS] after now, whose base fee is below half or above
    twice [DESIRED_BASE_FEE], or, on a node without secret key, that the
    node itself asks to validate. *)
Theorem validateBallot_sanity_rejections app slot fromNode ballot cb h :
  (xdr_from_opaque (bvalue ballot) = None
   \/ exists b,
        xdr_from_opaque (bvalue ballot) = Some b
        /\ (closeTime (value b)
              > wrap64 (wrap64 (pointToTimeT (clock_now app))
                        + MAX_TIME_SLIP_SECONDS)
            \/ 2 * baseFee (value b) < DESIRED_BASE_FEE app
            \/ baseFee (value b) > DESIRED_BASE_FEE app * 2
            \/ (secretKey_isZero (fba h) = true
                /\ fromNode = getLocalNodeID (fba h)))) ->
  validateBallot app slot fromNode ballot cb h = (h, [Cb cb false]).
Proof.
  unfold validateBallot.
  intros [->|(b & -> & Hbad)]; [done|].
  destruct (Z.gtb_spec (closeTime (value b))
              (wrap64 (wrap64 (pointToTimeT (clock_now app))
                       + MAX_TIME_SLIP_SECONDS))); [done|].
  destruct (counter_growth_ok _ _ _); simpl; [|done].
  destruct (Z.ltb_spec (2 * baseFee (value b)) (DESIRED_BASE_FEE app));
    [done|].
  destruct (Z.gtb_spec (baseFee (value b)) (DESIRED_BASE_FEE app * 2));
    [done|].
  destruct Hbad as [?|[?|[?|[Hz ->]]]]; try lia.
  by rewrite Hz, Z.eqb_refl.
Qed.

(** ** Value ordering *)

(** X24: for decodable, verified values whose signer hashes differ,
    [compareValues] orders by the hash alone and is antisymmetric: [-1] one
    way round, [+1] the other. *)
Theorem compareValues_orders_by_hash slot c v1 v2 b1 b2 :
  xdr_from_opaque v1 = Some b1 ->
  xdr_from_opaque v2 = Some b2 ->
  verifyStellarBallot b1 = true ->
  verifyStellarBallot b2 = true ->
  sha256_king slot c (nodeID b1) < sha256_king slot c (nodeID b2) ->
  compareValues slot c v1 v2 = Returned (-1)
  /\ compareValues slot c v2 v1 = Returned 1.
Proof.
  intros D1 D2 V1 V2 Hlt. unfold compareValues.
  rewrite D1, D2, V1, V2. simpl.
  destruct (Z.ltb_spec (sha256_king slot c (nodeID b1))
              (sha256_king slot c (nodeID b2))); [|lia].
  destruct (Z.ltb_spec (sha256_king slot c (nodeID b2))
              (sha256_king slot c (nodeID b1))); [lia|done].
Qed.

(** X25: for decodable, verified values, [compareValues] returns 0 exactly
    when the signer hashes are equal and the two ballot values (tx-set
    hash, close time, base fee) are equal. *)
Theorem compareValues_zero_iff slot c v1 v2 b1 b2 :
  xdr_from_opaque v1 = Some b1 ->
  xdr_from_opaque v2 = Some b2 ->
  verifyStellarBallot b1 = true ->
  verifyStellarBallot b2 = true ->
  compareValues slot c v1 v2 = Returned 0 <->
  sha256_king slot c (nodeID b1) = sha256_king slot c (nodeID b2)
  /\ value b1 = value b2.
Proof.
  intros D1 D2 V1 V2. unfold compareValues.
  rewrite D1, D2, V1, V2. simpl.
  destruct (Z.ltb_spec (sha256_king slot c (nodeID b1))
              (sha256_king slot c (nodeID b2)));
    [split; [discriminate | lia]|].
  destruct (Z.ltb_spec (sha256_king slot c (nodeID b2))
              (sha256_king slot c (nodeID b1)));
    [split; [discriminate | lia]|].
  pose proof (value_lt_irrefl (value b2)) as Hirr.
  destruct (value_lt_trichotomy (value b1) (value b2))
    as [[H1 H2]|[[H1 H2]|(Heq & H1 & H2)]].
  - rewrite H1. split; [discriminate|]. intros [_ Heq].
    rewrite Heq in H1. congruence.
  - rewrite H1, H2. split; [discriminate|]. intros [_ Heq].
    rewrite Heq in H1. congruence.
  - rewrite H1, H2. split; [intros _; split; [lia | done] | done].
Qed.

(** The order [compareValues] uses on ballot values (tx-set hash, then
    close time, then base fee) is a strict total order: irreflexive,
    transitive, and any two distinct values are comparable. *)
Lemma value_lt_strict_total_order :
  (forall a, value_lt a a = false)
  /\ (forall a b c, value_lt a b = true -> value_lt b c = true ->
                    value_lt a c = true)
  /\ (forall a b, value_lt a b = true \/ a = b \/ value_lt b a = true).
Proof.
  split; [apply value_lt_irrefl|]. split.
  - intros [ha ca fa] [hb cb fb] [hc cc fc]. unfold value_lt. simpl.
    repeat match goal with
           | |- context [?x <? ?y] => destruct (Z.ltb_spec x y)
           end; try done; lia.
  - intros a b.
    destruct (value_lt_trichotomy a b) as [[? _]|[[? _]|[? _]]]; auto.
Qed.

End BallotMore.

(** ** Proposing and replaying *)

Section TriggerMore.
Context `{Prim : Primitives} `{Cst : Constants} `{Sig : Signing}.

Lemma recvTransactions_known app txs h :
  (forall tx, tx ∈ txs -> tx ∈ concat (mReceivedTransactions h)) ->
  recvTransactions app txs h = h.
Proof.
  unfold recvTransactions. induction txs as [|tx txs IH]; intros Hsub; simpl.
  - done.
  - assert (recv_scan tx (mReceivedTransactions h) 0 = None) as Hscan.
    { apply recv_scan_None. exists tx. split; [|done]. apply Hsub. by left. }
    unfold recvTransaction at 2. rewrite Hscan. simpl.
    apply IH. intros tx' Hin. apply Hsub. by right.
Qed.

Lemma recvFBAEnvelope_frame envelope cb h :
  fst (recvFBAEnvelope envelope cb h)
  = set_mFutureEnvelopes
      (mFutureEnvelopes (fst (recvFBAEnvelope envelope cb h))) h.
Proof.
  unfold recvFBAEnvelope.
  destruct (_ =? 0); [|by destruct h].
  destruct (_ || _); [by destruct h|]. simpl.
  destruct (_ >? _); [done | by destruct h].
Qed.

Lemma replay_frame envs h :
  fst (replay envs h)
  = set_mFutureEnvelopes (mFutureEnvelopes (fst (replay envs h))) h.
Proof.
  unfold replay.
  assert (forall acc : Herder * list Event,
            fst acc = set_mFutureEnvelopes (mFutureEnvelopes (fst acc)) h ->
            fst (fold_left
                   (fun acc p =>
                      let r := recvFBAEnvelope (fst p) (snd p) (fst acc) in
                      (fst r, snd acc ++ snd r)) envs acc)
            = set_mFutureEnvelopes
                (mFutureEnvelopes
                   (fst (fold_left
                           (fun acc p =>
                              let r :=
                                recvFBAEnvelope (fst p) (snd p) (fst acc) in
                              (fst r, snd acc ++ snd r)) envs acc))) h) as Hgen.
  { induction envs as [|p envs IH]; intros acc Hacc; simpl; [done|].
    apply IH. simpl. rewrite recvFBAEnvelope_frame. rewrite Hacc at 2.
    done. }
  apply Hgen. by destruct h.
Qed.

Lemma recvTxSet_frame app gw txSet h :
  fst (recvTxSet app gw txSet h)
  = set_mTxSetFetches (mTxSetFetches (fst (recvTxSet app gw txSet h)))
      (set_mReceivedTransactions
         (mReceivedTransactions (fst (recvTxSet app gw txSet h))) h).
Proof.
  destruct (txSet_recvItem gw (mCurrentTxSetFetcher h) txSet) eqn:Hw.
  - by destruct (recvTxSet_wanted app gw txSet h Hw) as (_ & _ & _ & ?).
  - unfold recvTxSet. rewrite Hw. by destruct h.
Qed.

Lemma recvTxSet_proposed_pool app gw h :
  mReceivedTransactions (fst (recvTxSet app gw (proposedSet h) h))
  = mReceivedTransactions h.
Proof.
  destruct (txSet_recvItem gw (mCurrentTxSetFetcher h) (proposedSet h)) eqn:Hw.
  - destruct (recvTxSet_wanted app gw _ h Hw) as (-> & _).
    by rewrite recvTransactions_known.
  - unfold recvTxSet. by rewrite Hw.
Qed.

Lemma frame_future (h2 h1 : Herder) :
  h2 = set_mFutureEnvelopes (mFutureEnvelopes h2) h1 ->
  mReceivedTransactions h2 = mReceivedTransactions h1
  /\ mLastTrigger h2 = mLastTrigger h1
  /\ mLastClosedLedger h2 = mLastClosedLedger h1
  /\ mLedgersToWaitToParticipate h2 = mLedgersToWaitToParticipate h1
  /\ mCurrentTxSetFetcher h2 = mCurrentTxSetFetcher h1
  /\ mNodeLastAccess h2 = mNodeLastAccess h1
  /\ fba h2 = fba h1
  /\ mTxSetFetches h2 = mTxSetFetches h1
  /\ mBallotValidationTimers h2 = mBallotValidationTimers h1.
Proof. intros H. rewrite H. by repeat split. Qed.

Lemma frame_txset (h1 h0 : Herder) :
  h1 = set_mTxSetFetches (mTxSetFetches h1)
         (set_mReceivedTransactions (mReceivedTransactions h1) h0) ->
  mLastTrigger h1 = mLastTrigger h0
  /\ mLastClosedLedger h1 = mLastClosedLedger h0
  /\ mLedgersToWaitToParticipate h1 = mLedgersToWaitToParticipate h0
  /\ mCurrentTxSetFetcher h1 = mCurrentTxSetFetcher h0
  /\ mNodeLastAccess h1 = mNodeLastAccess h0
  /\ fba h1 = fba h0
  /\ mFutureEnvelopes h1 = mFutureEnvelopes h0
  /\ mBallotValidationTimers h1 = mBallotValidationTimers h0.
Proof. intros H. rewrite H. by repeat split. Qed.

(** The Herder [triggerNextLedger] leaves behind, field by field. *)
Lemma triggerNextLedger_fields app gw o :
  let r := triggerNextLedger app gw no_error o in
  let h := herder o in
  let h' := herder (fst r) in
  let h0 := set_mLastTrigger (clock_now app) h in
  let slot := wrap64 (ledgerSeq (mLastClosedLedger h) + 1) in
  mReceivedTransactions h' = mReceivedTransactions h
  /\ mLastTrigger h' = clock_now app
  /\ mLastClosedLedger h' = mLastClosedLedger h
  /\ mLedgersToWaitToParticipate h' = mLedgersToWaitToParticipate h
  /\ mCurrentTxSetFetcher h' = mCurrentTxSetFetcher h
  /\ mNodeLastAccess h' = mNodeLastAccess h
  /\ fba h' = fba h
  /\ mCurrentValue (fst r) = xdr_to_opaque (proposedBallot app h0)
  /\ mFutureEnvelopes h'
     = delete slot
         (mFutureEnvelopes
            (fst (replay (default [] (mFutureEnvelopes h !! slot))
                    (fst (recvTxSet app gw (proposedSet h0) h0)))))
  /\ snd r
     = map Ev (snd (recvTxSet app gw (proposedSet h0) h0))
       ++ [FBA_prepareValue slot (xdr_to_opaque (proposedBallot app h0)) false]
       ++ map Ev (snd (replay (default [] (mFutureEnvelopes h !! slot))
                         (fst (recvTxSet app gw (proposedSet h0) h0)))).
Proof.
  intros r h h' h0 slot. subst r h'. unfold triggerNextLedger.
  fold h h0.
  pose proof (recvTxSet_frame app gw (proposedSet h0) h0) as Hfr.
  pose proof (recvTxSet_proposed_pool app gw h0) as Hpool.
  destruct (recvTxSet app gw (proposedSet h0) h0) as [h1 evs1] eqn:Hr.
  simpl in Hfr, Hpool.
  destruct (frame_txset _ _ Hfr)
    as (Ht1 & Hl1 & Hn1 & Hc1 & Ha1 & Hb1 & Hf1 & _).
  simpl in Ht1, Hl1, Hn1, Hc1, Ha1, Hb1, Hf1.
  rewrite Hl1, Hf1. fold slot. cbn [fst snd].
  pose proof (replay_frame (default [] (mFutureEnvelopes h !! slot)) h1)
    as Hrp.
  destruct (replay (default [] (mFutureEnvelopes h !! slot)) h1)
    as [h2 evs2] eqn:Hr2.
  simpl in Hrp.
  destruct (frame_future _ _ Hrp)
    as (Hp2 & Ht2 & Hl2 & Hn2 & Hc2 & Ha2 & Hb2 & _).
  simpl. rewrite Hp2, Ht2, Hl2, Hn2, Hc2, Ha2, Hb2.
  rewrite Hpool, Ht1, Hl1, Hn1, Hc1, Ha1, Hb1.
  by repeat split.
Qed.

(** X26: [triggerNextLedger] never changes the transaction pool: the set it
    proposes holds every pooled transaction, in bucket order, and handing
    that set to [recvTxSet] finds each of them already pooled. *)
Theorem triggerNextLedger_pool_unchanged app gw error o :
  mReceivedTransactions (herder (fst (triggerNextLedger app gw error o)))
    = mReceivedTransactions (herder o)
  /\ (error = no_error ->
      exists v,
        mCurrentValue (fst (triggerNextLedger app gw error o))
          = xdr_to_opaque v
        /\ nodeID v = getPublicKey
        /\ signature v = secretKey_sign (value v)
        /\ txSetHash (value v)
           = contentsHash (concat (mReceivedTransactions (herder o)))
               (hash (mLastClosedLedger (herder o)))
        /\ baseFee (value v) = DESIRED_BASE_FEE app).
Proof.
  destruct error; [|done|done].
  destruct (triggerNextLedger_fields app gw o)
    as (Hpool & _ & _ & _ & _ & _ & _ & Hval & _).
  split; [done|]. intros _. eexists. split; [exact Hval|]. done.
Qed.

Lemma replay_forwards envs h :
  (forall p, p ∈ envs ->
     slotIndex (fst p) = wrap64 (ledgerSeq (mLastClosedLedger h) + 1)) ->
  (mLedgersToWaitToParticipate h <> 0
   \/ minLedgerSeq h <= wrap64 (ledgerSeq (mLastClosedLedger h) + 1)
      <= maxLedgerSeq h) ->
  replay envs h
  = (h, map (fun p => FBA_receiveEnvelope (fst p) (snd p)) envs).
Proof.
  intros Hkey Hok. unfold replay.
  assert (forall evs,
            fold_left
              (fun acc p =>
                 let r := recvFBAEnvelope (fst p) (snd p) (fst acc) in
                 (fst r, snd acc ++ snd r)) envs (h, evs)
            = (h, evs ++ map (fun p => FBA_receiveEnvelope (fst p) (snd p))
                             envs)) as Hgen.
  { induction envs as [|p envs IH]; intros evs; simpl.
    - by rewrite app_nil_r.
    - assert (recvFBAEnvelope (fst p) (snd p) h
              = (h, [FBA_receiveEnvelope (fst p) (snd p)])) as ->.
      { unfold recvFBAEnvelope.
        rewrite (Hkey p) by (by left).
        destruct (Z.eqb_spec (mLedgersToWaitToParticipate h) 0) as [Hs|Hs];
          [|done].
        destruct Hok as [?|[Hmin Hmax]]; [done|].
        destruct (Z.gtb_spec
                    (wrap64 (ledgerSeq (mLastClosedLedger h) + 1))
                    (maxLedgerSeq h)); [lia|].
        destruct (Z.ltb_spec
                    (wrap64 (ledgerSeq (mLastClosedLedger h) + 1))
                    (minLedgerSeq h)); [lia|]. simpl.
        destruct (Z.gtb_spec
                    (wrap64 (ledgerSeq (mLastClosedLedger h) + 1))
                    (wrap64 (ledgerSeq (mLastClosedLedger h) + 1)));
          [lia|done]. }
      simpl. rewrite IH.
      + by rewrite <- (assoc_L (++)).
      + intros q Hq. apply Hkey. by right. }
  apply (Hgen []).
Qed.

(** X27: [triggerNextLedger] replays the future envelopes stashed for the
    slot it proposes for: after the pending tx-set validations and
    [prepareValue], each stashed envelope is handed to the FBA engine, in
    the order it was stashed, and the slot's entry is erased while every
    other entry stays (the envelopes sit under their own slot index, and the
    node either still waits to participate or has the slot within its
    validity bracket). *)
Theorem triggerNextLedger_replays_stash app gw o :
  let h := herder o in
  let slot := wrap64 (ledgerSeq (mLastClosedLedger h) + 1) in
  let envs := default [] (mFutureEnvelopes h !! slot) in
  let r := triggerNextLedger app gw no_error o in
  (forall p, p ∈ envs -> slotIndex (fst p) = slot) ->
  (mLedgersToWaitToParticipate h <> 0
   \/ minLedgerSeq h <= slot <= maxLedgerSeq h) ->
  (exists evs1,
     forwarded evs1 = []
     /\ snd r
        = map Ev evs1
          ++ [FBA_prepareValue slot (mCurrentValue (fst r)) false]
          ++ map (fun p => Ev (FBA_receiveEnvelope (fst p) (snd p))) envs)
  /\ forwarded_actions (snd r) = envs
  /\ mFutureEnvelopes (herder (fst r)) = delete slot (mFutureEnvelopes h).
Proof.
  intros h slot envs r Hkey Hok. subst r.
  destruct (triggerNextLedger_fields app gw o)
    as (_ & _ & _ & _ & _ & _ & _ & Hval & Hfut & Hacts).
  fold h slot in Hval, Hfut, Hacts. fold envs in Hfut, Hacts.
  set (r := triggerNextLedger app gw no_error o) in *. clearbody r.
  set (h0 := set_mLastTrigger (clock_now app) h) in *.
  pose proof (recvTxSet_frame app gw (proposedSet h0) h0) as Hfr.
  destruct (recvTxSet app gw (proposedSet h0) h0) as [h1 evs1] eqn:Hr.
  simpl in Hfr, Hfut, Hacts.
  destruct (frame_txset _ _ Hfr) as (_ & Hl1 & Hn1 & _ & _ & _ & Hf1 & _).
  simpl in Hl1, Hn1, Hf1.
  assert (minLedgerSeq h1 = minLedgerSeq h) as Hmin
    by (unfold minLedgerSeq; by rewrite Hl1).
  assert (maxLedgerSeq h1 = maxLedgerSeq h) as Hmax
    by (unfold maxLedgerSeq; by rewrite Hl1).
  assert (replay envs h1
          = (h1, map (fun p => FBA_receiveEnvelope (fst p) (snd p)) envs))
    as Hrep.
  { apply replay_forwards.
    - intros p Hp. rewrite Hl1. by apply Hkey.
    - rewrite Hn1, Hl1, Hmin, Hmax. exact Hok. }
  rewrite Hrep in Hfut, Hacts. simpl in Hfut, Hacts.
  assert (forwarded evs1 = []) as Hnone.
  { assert (snd (recvTxSet app gw (proposedSet h0) h0) = evs1) as <-
      by (by rewrite Hr).
    clear. unfold recvTxSet. destruct (txSet_recvItem _ _ _); [|done].
    destruct (mTxSetFetches _ !! _) as [ws|]; [|done]. simpl.
    unfold validateValue_validate.
    induction ws as [|c ws IH]; [done|]. simpl.
    unfold forwarded in *. rewrite flat_map_app, IH.
    by destruct (_ && _). }
  split; [|split].
  - exists evs1. split; [done|]. rewrite Hacts, Hval.
    by rewrite <- list_fmap_compose.
  - rewrite Hacts. unfold forwarded_actions. rewrite !flat_map_app. simpl.
    assert (forall l : list Event,
              forwarded_actions (map Ev l) = forwarded l) as Hmap.
    { induction l as [|e l IH]; [done|]. simpl.
      unfold forwarded_actions, forwarded in *. simpl. rewrite IH.
      by destruct e. }
    unfold forwarded_actions in Hmap. rewrite !Hmap, Hnone. simpl.
    clear. induction envs as [|[e c] envs IH]; [done|].
    simpl. unfold forwarded in *. simpl. by rewrite IH.
  - by rewrite Hfut, Hf1.
Qed.

End TriggerMore.

Section ProposalMore.
Context `{Prim : Primitives} `{Cst : Constants} `{Sig : Signing}.

(** X28: the value [triggerNextLedger] proposes closes at the current time,
    or one second after the last closed ledger if the clock is not past it,
    hence strictly later than the last closed ledger; and [validateValue]
    answers [cb(true)] for it at the slot it is proposed for, provided the
    codec reads back what it wrote, the node's signature verifies, and the
    proposed set is resolved and valid. *)
Theorem triggerNextLedger_proposal_validates
    app app' gw fromNode cb o txSet :
  let h := herder o in
  let r := triggerNextLedger app gw no_error o in
  let b := proposedBallot app (set_mLastTrigger (clock_now app) h) in
  0 <= lh_closeTime (mLastClosedLedger h) < 2 ^ 64 - 1 ->
  xdr_from_opaque (xdr_to_opaque b) = Some b ->
  verifySig getPublicKey (secretKey_sign (value b)) (value b) = true ->
  fetchItem app' (mCurrentTxSetFetcher h) (txSetHash (value b)) true
    = Some txSet ->
  txSet_checkValid app' txSet = true ->
  closeTime (value b)
    = Z.max (wrap64 (pointToTimeT (clock_now app)))
            (lh_closeTime (mLastClosedLedger h) + 1)
  /\ validateValue app' (wrap64 (ledgerSeq (mLastClosedLedger h) + 1))
       fromNode (mCurrentValue (fst r)) cb (herder (fst r))
     = (herder (fst r), [Cb cb true]).
Proof.
  intros h r b Hct Hcodec Hsig Hfetch Hvalid. subst r.
  assert (closeTime (value b)
          = Z.max (wrap64 (pointToTimeT (clock_now app)))
                  (lh_closeTime (mLastClosedLedger h) + 1)) as Hclose.
  { subst b. unfold proposedBallot, signStellarBallot, nextCloseTime. simpl.
    destruct (Z.leb_spec (wrap64 (pointToTimeT (clock_now app)))
                (lh_closeTime (mLastClosedLedger h))).
    - rewrite wrap64_small by lia. lia.
    - lia. }
  split; [done|].
  destruct (triggerNextLedger_fields app gw o)
    as (_ & _ & Hlcl & Hn & Hcur & _ & _ & Hval & _).
  fold h in Hlcl, Hn, Hcur, Hval. fold b in Hval.
  set (r := triggerNextLedger app gw no_error o) in *. clearbody r.
  assert (verifyStellarBallot b = true) as Hver.
  { unfold verifyStellarBallot. subst b. exact Hsig. }
  assert ((closeTime (value b) <=? lh_closeTime (mLastClosedLedger h))
          = false) as Hlater by (apply Z.leb_gt; lia).
  clearbody b.
  unfold validateValue, validateValue_validate, fetchTxSet.
  rewrite Hval, Hcodec, Hlcl, Hn, Hcur, Hfetch, Hvalid, Hver, Hlater.
  simpl. rewrite Z.eqb_refl. simpl. by rewrite !andb_false_r.
Qed.

(** ** The quorum-set mailbox *)

(** X29: a [retrieveQuorumSet] that misses the cache queues its callback
    behind the waiters of that hash; when [recvFBAQuorumSet] then delivers a
    set with the hash to a fetcher that wanted it, every queued callback is
    invoked with the set, in the order queued, and the entry is erased, so
    that a second delivery invokes nothing. *)
Theorem quorumSet_mailbox_round_trip gw gw' fromNode qSetHash cb qSet o :
  qSet_fetchItem gw qSetHash true = None ->
  qSet_recvItem gw' qSet = true ->
  qSet_hash qSet = qSetHash ->
  let o1 := fst (retrieveQuorumSet gw fromNode qSetHash cb o) in
  let r := recvFBAQuorumSet gw' qSet o1 in
  snd (retrieveQuorumSet gw fromNode qSetHash cb o) = []
  /\ snd r = map (fun c => QSetCb c qSet)
                 (default [] (mFBAQSetFetches o !! qSetHash) ++ [cb])
  /\ mFBAQSetFetches (fst r) !! qSetHash = None
  /\ (forall k, k <> qSetHash ->
        mFBAQSetFetches (fst r) !! k = mFBAQSetFetches o !! k)
  /\ herder (fst r) = herder o
  /\ snd (recvFBAQuorumSet gw' qSet (fst r)) = [].
Proof.
  intros Hmiss Hwant Hhash o1 r. subst o1 r qSetHash.
  unfold retrieveQuorumSet. rewrite Hmiss. cbn [fst snd].
  unfold recvFBAQuorumSet. rewrite Hwant. cbn [mFBAQSetFetches].
  rewrite lookup_insert_eq. cbn [fst snd mFBAQSetFetches herder].
  rewrite lookup_delete_eq.
  split; [done|]. split; [done|]. split; [done|]. split; [|done].
  intros k Hk. rewrite lookup_delete_ne by done.
  by rewrite lookup_insert_ne.
Qed.

End ProposalMore.

(** ** Invariants of every reachable Herder *)

Section InvariantMore.
Context `{Prim : Primitives} `{Cst : Constants} `{Sig : Signing}.

Lemma herder_inv_same h h' :
  mReceivedTransactions h' = mReceivedTransactions h ->
  mFutureEnvelopes h' = mFutureEnvelopes h ->
  mNodeLastAccess h' = mNodeLastAccess h ->
  herder_inv h -> herder_inv h'.
Proof.
  unfold herder_inv, stash_keyed. intros -> -> ->. done.
Qed.

Lemma herder_inv_pool h h' :
  h' = set_mReceivedTransactions (mReceivedTransactions h') h ->
  length (mReceivedTransactions h') = length (mReceivedTransactions h) ->
  (pool_unique (mReceivedTransactions h) ->
   pool_unique (mReceivedTransactions h')) ->
  herder_inv h -> herder_inv h'.
Proof.
  intros Hfr Hlen Hu (Hl & Hun & Hst & Hso).
  assert (mFutureEnvelopes h' = mFutureEnvelopes h) as Hf
    by (by rewrite Hfr).
  assert (mNodeLastAccess h' = mNodeLastAccess h) as Ha
    by (by rewrite Hfr).
  unfold herder_inv, stash_keyed. rewrite Hf, Ha, Hlen.
  split; [done|]. split; [by apply Hu|]. done.
Qed.

Lemma recvTxSet_inv app gw txSet h :
  herder_inv h -> herder_inv (fst (recvTxSet app gw txSet h)).
Proof.
  intros Hinv.
  pose proof (recvTxSet_frame app gw txSet h) as Hfr.
  assert (mReceivedTransactions (fst (recvTxSet app gw txSet h))
          = mReceivedTransactions
              (if txSet_recvItem gw (mCurrentTxSetFetcher h) txSet
               then recvTransactions app (mTransactions txSet) h else h))
    as Hpool.
  { destruct (txSet_recvItem gw (mCurrentTxSetFetcher h) txSet) eqn:Hw.
    - by destruct (recvTxSet_wanted app gw txSet h Hw) as (-> & _).
    - unfold recvTxSet. by rewrite Hw. }
  destruct Hinv as (Hl & Hun & Hst & Hso).
  set (h' := fst (recvTxSet app gw txSet h)) in *.
  assert (mFutureEnvelopes h' = mFutureEnvelopes h) as Hf
    by (by rewrite Hfr).
  assert (mNodeLastAccess h' = mNodeLastAccess h) as Ha
    by (by rewrite Hfr).
  unfold herder_inv, stash_keyed. rewrite Hf, Ha, Hpool.
  destruct (txSet_recvItem _ _ _); [|done].
  rewrite recvTransactions_length.
  split; [done|]. split; [by apply recvTransactions_unique|]. done.
Qed.

Lemma validateValue_inv app slot fromNode v cb h :
  herder_inv h -> herder_inv (fst (validateValue app slot fromNode v cb h)).
Proof.
  apply herder_inv_same; unfold validateValue;
    (destruct (xdr_from_opaque v); [|done]);
    (destruct (negb _); [done|]);
    (destruct (_ && _); [done|]);
    (destruct (_ && _); [done|]);
    by destruct (fetchTxSet _ _ _ _).
Qed.

Lemma validateBallot_inv app slot fromNode ballot cb h :
  herder_inv h ->
  herder_inv (fst (validateBallot app slot fromNode ballot cb h)).
Proof.
  apply herder_inv_same; unfold validateBallot;
    (destruct (xdr_from_opaque _); [|done]);
    (destruct (_ >? _); [done|]);
    (destruct (negb _); [done|]);
    (destruct (_ <? _); [done|]);
    (destruct (_ >? _); [done|]);
    (destruct (_ && _); [done|]);
    (destruct (_ && _); [done|]);
    by destruct (isVBlocking _ _).
Qed.

Lemma valueExternalized_inv app slot v h h' evs :
  valueExternalized app slot v h = Returned (h', evs) ->
  herder_inv h -> herder_inv h'.
Proof.
  intros Hrun Hinv.
  destruct (fetchTxSet app h (txSetHash (value (externalized_ballot v))) false)
    as [externalizedSet|] eqn:Hfetch.
  - destruct (valueExternalized_resolved _ _ _ _ _ _ _ Hfetch Hrun)
      as (Hlen & Hrot & _).
    destruct (rotate_buckets _ Hlen) as (Hl' & _ & _ & _ & Hperm).
    destruct Hinv as (Hl & Hun & Hst & Hso).
    destruct (removeReceivedTxs_unique (mTransactions externalizedSet) _ Hun)
      as (Hun' & _).
    unfold valueExternalized in Hrun. rewrite Hfetch in Hrun.
    destruct (_ <? _)%nat; [discriminate|].
    injection Hrun as <- _.
    unfold herder_inv, stash_keyed, pool_unique. simpl.
    rewrite Hl', removeReceivedTxs_length, Hperm. done.
  - unfold valueExternalized in Hrun. rewrite Hfetch in Hrun.
    by injection Hrun as <- _.
Qed.

Lemma recvFBAEnvelope_inv envelope cb h :
  herder_inv h -> herder_inv (fst (recvFBAEnvelope envelope cb h)).
Proof.
  intros (Hl & Hun & Hst & Hso). unfold recvFBAEnvelope.
  destruct (_ =? 0); [|done].
  destruct (_ || _); [done|]. simpl.
  destruct (_ >? _); [|done].
  unfold herder_inv, stash_keyed. simpl.
  split; [done|]. split; [done|]. split; [|done].
  intros k envs p Hk Hp.
  destruct (decide (k = slotIndex envelope)) as [->|Hne].
  - rewrite lookup_insert_eq in Hk. injection Hk as <-.
    apply elem_of_app in Hp as [Hp|Hp].
    + destruct (mFutureEnvelopes h !! slotIndex envelope) as [q|] eqn:Hq;
        simpl in Hp; [by apply (Hst _ _ _ Hq)|inversion Hp].
    + apply list_elem_of_singleton in Hp. by subst p.
  - rewrite lookup_insert_ne in Hk by done. by apply (Hst _ _ _ Hk).
Qed.

Lemma replay_inv envs h :
  herder_inv h -> herder_inv (fst (replay envs h)).
Proof.
  unfold replay.
  assert (forall acc : Herder * list Event,
            herder_inv (fst acc) ->
            herder_inv
              (fst (fold_left
                      (fun acc p =>
                         let r := recvFBAEnvelope (fst p) (snd p) (fst acc) in
                         (fst r, snd acc ++ snd r)) envs acc))) as Hgen.
  { induction envs as [|p envs IH]; intros acc Hacc; simpl; [done|].
    apply IH. simpl. by apply recvFBAEnvelope_inv. }
  intros Hinv. by apply Hgen.
Qed.

Lemma ledgerClosed_inv app ledger h :
  herder_inv h -> herder_inv (fst (ledgerClosed app ledger h)).
Proof.
  apply herder_inv_same; unfold ledgerClosed;
    (destruct (secretKey_isZero _); [done|]); by destruct (_ >? 0).
Qed.

Lemma nodeTouched_inv app node h :
  herder_inv h -> herder_inv (nodeTouched app node h).
Proof.
  intros (Hl & Hun & Hst & Hso). unfold herder_inv, stash_keyed. simpl.
  split; [done|]. split; [done|]. split; [done|].
  by apply smap_insert_sorted.
Qed.

Lemma triggerNextLedger_inv app gw error o :
  herder_inv (herder o) ->
  herder_inv (herder (fst (triggerNextLedger app gw error o))).
Proof.
  intros Hinv. destruct error; [|done|done].
  destruct (triggerNextLedger_fields app gw o)
    as (Hpool & _ & _ & _ & _ & Hacc & _ & _ & Hfut & _).
  set (h0 := set_mLastTrigger (clock_now app) (herder o)) in *.
  assert (herder_inv h0) as Hinv0 by (by apply (herder_inv_same (herder o))).
  pose proof (replay_inv
                (default []
                   (mFutureEnvelopes (herder o)
                    !! wrap64 (ledgerSeq (mLastClosedLedger (herder o)) + 1)))
                _ (recvTxSet_inv app gw (proposedSet h0) h0 Hinv0))
    as (_ & _ & Hst & _).
  destruct Hinv as (Hl & Hun & _ & Hso).
  set (r := triggerNextLedger app gw no_error o) in *. clearbody r.
  unfold herder_inv, stash_keyed. rewrite Hpool, Hacc, Hfut.
  split; [done|]. split; [done|]. split; [|done].
  intros k envs p Hk Hp.
  destruct (decide
              (k = wrap64 (ledgerSeq (mLastClosedLedger (herder o)) + 1)))
    as [->|Hne].
  - by rewrite lookup_delete_eq in Hk.
  - rewrite lookup_delete_ne in Hk by done. by apply (Hst _ _ _ Hk).
Qed.

Lemma bootstrap_inv app gw o o' acts :
  bootstrap app gw o = Returned (o', acts) ->
  herder_inv (herder o) -> herder_inv (herder o').
Proof.
  unfold bootstrap. intros H Hinv.
  destruct (secretKey_isZero _); [discriminate|].
  destruct (negb _); [discriminate|].
  set (o0 := set_herder
                (set_mLedgersToWaitToParticipate 0
                   (set_mLastClosedLedger (getLastClosedLedgerHeader gw)
                      (herder o))) o) in *.
  assert (triggerNextLedger app gw no_error o0 = (o', acts)) as Hx
    by congruence.
  pose proof (triggerNextLedger_inv app gw no_error o0) as Ht.
  rewrite Hx in Ht. apply Ht.
  by apply (herder_inv_same (herder o)).
Qed.

Lemma step_inv o o' :
  step o o' -> herder_inv (herder o) -> herder_inv (herder o').
Proof.
  intros Hstep Hinv. destruct Hstep; cbn [herder set_herder].
  - apply (herder_inv_pool (herder o)); try done.
    + apply recvTransaction_frame.
    + apply recvTransaction_length.
    + apply recvTransaction_unique.
  - by apply recvTxSet_inv.
  - by apply validateValue_inv.
  - by apply validateBallot_inv.
  - by eapply valueExternalized_inv.
  - by apply recvFBAEnvelope_inv.
  - by apply ledgerClosed_inv.
  - by apply nodeTouched_inv.
  - by apply triggerNextLedger_inv.
  - by eapply bootstrap_inv.
  - unfold retrieveQuorumSet. by destruct (qSet_fetchItem _ _ _).
  - unfold recvFBAQuorumSet. destruct (qSet_recvItem _ _); [|done].
    by destruct (_ !! _).
Qed.

(** X30: every Herder reached from a freshly constructed one by calls of
    its member functions has four buckets, no two pooled transactions with
    the same full hash, every stashed future envelope under its own slot
    index, and its access map ordered by node id; so the assertion of
    [valueExternalized] never fails on it. *)
Theorem reachable_invariant o :
  reachable o ->
  herder_inv (herder o)
  /\ forall app slot v,
       valueExternalized app slot v (herder o) <> AssertFailed.
Proof.
  intros Hreach.
  assert (herder_inv (herder o)) as Hinv.
  { induction Hreach as [app gw base|o o' Hreach IH Hstep].
    - unfold Herder_new, recvFBAQuorumSet.
      destruct (qSet_recvItem _ _); simpl;
        repeat split; try done; try constructor.
    - by apply (step_inv o o'). }
  split; [done|]. intros app slot v.
  destruct Hinv as (Hl & _).
  unfold valueExternalized.
  destruct (fetchTxSet _ _ _ _); [|done].
  rewrite removeReceivedTxs_length, Hl. done.
Qed.

End InvariantMore.

(** ** The bump timer *)

Section BumpMore.
Context `{Prim : Primitives} `{Cst : Constants}.

(** X14: [ledgerClosed] never cancels the bump timer, whereas
    [valueExternalized] cancels it before anything else.  A bump timer armed
    by [ballotDidHearFromQuorum] for the slot after the last closed ledger
    and still pending when a ledger with another sequence number is closed
    makes [expireBallot] fail its assertion when it fires (with any error
    code but operation aborted); fired before, it re-proposes the current
    value with [bumpCounter]. *)
Theorem bump_timer_outlives_ledgerClosed
    app ledger slot ballot error o :
  let h := herder o in
  let o' := set_herder (fst (ledgerClosed app ledger h)) o in
  mLedgersToWaitToParticipate h <= 0 ->
  slot = wrap64 (ledgerSeq (mLastClosedLedger h) + 1) ->
  0 <= counter ballot <= 30 ->
  wrap64 (ledgerSeq ledger + 1) <> slot ->
  error <> operation_aborted ->
  ballotDidHearFromQuorum slot ballot h
    = Returned [Ev BumpTimer_cancel;
                BumpTimer_arm (2 ^ counter ballot) slot ballot]
  /\ expireBallot error slot ballot o
     = Returned [FBA_prepareValue slot (mCurrentValue o) true]
  /\ (BumpTimer_cancel ∉ snd (ledgerClosed app ledger h))
  /\ expireBallot error slot ballot o' = AssertFailed
  /\ expireBallot operation_aborted slot ballot o' = Returned []
  /\ (forall slot' v h' evs,
        valueExternalized app slot' v h = Returned (h', evs) ->
        exists rest, evs = BumpTimer_cancel :: rest).
Proof.
  intros h o' Hn -> Hc Hother Herr. subst o'.
  assert (pow2_int (counter ballot) = 2 ^ counter ballot) as Hpow.
  { unfold pow2_int, double_to_int, INT_MIN, INT_MAX.
    assert (0 < 2 ^ counter ballot) by (apply Z.pow_pos_nonneg; lia).
    assert (2 ^ counter ballot <= 2 ^ 30) by (apply Z.pow_le_mono_r; lia).
    destruct (Z.leb_spec (- 2 ^ 31) (2 ^ counter ballot)); [|lia].
    destruct (Z.leb_spec (2 ^ counter ballot) (2 ^ 31 - 1)); [done|lia]. }
  split; [|split; [|split; [|split; [|split]]]].
  - unfold ballotDidHearFromQuorum. fold h.
    destruct (Z.gtb_spec (mLedgersToWaitToParticipate h) 0); [lia|].
    by rewrite Z.eqb_refl, Hpow.
  - unfold expireBallot. fold h. rewrite Z.eqb_refl. by destruct error.
  - unfold ledgerClosed. intros Hin.
    assert (BumpTimer_cancel
            ∉ map BallotTimer_cancelled
                (all_ballot_timers (mBallotValidationTimers h))) as Hno.
    { intros Hx. apply list_elem_of_fmap in Hx as (t & Hx & _).
      discriminate. }
    destruct (secretKey_isZero (fba h)); [done|].
    destruct (_ >? 0); [done|]. simpl in Hin.
    apply elem_of_app in Hin as [Hin|Hin]; [done|].
    repeat (apply elem_of_cons in Hin as [Hin|Hin]; [discriminate|]).
    inversion Hin.
  - unfold expireBallot. cbn [herder set_herder].
    assert (mLastClosedLedger (fst (ledgerClosed app ledger h)) = ledger)
      as -> by (by destruct (ledgerClosed_frame app ledger h) as (? & _)).
    destruct (Z.eqb_spec (wrap64 (ledgerSeq (mLastClosedLedger h) + 1))
                (wrap64 (ledgerSeq ledger + 1))); [congruence|].
    by destruct error.
  - done.
  - intros slot' v h' evs. unfold valueExternalized.
    destruct (fetchTxSet _ _ _ _).
    + destruct (_ <? _)%nat; [discriminate|]. intros [= _ <-]. by eexists.
    + intros [= _ <-]. by eexists.
Qed.

End BumpMore.

(** * The further properties on concrete inputs *)

Section MoreExamples.
#[local] Existing Instance example_primitives.
#[local] Existing Instance example_constants.
#[local] Existing Instance example_signing.

Ltac compute_goal :=
  repeat split; vm_compute;
  first [reflexivity | intro; discriminate | by left | lia].

Ltac by_decide := apply (bool_decide_unpack _); vm_compute; exact I.

(** X2, witness: transaction 1 offered twice to the empty example pool. *)
Lemma recvTransaction_duplicate_rejected_witness :
  recvTransaction example_app (example_tx 1)
    (snd (recvTransaction example_app (example_tx 1) example_herder))
  = (false, snd (recvTransaction example_app (example_tx 1) example_herder)).
Proof.
  apply (recvTransaction_duplicate_rejected example_app example_app
           (example_tx 1) example_herder); [discriminate | reflexivity].
Defined.

(** X4, witness: removing transaction 2 from the four-bucket pool. *)
Lemma removeReceivedTx_unique_absent_witness :
  let h := set_mReceivedTransactions pool_full example_herder in
  let pool' := mReceivedTransactions (removeReceivedTx (example_tx 2) h) in
  pool_unique pool'
  /\ (forall t, t ∈ concat pool' ->
                getFullHash t <> getFullHash (example_tx 2))
  /\ (forall t, t ∈ concat pool' -> t ∈ concat (mReceivedTransactions h)).
Proof.
  apply (removeReceivedTx_unique_absent (example_tx 2)
           (set_mReceivedTransactions pool_full example_herder)).
  unfold pool_unique. by_decide.
Defined.

(** X6, witness. *)
Lemma valueExternalized_returns_witness :
  let h := set_mReceivedTransactions pool_full example_herder in
  exists h' evs,
    valueExternalized example_app 6 (example_value 3 value_a) h
      = Returned (h', evs)
    /\ length (mReceivedTransactions h') = length (mReceivedTransactions h)
    /\ mCurrentTxSetFetcher h'
       = (if mCurrentTxSetFetcher h =? 0 then 1 else 0)
    /\ Fetcher_stopFetchingAll (mCurrentTxSetFetcher h) ∈ evs
    /\ Fetcher_clear (mCurrentTxSetFetcher h') ∈ evs.
Proof.
  apply (valueExternalized_returns example_app 6 (example_value 3 value_a)
           (set_mReceivedTransactions pool_full example_herder)
           example_txset).
  - vm_compute. lia.
  - vm_compute. reflexivity.
Defined.

(** X7, witness: the pool holds transactions 1, 2 and 3 and the externalized
    set holds 1 and 2. *)
Lemma valueExternalized_removes_externalized_witness :
  let h := set_mReceivedTransactions
             [[example_tx 1; example_tx 2; example_tx 3]; []; []; []]
             example_herder in
  exists h' evs,
    valueExternalized app_with_set_1_2 6 (example_value 3 value_a) h
      = Returned (h', evs)
    /\ pool_unique (mReceivedTransactions h')
    /\ (forall tx t, tx ∈ mTransactions txset_1_2 ->
                     t ∈ concat (mReceivedTransactions h') ->
                     getFullHash t <> getFullHash tx)
    /\ (forall t, t ∈ concat (mReceivedTransactions h') ->
                  t ∈ concat (mReceivedTransactions h)).
Proof.
  eexists _, _. split; [vm_compute; reflexivity|].
  eapply (valueExternalized_removes_externalized app_with_set_1_2 6
            (example_value 3 value_a)
            (set_mReceivedTransactions
               [[example_tx 1; example_tx 2; example_tx 3]; []; []; []]
               example_herder)
            txset_1_2).
  - unfold pool_unique. by_decide.
  - vm_compute. reflexivity.
  - vm_compute. reflexivity.
Defined.

(** X8, witness: node 9 was last seen at clock time 0, node 8 at 900 s; at
    1000 s only node 9 is older than 240 s. *)
Lemma valueExternalized_purges_witness :
  let h := set_mNodeLastAccess [(8, 900 * 1000000000); (9, 0)] example_herder in
  exists h' evs,
    valueExternalized example_app 16 (example_value 3 value_a) h
      = Returned (h', evs)
    /\ (forall n, FBA_purgeNode n ∈ evs <->
                  exists t, (n, t) ∈ mNodeLastAccess h
                            /\ clock_now example_app - t
                               > chrono_seconds NODE_EXPIRATION_SECONDS)
    /\ (forall s, FBA_purgeSlots s ∈ evs <->
                  16 > LEDGER_VALIDITY_BRACKET
                  /\ s = wrap64 (16 - LEDGER_VALIDITY_BRACKET)).
Proof.
  eexists _, _. split; [vm_compute; reflexivity|].
  eapply (valueExternalized_purges example_app 16 (example_value 3 value_a)
            (set_mNodeLastAccess [(8, 900 * 1000000000); (9, 0)]
               example_herder)).
  - vm_compute. reflexivity.
  - vm_compute. reflexivity.
Defined.

Example valueExternalized_purges_node_9 :
  exists h' evs,
    valueExternalized example_app 16 (example_value 3 value_a)
      (set_mNodeLastAccess [(8, 900 * 1000000000); (9, 0)] example_herder)
    = Returned (h', evs)
    /\ evs = [BumpTimer_cancel; Fetcher_stopFetchingAll 0; Fetcher_clear 1;
              Ledger_externalizeValue example_txset;
              FBA_purgeNode 9; FBA_purgeSlots 6].
Proof. eexists _, _. split; vm_compute; reflexivity. Qed.

(** X10, witness: node 9, last seen at 0, is touched at 1000 s and the
    externalization at 1000 s does not purge it. *)
Lemma nodeTouched_not_purged_witness :
  let h := set_mNodeLastAccess [(8, 900 * 1000000000); (9, 0)] example_herder in
  exists h' evs,
    valueExternalized example_app 16 (example_value 3 value_a)
      (nodeTouched example_app 9 h) = Returned (h', evs)
    /\ FBA_purgeNode 9 ∉ evs.
Proof.
  eexists _, _. split; [vm_compute; reflexivity|].
  eapply (nodeTouched_not_purged example_app example_app 9 16
            (example_value 3 value_a)
            (set_mNodeLastAccess [(8, 900 * 1000000000); (9, 0)]
               example_herder)).
  - unfold smap_sorted. simpl. repeat constructor.
  - vm_compute. intro; discriminate.
  - vm_compute. reflexivity.
  - vm_compute. reflexivity.
Defined.

(** X11, witness: synced at ledger 5 with bracket 10, slot 7. *)
Lemma recvFBAEnvelope_bracket_witness :
  (slotIndex future_envelope
     < ledgerSeq (mLastClosedLedger synced_herder) - LEDGER_VALIDITY_BRACKET
   \/ ledgerSeq (mLastClosedLedger synced_herder) + LEDGER_VALIDITY_BRACKET
      < slotIndex future_envelope ->
   recvFBAEnvelope future_envelope 7%nat synced_herder = (synced_herder, []))
  /\ (ledgerSeq (mLastClosedLedger synced_herder) - LEDGER_VALIDITY_BRACKET
      <= slotIndex future_envelope
      <= ledgerSeq (mLastClosedLedger synced_herder) + LEDGER_VALIDITY_BRACKET ->
      snd (recvFBAEnvelope future_envelope 7%nat synced_herder)
      = [FBA_receiveEnvelope future_envelope 7%nat]).
Proof.
  apply (recvFBAEnvelope_bracket future_envelope 7%nat synced_herder);
    compute_goal.
Defined.

(** X12, witness: last closed ledger 3000000000, envelope for slot 0. *)
Lemma recvFBAEnvelope_int_cast_lower_bound_witness :
  let old := {| env_nodeID := 2; slotIndex := 0; env_payload := [] |} in
  minLedgerSeq herder_high_seq = 0
  /\ snd (recvFBAEnvelope old 7%nat herder_high_seq)
     = [FBA_receiveEnvelope old 7%nat].
Proof.
  apply (recvFBAEnvelope_int_cast_lower_bound
           {| env_nodeID := 2; slotIndex := 0; env_payload := [] |}
           7%nat herder_high_seq); compute_goal.
Defined.

(** Below [2^31 + LEDGER_VALIDITY_BRACKET] the [int] subtraction overflows
    and the outcome is the platform's: where it wraps, the lower end at
    ledger 2^31 is 2^31 - 10 and the envelope for slot 0 is dropped. *)
Example recvFBAEnvelope_overflow_window_wrapping :
  let old := {| env_nodeID := 2; slotIndex := 0; env_payload := [] |} in
  int_sub_out_of_range (INT_MIN - LEDGER_VALIDITY_BRACKET)
  = INT_MAX - LEDGER_VALIDITY_BRACKET + 1
  /\ minLedgerSeq herder_seq_2_31 = 2 ^ 31 - LEDGER_VALIDITY_BRACKET
  /\ recvFBAEnvelope old 7%nat herder_seq_2_31 = (herder_seq_2_31, []).
Proof. compute_goal. Qed.

(** X14, witness: a bump timer for slot 6, pending while ledger 9 closes. *)
Lemma bump_timer_outlives_ledgerClosed_witness :
  let ledger9 := {| ledgerSeq := 9; hash := 99; lh_closeTime := 1000 |} in
  let b := {| counter := 1; bvalue := example_value 3 value_a |} in
  let o' := set_herder (fst (ledgerClosed example_app ledger9 synced_herder))
              example_object in
  ballotDidHearFromQuorum 6 b synced_herder
    = Returned [Ev BumpTimer_cancel; BumpTimer_arm (2 ^ 1) 6 b]
  /\ expireBallot no_error 6 b example_object
     = Returned [FBA_prepareValue 6 (mCurrentValue example_object) true]
  /\ (BumpTimer_cancel ∉ snd (ledgerClosed example_app ledger9 synced_herder))
  /\ expireBallot no_error 6 b o' = AssertFailed
  /\ expireBallot operation_aborted 6 b o' = Returned []
  /\ (forall slot' v h' evs,
        valueExternalized example_app slot' v synced_herder
          = Returned (h', evs) ->
        exists rest, evs = BumpTimer_cancel :: rest).
Proof.
  apply (bump_timer_outlives_ledgerClosed example_app
           {| ledgerSeq := 9; hash := 99; lh_closeTime := 1000 |} 6
           {| counter := 1; bvalue := example_value 3 value_a |}
           no_error example_object); compute_goal.
Defined.

(** X15, witness: synced at ledger 5, a verified value for slot 6. *)
Lemma validateValue_synced_accept_witness :
  exists b txSet,
    xdr_from_opaque (example_value 3 value_a) = Some b
    /\ verifyStellarBallot b = true
    /\ 6 = wrap64 (ledgerSeq (mLastClosedLedger synced_herder) + 1)
    /\ lh_closeTime (mLastClosedLedger synced_herder) < closeTime (value b)
    /\ fetchTxSet example_app synced_herder (txSetHash (value b)) true
       = Some txSet
    /\ txSet_checkValid example_app txSet = true.
Proof.
  apply (validateValue_synced_accept example_app 6 2
           (example_value 3 value_a) 7%nat synced_herder).
  - reflexivity.
  - vm_compute. by left.
Defined.

(** X17, witness: three ledgers to wait, a verified value for slot 99. *)
Lemma validateValue_unsynced_accepts_witness :
  validateValue example_app 99 2 (example_value 3 value_a) 7%nat
    example_herder
  = (example_herder, [Cb 7%nat true]).
Proof.
  apply (validateValue_unsynced_accepts example_app 99 2
           (example_value 3 value_a) 7%nat example_herder
           {| nodeID := 3; signature := example_sign 3 value_a;
              value := value_a |}
           example_txset); compute_goal.
Defined.

(** X18, witness: the value is deferred while tx set 77 is missing, then the
    set arrives. *)
Lemma deferred_validation_resolved_witness :
  let r := recvTxSet example_app example_gateways example_txset
             herder_with_waiter in
  callbacks (snd r)
    = map (fun c => (c, negb ((mLedgersToWaitToParticipate example_herder =? 0)
                              && negb (txSet_checkValid example_app
                                         example_txset))))
          (default [] (mTxSetFetches example_herder !! 77) ++ [7%nat])
  /\ mTxSetFetches (fst r) !! 77 = None.
Proof.
  apply (deferred_validation_resolved catching_up_app example_app
           example_gateways 6 2 (example_value 3 value_a) 7%nat
           example_herder herder_with_waiter
           {| nodeID := 3; signature := example_sign 3 value_a;
              value := value_a |}
           example_txset); vm_compute; reflexivity.
Defined.

(** X19, witness: the king's ballot of the king-election example. *)
Lemma validateBallot_sync_accept_sound_witness :
  let ballot := {| counter := 1; bvalue := example_value 3 value_a |} in
  exists b,
    xdr_from_opaque (bvalue ballot) = Some b
    /\ closeTime (value b)
       <= wrap64 (wrap64 (pointToTimeT (clock_now example_app))
                  + MAX_TIME_SLIP_SECONDS)
    /\ counter_growth_ok (wrap64 (pointToTimeT (clock_now example_app)))
         (wrap64 (pointToTimeT (mLastTrigger example_herder)))
         (counter ballot) = true
    /\ DESIRED_BASE_FEE example_app <= 2 * baseFee (value b)
    /\ baseFee (value b) <= DESIRED_BASE_FEE example_app * 2
    /\ validateBallot_isKing example_herder 6 (counter ballot) (nodeID b)
       = true
    /\ validateBallot_isTrusted example_herder 6 (counter ballot) (nodeID b)
       = true
    /\ fst (validateBallot example_app 6 2 ballot 7%nat example_herder)
       = example_herder.
Proof.
  apply (validateBallot_sync_accept_sound example_app 6 2
           {| counter := 1; bvalue := example_value 3 value_a |} 7%nat
           example_herder).
  vm_compute. by left.
Defined.

(** X20, witness. *)
Lemma validateBallot_empty_quorum_never_accepts_witness :
  Cb 7%nat true
  ∉ snd (validateBallot example_app 6 2
           {| counter := 1; bvalue := example_value 1 value_a |} 7%nat
           herder_no_validators).
Proof.
  apply (validateBallot_empty_quorum_never_accepts example_app 6 2
           {| counter := 1; bvalue := example_value 1 value_a |} 7%nat
           herder_no_validators).
  reflexivity.
Defined.

(** X21, witness. *)
Lemma validateBallot_answer_leaves_unchanged_witness :
  let ballot := {| counter := 10000; bvalue := example_value 3 value_a |} in
  exists ok,
    validateBallot example_app 6 2 ballot 7%nat example_herder
    = (example_herder, [Cb 7%nat ok]).
Proof.
  apply (validateBallot_answer_leaves_unchanged example_app 6 2
           {| counter := 10000; bvalue := example_value 3 value_a |} 7%nat
           example_herder).
  vm_compute. intro; discriminate.
Defined.

(** X22, witness: counter 8 ten seconds after the last trigger:
    1000 + 60 < 990 + 255. *)
Lemma validateBallot_counter_ahead_rejected_witness :
  validateBallot example_app 6 2
    {| counter := 8; bvalue := example_value 3 value_a |} 7%nat example_herder
  = (example_herder, [Cb 7%nat false]).
Proof.
  apply (validateBallot_counter_ahead_rejected example_app 6 2
           {| counter := 8; bvalue := example_value 3 value_a |} 7%nat
           example_herder); compute_goal.
Defined.

(** X23, witness: an empty byte string does not decode. *)
Lemma validateBallot_sanity_rejections_witness :
  validateBallot example_app 6 2 {| counter := 1; bvalue := [] |} 7%nat
    example_herder
  = (example_herder, [Cb 7%nat false]).
Proof.
  apply (validateBallot_sanity_rejections example_app 6 2
           {| counter := 1; bvalue := [] |} 7%nat example_herder).
  left. reflexivity.
Defined.

(** X24, witness: values of nodes 2 and 3. *)
Lemma compareValues_orders_by_hash_witness :
  compareValues 6 1 (example_value 2 value_a) (example_value 3 value_b)
    = Returned (-1)
  /\ compareValues 6 1 (example_value 3 value_b) (example_value 2 value_a)
    = Returned 1.
Proof.
  apply (compareValues_orders_by_hash 6 1
           (example_value 2 value_a) (example_value 3 value_b)
           {| nodeID := 2; signature := example_sign 2 value_a;
              value := value_a |}
           {| nodeID := 3; signature := example_sign 3 value_b;
              value := value_b |}); compute_goal.
Defined.

(** X25, witness. *)
Lemma compareValues_zero_iff_witness :
  compareValues 6 1 (example_value 3 value_a) (example_value 3 value_a)
    = Returned 0 <->
  sha256_king 6 1 3 = sha256_king 6 1 3 /\ value_a = value_a.
Proof.
  apply (compareValues_zero_iff 6 1
           (example_value 3 value_a) (example_value 3 value_a)
           {| nodeID := 3; signature := example_sign 3 value_a;
              value := value_a |}
           {| nodeID := 3; signature := example_sign 3 value_a;
              value := value_a |}); compute_goal.
Defined.

(** X27, witness: the envelope for slot 7, stashed while at ledger 5, is
    replayed by the trigger after ledger 6 is closed. *)
Lemma triggerNextLedger_replays_stash_witness :
  let r := triggerNextLedger example_app example_gateways no_error
             object_with_stash in
  (exists evs1,
     forwarded evs1 = []
     /\ snd r
        = map Ev evs1
          ++ [FBA_prepareValue 7 (mCurrentValue (fst r)) false]
          ++ [Ev (FBA_receiveEnvelope future_envelope 7%nat)])
  /\ forwarded_actions (snd r) = [(future_envelope, 7%nat)]
  /\ mFutureEnvelopes (herder (fst r))
     = delete 7 (mFutureEnvelopes (herder object_with_stash)).
Proof.
  apply (triggerNextLedger_replays_stash example_app example_gateways
           object_with_stash).
  - intros p Hp. vm_compute in Hp.
    apply list_elem_of_singleton in Hp. by subst p.
  - right. compute_goal.
Defined.

(** X28, witness: the synced example node proposes at 1000 s. *)
Lemma triggerNextLedger_proposal_validates_witness :
  let r := triggerNextLedger example_app example_gateways no_error
             example_object in
  let b := proposedBallot example_app
             (set_mLastTrigger (clock_now example_app) synced_herder) in
  closeTime (value b)
    = Z.max (wrap64 (pointToTimeT (clock_now example_app)))
            (lh_closeTime (mLastClosedLedger synced_herder) + 1)
  /\ validateValue example_app
       (wrap64 (ledgerSeq (mLastClosedLedger synced_herder) + 1))
       2 (mCurrentValue (fst r)) 7%nat (herder (fst r))
     = (herder (fst r), [Cb 7%nat true]).
Proof.
  apply (triggerNextLedger_proposal_validates example_app example_app
           example_gateways 2 7%nat example_object example_txset);
    compute_goal.
Defined.

(** X29, witness: the local quorum set is asked for and then delivered. *)
Lemma quorumSet_mailbox_round_trip_witness :
  let q := getLocalQuorumSet (fba example_herder) in
  let o1 := fst (retrieveQuorumSet example_gateways 2 (qSet_hash q) 7%nat
                   example_object) in
  let r := recvFBAQuorumSet example_gateways q o1 in
  snd (retrieveQuorumSet example_gateways 2 (qSet_hash q) 7%nat
         example_object) = []
  /\ snd r = map (fun c => QSetCb c q)
                 (default [] (mFBAQSetFetches example_object !! qSet_hash q)
                  ++ [7%nat])
  /\ mFBAQSetFetches (fst r) !! qSet_hash q = None
  /\ (forall k, k <> qSet_hash q ->
        mFBAQSetFetches (fst r) !! k = mFBAQSetFetches example_object !! k)
  /\ herder (fst r) = herder example_object
  /\ snd (recvFBAQuorumSet example_gateways q (fst r)) = [].
Proof.
  apply (quorumSet_mailbox_round_trip example_gateways example_gateways 2
           (qSet_hash (getLocalQuorumSet (fba example_herder))) 7%nat
           (getLocalQuorumSet (fba example_herder)) example_object);
    reflexivity.
Defined.

(** X30, witness: the freshly constructed Herder, after one transaction is
    received. *)
Lemma reachable_invariant_witness :
  let o0 := fst (Herder_new example_app example_gateways (fba example_herder)) in
  let o1 := set_herder
              (snd (recvTransaction example_app (example_tx 1) (herder o0)))
              o0 in
  herder_inv (herder o1)
  /\ forall app slot v,
       valueExternalized app slot v (herder o1) <> AssertFailed.
Proof.
  apply (reachable_invariant
           (set_herder
              (snd (recvTransaction example_app (example_tx 1)
                      (herder (fst (Herder_new example_app example_gateways
                                      (fba example_herder))))))
              (fst (Herder_new example_app example_gateways
                      (fba example_herder))))).
  eapply reachable_step; [apply reachable_new | apply step_recvTransaction].
Defined.

End MoreExamples.
